(** * ParallelQR: the Householder kernels and the task scheduler of
      [src/ParallelQR/main.cpp], embedded in Rocq.

    Numbers are IEEE-754 binary64 values (Rocq's primitive [float]), C [int]s
    are [Z] (no theorem below relies on wrap-around: signed overflow is
    undefined in C++), the matrix and the two reflector vectors are
    [list float] buffers addressed by a flat index, the dependency table is
    the finite set of the cells whose flag is true, and the two TBB queues
    are FIFO lists. *)

From Stdlib Require Import ZArith Lia Floats.
From stdpp Require Import base tactics option list list_numbers sets gmap relations
  strings.

Local Open Scope Z_scope.

(** ** Buffers ([double *mat], [std::vector<double>]) *)

(** Reading or writing outside a buffer is undefined behaviour in C++.  The
    model reads [0] and drops the write; every theorem that depends on an
    access being in range says so in a hypothesis. *)
Definition load (buf : list float) (i : Z) : float :=
  if decide (0 ≤ i) then default 0%float (buf !! Z.to_nat i) else 0%float.

Definition store (buf : list float) (i : Z) (v : float) : list float :=
  if decide (0 ≤ i) then <[Z.to_nat i := v]> buf else buf.

(** [for (int i = lo; i < hi; i++) s = body(i, s);] for a body that assigns
    neither [i] nor [hi]. *)
Definition for_loop {S : Type} (lo hi : Z) (body : Z → S → S) (s : S) : S :=
  foldl (λ acc i, body i acc) s (seqZ lo (hi - lo)).

(** ** <cmath> *)

Definition fabs (x : float) : float := abs x.

(** C's [fmax]: a NaN argument is treated as missing data; both arguments
    are results of [fabs] at every call site, so the sign of a zero result
    never matters here. *)
Definition fmax (x y : float) : float :=
  if is_nan x then y
  else if is_nan y then x
  else if (x <? y)%float then y else x.

(** ** The state the kernels work on *)

Record kstate : Type := KState {
  mat : list float;             (* double *mat, row-major, n columns *)
  global_up_array : list float; (* std::vector<double> global_up_array *)
  global_b_array : list float   (* std::vector<double> global_b_array *)
}.

Definition set_mat (st : kstate) (m : list float) : kstate :=
  KState m (global_up_array st) (global_b_array st).

(** ** complete_task1, lines 53-131 *)

(** Lines 61-69: [cl] and [sm1] of pivot row [lpivot]. *)
Definition scan_row (m : list float) (n lpivot : Z) : float * float :=
  for_loop (lpivot + 1) n
    (λ k '(cl, sm1),
       let sm := fabs (load m (lpivot * n + k)) in
       (fmax sm cl, (sm1 + sm * sm)%float))
    (fabs (load m (lpivot * n + lpivot)), 0%float).

(** Lines 75-96: the scalars of the reflector, from [cl], [sm1] and the
    diagonal entry.  [hs_cl] is the final [cl] (the value stored on the
    diagonal), [hs_b] is [b] before it is inverted. *)
Record hscalars : Type := HScalars {
  hs_clinv : float; hs_d : float; hs_sm : float;
  hs_cl : float; hs_up : float; hs_b : float
}.

Definition householder_scalars (cl sm1 mpp : float) : hscalars :=
  let clinv := (1 / cl)%float in
  let d__1 := (mpp * clinv)%float in
  let sm := (d__1 * d__1)%float in
  let sm := (sm + sm1 * clinv * clinv)%float in
  let cl := (cl * sqrt sm)%float in
  let cl := if (0 <? mpp)%float then (- cl)%float else cl in
  let up := (mpp - cl)%float in
  (* mat[lpivot * n + lpivot] = cl; b = up * mat[lpivot * n + lpivot] *)
  let b := (up * cl)%float in
  HScalars clinv d__1 sm cl up b.

(** Lines 110-128 (and, verbatim, 148-166 of complete_task2): the reflector
    [(up, b)] of pivot row [lpivot] applied to row [j]. *)
Definition dot_tail (m : list float) (n lpivot j : Z) (sm : float) : float :=
  for_loop (lpivot + 1) n
    (λ i sm, (sm + load m (j * n + i) * load m (lpivot * n + i))%float) sm.

Definition axpy_tail (m : list float) (n lpivot j : Z) (sm : float) : list float :=
  for_loop (lpivot + 1) n
    (λ i m, store m (j * n + i)
              (load m (j * n + i) + sm * load m (lpivot * n + i))%float) m.

Definition apply_reflector (n lpivot : Z) (up b : float) (j : Z)
    (m : list float) : list float :=
  let sm := dot_tail m n lpivot j (load m (j * n + lpivot) * up)%float in
  if (sm =? 0)%float then m
  else
    let sm := (sm * b)%float in
    let m := store m (j * n + lpivot) (load m (j * n + lpivot) + sm * up)%float in
    axpy_tail m n lpivot j sm.

(** One iteration of the pivot loop of complete_task1 (lines 61-129). *)
Definition factor_pivot (n row_end col_end lpivot : Z) (st : kstate) : kstate :=
  let '(cl, sm1) := scan_row (mat st) n lpivot in
  if (cl <=? 0)%float then st
  else
    let mpp := load (mat st) (lpivot * n + lpivot) in
    let hs := householder_scalars cl sm1 mpp in
    let m1 := store (mat st) (lpivot * n + lpivot) (hs_cl hs) in
    if decide (row_end - lpivot < 0) then set_mat st m1
    else
      let b := (hs_up hs * load m1 (lpivot * n + lpivot))%float in
      if (0 <=? b)%float then set_mat st m1
      else
        let b := (1 / b)%float in
        KState
          (for_loop (lpivot + 1) col_end
             (apply_reflector n lpivot (hs_up hs) b) m1)
          (store (global_up_array st) lpivot (hs_up hs))
          (store (global_b_array st) lpivot b).

Definition complete_task1 (m n row_start row_end col_start col_end : Z)
    (st : kstate) : kstate :=
  let _row_start := if decide (row_start = 1) then 0 else row_start in
  for_loop _row_start row_end (factor_pivot n row_end col_end) st.

(** ** complete_task2, lines 133-169 *)

Definition update_pivot (n _col_start col_end lpivot : Z) (st : kstate) : kstate :=
  let up := load (global_up_array st) lpivot in
  let b := load (global_b_array st) lpivot in
  set_mat st
    (for_loop _col_start col_end (apply_reflector n lpivot up b) (mat st)).

Definition complete_task2 (m n row_start row_end col_start col_end : Z)
    (st : kstate) : kstate :=
  let _row_start := if decide (row_start = 1) then 0 else row_start in
  let _col_start := if decide (col_start = 1) then 0 else col_start in
  for_loop _row_start row_end (update_pivot n _col_start col_end) st.

(** ** Classes of binary64 values, over their [spec_float] image *)

Definition sf_zero (v : spec_float) : Prop :=
  match v with S754_zero _ => True | _ => False end.

Definition sf_finite (v : spec_float) : Prop :=
  match v with S754_zero _ | S754_finite _ _ _ => True | _ => False end.

(** Not below zero: a NaN, a zero of either sign, or a positive value. *)
Definition sf_nonneg (v : spec_float) : Prop :=
  match v with
  | S754_nan | S754_zero _ => True
  | S754_infinity s | S754_finite s _ _ => s = false
  end.

(** Zero or positive, and not a NaN. *)
Definition sf_pos0 (v : spec_float) : Prop :=
  match v with
  | S754_nan => False
  | S754_zero _ => True
  | S754_infinity s | S754_finite s _ _ => s = false
  end.

(** ** The pivot quantities as the specification words them (section 4.5.1)

    The entries of row [p] right of the diagonal, [M[p,k]] for
    [k = p+1 .. N-1], then [cl = max(|M[p,p]|, max_k |M[p,k]|)] and
    [sm1 = Σ_k M[p,k]²].  The maximum is [fmax] and the sum runs over
    increasing [k] from [0], which is the order the specification leaves
    open. *)
Definition row_tail (m : list float) (n p : Z) : list float :=
  (λ k, load m (p * n + k)) <$> seqZ (p + 1) (n - (p + 1)).

Definition spec_cl (m : list float) (n p : Z) : float :=
  foldl (λ acc x, fmax (fabs x) acc) (fabs (load m (p * n + p))) (row_tail m n p).

Definition spec_sm1 (m : list float) (n p : Z) : float :=
  foldl (λ acc x, (acc + x * x)%float) 0%float (row_tail m n p).

(** ** Tasks, the tables and the queues

    [include/bn2.h] is not part of the sources.  The fields of [Task] are
    the ones main.cpp reads. *)
Record Task : Type := MkTask {
  type : Z;            (* 1 = panel factor, 2 = panel update *)
  chunk_idx_i : Z;
  chunk_idx_j : Z;
  row_start : Z;
  row_end : Z;
  col_start : Z;
  col_end : Z;
  priority : Z;
  enq_nxt_t1 : bool
}.

Global Instance Task_eq_dec : EqDecision Task.
Proof. solve_decision. Defined.

(** The compile-time constants of main.cpp, lines 14-18. *)
Record config : Type := Config {
  NUM_THREADS : Z;
  BETA : Z;
  ALPHA : Z
}.

Definition main_cpp_config : config := Config 26 11 11.

(** [((int)BETA / (int)ALPHA)]: C division truncates. *)
Definition BETA_DIV_ALPHA (c : config) : Z := BETA c ÷ ALPHA c.

(** Modelled from the spec: [DependencyTableAtomic] of include/bn2.h, which
    is not in the sources.  Section 4.4: a grid of atomic booleans, all
    false after [init]; [set] stores, [get] loads.  The table is the set of
    the cells that hold [true]; a cell outside the grid, which the C++
    object cannot be asked for, reads as [false]. *)
Definition getDependency (d : gset (Z * Z)) (i j : Z) : bool :=
  bool_decide ((i, j) ∈ d).

Definition setDependency (d : gset (Z * Z)) (i j : Z) (v : bool) : gset (Z * Z) :=
  if v then {[ (i, j) ]} ∪ d else d ∖ {[ (i, j) ]}.

(** The globals of main.cpp and the caller's matrix.  [taskPQ] is the FIFO
    [tbb::concurrent_queue] (USE_PRIORITY_MAIN_QUEUE is 0): [push] appends,
    [try_pop] takes the head. *)
Record sched : Type := Sched {
  kernel_state : kstate;
  dependency_table : gset (Z * Z);
  taskPQ : list Task;
  wait_queue : list Task
}.

Definition push_taskPQ (t : Task) (s : sched) : sched :=
  Sched (kernel_state s) (dependency_table s) (taskPQ s ++ [t]) (wait_queue s).

Definition push_wait_queue (t : Task) (s : sched) : sched :=
  Sched (kernel_state s) (dependency_table s) (taskPQ s) (wait_queue s ++ [t]).

(** ** thdwork, lines 171-244

    One pass of the [while (1)] body is three phases: the ready queue
    (182-220), the wait queue (222-235) and the exit test (237-240). *)
Section Scheduler.
Variable cfg : config.
Variable getTask : Z → Z → Task.             (* task_table.getTask *)
Variables total_task_rows total_task_cols : Z. (* thread_args *)
Variables m n : Z.

(** The kernel call of lines 193-195 and 211-213. *)
Definition run_kernel (t : Task) (ks : kstate) : kstate :=
  if decide (type t = 1) then
    complete_task1 m n (row_start t) (row_end t) (col_start t) (col_end t) ks
  else if decide (type t = 2) then
    complete_task2 m n (row_start t) (row_end t) (col_start t) (col_end t) ks
  else ks.

(** Lines 197-209. *)
Definition enqueue_column (i j : Z) (s : sched) : sched :=
  for_loop (i + 1) total_task_rows
    (λ k s,
       let next_task := getTask k j in
       if (if decide (j = 0) then true
           else getDependency (dependency_table s) k (j - 1))
       then push_taskPQ next_task s
       else push_wait_queue next_task s)
    s.

(** Lines 185-219: what a worker does with the task it has popped. *)
Definition execute_task (new_task : Task) (s : sched) : sched :=
  let i := chunk_idx_i new_task in
  let j := chunk_idx_j new_task in
  if decide (type new_task = 1) then
    let ks := complete_task1 m n (row_start new_task) (row_end new_task)
                (col_start new_task) (col_end new_task) (kernel_state s) in
    enqueue_column i j
      (Sched ks (setDependency (dependency_table s) i j true)
         (taskPQ s) (wait_queue s))
  else if decide (type new_task = 2) then
    let ks := complete_task2 m n (row_start new_task) (row_end new_task)
                (col_start new_task) (col_end new_task) (kernel_state s) in
    let s' := Sched ks (setDependency (dependency_table s) i j true)
                (taskPQ s) (wait_queue s) in
    if enq_nxt_t1 new_task && bool_decide (j + 1 ≤ total_task_cols)
    then push_taskPQ (getTask ((j + 1) ÷ BETA_DIV_ALPHA cfg) (j + 1)) s'
    else s'
  else s.

Definition pop_taskPQ (rest : list Task) (s : sched) : sched :=
  Sched (kernel_state s) (dependency_table s) rest (wait_queue s).

(** Lines 182-220. *)
Definition ready_phase (s : sched) : sched :=
  match taskPQ s with
  | [] => s
  | new_task :: rest => execute_task new_task (pop_taskPQ rest s)
  end.

(** Lines 222-235. *)
Definition wait_phase (s : sched) : sched :=
  match wait_queue s with
  | [] => s
  | local_task :: rest =>
    let i := chunk_idx_i local_task in
    let j := chunk_idx_j local_task in
    let s' := Sched (kernel_state s) (dependency_table s) (taskPQ s) rest in
    if getDependency (dependency_table s) i (j - 1)
    then push_taskPQ local_task s'
    else push_wait_queue local_task s'
  end.

(** Line 237: the cell the exit test reads, and the test. *)
Definition exit_cell : Z * Z :=
  (total_task_rows - 1, BETA_DIV_ALPHA cfg * (total_task_rows - 1)).

Definition exit_test (s : sched) : bool :=
  getDependency (dependency_table s) exit_cell.1 exit_cell.2.

(** One pass of the loop body; the boolean is [break]. *)
Definition thdwork_iter (s : sched) : sched * bool :=
  let s := wait_phase (ready_phase s) in
  (s, exit_test s).

(** A worker running alone: [None] when it is still looping after [fuel]
    passes. *)
Fixpoint thdwork (fuel : nat) (s : sched) : option sched :=
  match fuel with
  | O => None
  | S fuel =>
    let '(s', brk) := thdwork_iter s in
    if brk then Some s' else thdwork fuel s'
  end.

(** [workers] threads scheduled one after the other (a schedule the
    threads may follow): each runs its loop to its exit. *)
Fixpoint workers_in_turn (fuel : nat) (workers : nat) (s : sched) : option sched :=
  match workers with
  | O => Some s
  | S workers =>
    match thdwork fuel s with
    | Some s' => workers_in_turn fuel workers s'
    | None => None
    end
  end.

(** Several workers at once.  [running] holds the tasks that have been
    popped and whose worker has not yet reached line 196 or 214; a worker
    pops, later finishes its task (kernel, flag and successors, taken as
    one step), or makes its pass over the wait queue.  Steps of different
    workers interleave freely. *)
Record pool : Type := Pool { shared : sched; running : list Task }.

Inductive step : pool → pool → Prop :=
| step_pop p t rest :
    taskPQ (shared p) = t :: rest →
    step p (Pool (pop_taskPQ rest (shared p)) (t :: running p))
| step_finish p t r1 r2 :
    running p = r1 ++ t :: r2 →
    step p (Pool (execute_task t (shared p)) (r1 ++ r2))
| step_wait p :
    step p (Pool (wait_phase (shared p)) (running p)).

(** What [dagqrf] leaves before the threads start: the seed in the ready
    queue, nothing else queued or running, every flag false. *)
Definition seeded (p : pool) : Prop :=
  taskPQ (shared p) = [getTask 0 0] ∧ wait_queue (shared p) = []
  ∧ running p = [] ∧ dependency_table (shared p) = ∅.
End Scheduler.

(** ** dagqrf, lines 273-308 *)

(** [std::ceil((double)a / b)] converted to [int], for [b] other than 0
    (the quotient of two [int]s is far from the next integer, or is one, so
    the rounding of the division does not show). *)
Definition ceil_div (a b : Z) : Z := - ((- a) / b).

(** How a call of the driver ends. *)
Inductive outcome (A : Type) : Type :=
| Returns (a : A)          (* the call returns *)
| Throws_length_error      (* [std::length_error] leaves the call *)
| Undefined                (* a division by zero: the behaviour is undefined *)
| Spins.                   (* a worker is still in its loop after [fuel] passes *)
Global Arguments Returns {A} a.
Global Arguments Throws_length_error {A}.
Global Arguments Undefined {A}.
Global Arguments Spins {A}.

(** [std::vector::resize(k, 0.0)] called with the [int] [k]: present
    elements are kept.  The count is converted to [size_t], so that a
    negative [k] is a count above [max_size()] and [std::length_error] is
    thrown: [None]. *)
Definition resize (v : list float) (k : Z) : option (list float) :=
  if decide (k < 0) then None
  else Some (take (Z.to_nat k) v ++ replicate (Z.to_nat k - length v) 0%float).

Section Driver.
Variable cfg : config.
(** [task_table.init(total_task_rows, total_task_cols, ALPHA, BETA,
    mat_rows, mat_cols)] followed by [getTask]. *)
Variable task_table : Z → Z → Z → Z → Z → Z → Z → Z → Task.

Definition total_rows (mat_rows : Z) : Z := ceil_div mat_rows (BETA cfg).
Definition total_cols (mat_rows : Z) : Z := ceil_div mat_rows (ALPHA cfg).

Definition driver_table (mat_rows mat_cols : Z) : Z → Z → Task :=
  task_table (total_rows mat_rows) (total_cols mat_rows)
    (ALPHA cfg) (BETA cfg) mat_rows mat_cols.

(** Lines 278-296 when line 284 does not throw, from the globals of a
    fresh process (empty vectors and queues); [None] when a [resize]
    throws. *)
Definition dagqrf_setup (mat : list float) (mat_rows mat_cols : Z)
    : option sched :=
  up_array ← resize [] mat_rows;
  b_array ← resize [] mat_rows;
  Some (Sched (KState mat up_array b_array) ∅
          [driver_table mat_rows mat_cols 0 0] []).

(** The whole call, with the workers taken in turn: the matrix and the
    [up_array] handed back to the caller.
    - With [BETA] or [ALPHA] zero the quotient of line 275 or 276 is
      infinite or a NaN, whose conversion to [int] is undefined, and the
      integer division [BETA / ALPHA] of lines 217 and 237 traps.
    - A negative [mat_rows] makes the [resize] of line 278 throw.
    - A negative [NUM_THREADS] makes the vector constructor of line 284
      throw, after the resizes and before the seed is queued. *)
Definition dagqrf (fuel : nat) (mat : list float) (mat_rows mat_cols : Z)
    : outcome (list float * list float) :=
  if decide (BETA cfg = 0 ∨ ALPHA cfg = 0) then Undefined
  else
    match dagqrf_setup mat mat_rows mat_cols with
    | None => Throws_length_error
    | Some s0 =>
      if decide (NUM_THREADS cfg < 0) then Throws_length_error
      else
        match workers_in_turn cfg (driver_table mat_rows mat_cols)
                (total_rows mat_rows) (total_cols mat_rows) mat_rows mat_cols
                fuel (Z.to_nat (NUM_THREADS cfg)) s0 with
        | None => Spins
        | Some s =>
          let 'KState mat' up_array _ := kernel_state s in
          Returns (mat', up_array)
        end
    end.
End Driver.

(** Modelled from the spec: [TaskTable] of include/bn2.h, which is not in
    the sources.  Section 4.3: [row_start = i·BETA],
    [row_end = min((i+1)·BETA, M)], [col_start = j·ALPHA],
    [col_end = min((j+1)·ALPHA, M)], [type = 1] iff [j == i·R], else 2,
    [priority = (TR - i)·2 + (type == 1 ? 1 : 0)]; section 4.6, R3:
    [enq_nxt_t1] on a type-2 task iff [j + 1 == (i+1)·R] and [i + 1 < TR];
    [R = BETA / ALPHA]. *)
Definition spec_task_table (TR TC alpha beta M N : Z) (i j : Z) : Task :=
  let R := beta ÷ alpha in
  let ty := if decide (j = i * R) then 1 else 2 in
  MkTask ty i j
    (i * beta) (Z.min ((i + 1) * beta) M)
    (j * alpha) (Z.min ((j + 1) * alpha) M)
    ((TR - i) * 2 + (if decide (ty = 1) then 1 else 0))
    (bool_decide (ty = 2 ∧ j + 1 = (i + 1) * R ∧ i + 1 < TR)).

(** The entry conditions of the specification (sections 4.7 and 7), for a
    call with [W] workers. *)
Definition valid_configuration (alpha beta M N W : Z) : bool :=
  bool_decide (0 < alpha) && bool_decide (0 < beta)
  && bool_decide (0 < M) && bool_decide (0 < N)
  && bool_decide (beta `mod` alpha = 0) && bool_decide (0 < W).

(** ** Reflector slots: who writes them, and when a consumer may run *)

(** Whether the iteration of complete_task1 for [lpivot] reaches lines
    105-106, the only stores to the reflector vectors. *)
Definition stores_reflector (n row_end lpivot : Z) (st : kstate) : bool :=
  let '(cl, sm1) := scan_row (mat st) n lpivot in
  if (cl <=? 0)%float then false
  else
    let mpp := load (mat st) (lpivot * n + lpivot) in
    let hs := householder_scalars cl sm1 mpp in
    let m1 := store (mat st) (lpivot * n + lpivot) (hs_cl hs) in
    if decide (row_end - lpivot < 0) then false
    else
      let b := (hs_up hs * load m1 (lpivot * n + lpivot))%float in
      negb (0 <=? b)%float.

(** complete_task1 together with the slots it stores to, in the order of
    the stores. *)
Definition complete_task1_writes (m n row_start row_end col_start col_end : Z)
    (st : kstate) : kstate * list Z :=
  let _row_start := if decide (row_start = 1) then 0 else row_start in
  for_loop _row_start row_end
    (λ lpivot '(st, written),
       (factor_pivot n row_end col_end lpivot st,
        if stores_reflector n row_end lpivot st
        then written ++ [lpivot] else written))
    (st, []).

(** [t] is the descriptor the table holds at its coordinates. *)
Definition table_entry (getTask : Z → Z → Task) (t : Task) : Prop :=
  t = getTask (chunk_idx_i t) (chunk_idx_j t).

(** A panel-factor task higher in the grid column of [t] has set its flag. *)
Definition has_producer (getTask : Z → Z → Task) (d : gset (Z * Z)) (t : Task)
    : Prop :=
  ∃ i, i < chunk_idx_i t ∧ (i, chunk_idx_j t) ∈ d
       ∧ type (getTask i (chunk_idx_j t)) = 1.

(** ** Fixtures for the examples

    A 3x3 grid whose column [j] is factored at row [j], with empty row and
    column ranges (the kernels do nothing), [R = 1]; the pool it is seeded
    with, and the pool reached when [(1,1)] completes while a worker still
    holds [(2,0)]: the update [(2,1)] is parked in the wait queue. *)
Definition staircase_table (i j : Z) : Task :=
  MkTask (if decide (i = j) then 1 else 2) i j 0 0 0 0 0
    (bool_decide (i = j + 1)).

Definition staircase_config : config := Config 3 1 1.

Definition staircase_seed : pool :=
  Pool (Sched (KState [] [] []) ∅ [staircase_table 0 0] []) [].

Definition staircase_pool : pool :=
  Pool (Sched (KState [] [] []) {[ (1, 1); (1, 0); (0, 0) ]}
          [] [staircase_table 2 1])
    [staircase_table 2 0].

Definition identity4 : list float :=
  [1; 0; 0; 0;  0; 1; 0; 0;  0; 0; 1; 0;  0; 0; 0; 1]%float.

(** The scenario of section 8: [M = N = 4], [ALPHA = BETA = 2], two
    workers, on the identity.  [grid4] is the table of section 4.3 for it;
    [identity4_after a b] is the kernel state in which panel 0 (rows 0, 1)
    has been factored iff [a], and panel 1 (rows 2, 3) iff [b]. *)
Definition config_2_2 : config := Config 2 2 2.

Definition grid4 (i j : Z) : Task := driver_table config_2_2 spec_task_table 4 4 i j.

Definition identity4_after (a b : bool) : kstate :=
  let d (f : bool) := if f then (-1)%float else 1%float in
  let u (f : bool) := if f then 2%float else 0%float in
  let v (f : bool) := if f then (-0.5)%float else 0%float in
  KState
    [d a; 0; 0; 0;  0; d a; 0; 0;  0; 0; d b; 0;  0; 0; 0; d b]%float
    [u a; u a; u b; u b] [v a; v a; v b; v b].

(** The same number: the same binary64 value, or two zeros (of either
    sign, which [==] does not tell apart). *)
Definition same_value (x y : float) : Prop :=
  x = y ∨ (is_zero x = true ∧ is_zero y = true).

(** ** Blocks of cells

    The cell [q] of the buffer lies in row [q / n], column [q mod n]
    ([0 < n]).  [in_block n r0 r1 c0 q]: its row is in [[r0, r1)] and its
    column is [c0] or more.  Two buffers [agree] on a set of cells when they
    hold the same values there. *)
Definition in_block (n r0 r1 c0 q : Z) : Prop :=
  r0 ≤ q / n < r1 ∧ c0 ≤ q `mod` n.

Definition agree (Q : Z → Prop) (m1 m2 : list float) : Prop :=
  ∀ q, Q q → load m1 q = load m2 q.

(** The start of a loop after lines 57, 136 and 137. *)
Definition effective_start (x : Z) : Z := if decide (x = 1) then 0 else x.

(** ** The priority queue of lines 39-48

    With USE_PRIORITY_MAIN_QUEUE set to 1, [taskPQ] is a
    [tbb::concurrent_priority_queue] ordered by [TaskComparator]. *)

(** Lines 39-43. *)
Definition TaskComparator (a b : Task) : bool := priority a <? priority b.

(** [try_pop] of the priority queue takes out a task of highest priority:
    none of the tasks left behind compares above it.  Which of several
    such tasks is taken is left open. *)
Definition priority_pop (q : list Task) (t : Task) (rest : list Task) : Prop :=
  ∃ l1 l2, q = l1 ++ t :: l2 ∧ rest = l1 ++ l2
           ∧ ∀ u, u ∈ rest → TaskComparator t u = false.

Section PriorityScheduler.
Variable cfg : config.
Variable getTask : Z → Z → Task.
Variables total_task_rows total_task_cols : Z.
Variables m n : Z.

(** The pool of workers over the priority queue: as [step], but a worker
    pops by [priority_pop]. *)
Inductive step_priority : pool → pool → Prop :=
| step_priority_pop p t rest :
    priority_pop (taskPQ (shared p)) t rest →
    step_priority p (Pool (pop_taskPQ rest (shared p)) (t :: running p))
| step_priority_finish p t r1 r2 :
    running p = r1 ++ t :: r2 →
    step_priority p
      (Pool (execute_task cfg getTask total_task_rows total_task_cols m n
               t (shared p)) (r1 ++ r2))
| step_priority_wait p :
    step_priority p (Pool (wait_phase (shared p)) (running p)).
End PriorityScheduler.

(** ** save, lines 246-271

    The output stream is the sequence of the values handed to
    [operator<<]; how a [double] is printed is not modelled.  The file
    system answers through [is_open] (line 249) and [fail i], the value of
    [outfile.fail()] at line 265 after row [i]. *)
Inductive token : Type :=
| Num (x : float)
| Space
| Newline.

Inductive save_result : Type :=
| Saved
| Thrown (what : string).

(** Lines 256-264. *)
Definition save_row (mat : list float) (mat_cols i : Z) (out : list token)
    : list token :=
  for_loop 0 mat_cols
    (λ j out,
       let out := out ++ [Num (load mat (i * mat_cols + j))] in
       if decide (j < mat_cols - 1) then out ++ [Space] else out)
    out
  ++ [Newline].

(** Lines 254-269 over the rows still to be written. *)
Fixpoint save_rows (fail : Z → bool) (mat : list float) (mat_cols : Z)
    (filename : string) (rows : list Z) (out : list token)
    : list token * save_result :=
  match rows with
  | [] => (out, Saved)
  | i :: rows =>
    let out := save_row mat mat_cols i out in
    if fail i
    then (out, Thrown ("Error writing matrix data to file: " +:+ filename))
    else save_rows fail mat mat_cols filename rows out
  end.

Definition save (is_open : bool) (fail : Z → bool) (mat : list float)
    (mat_rows mat_cols : Z) (filename : string) : list token * save_result :=
  if negb is_open
  then ([], Thrown ("Error opening file for writing: " +:+ filename))
  else save_rows fail mat mat_cols filename (seqZ 0 mat_rows) [].

(** The numbers of a token sequence, in order. *)
Definition numbers (out : list token) : list float :=
  omap (λ t, match t with Num x => Some x | _ => None end) out.

(** The sizes of the three buffers of a kernel state. *)
Definition shape (st : kstate) : nat * nat * nat :=
  (length (mat st), length (global_up_array st), length (global_b_array st)).

(** The text of a row as a reader of the file sees it: the values, one
    [Space] between two neighbours, a [Newline] at the end. *)
Fixpoint join (xs : list token) : list token :=
  match xs with
  | [] => []
  | x :: xs' =>
    match xs' with
    | [] => [x]
    | _ :: _ => x :: Space :: join xs'
    end
  end.

Definition row_line (mat : list float) (mat_cols i : Z) : list token :=
  join ((λ j, Num (load mat (i * mat_cols + j))) <$> seqZ 0 mat_cols)
  ++ [Newline].

(** ** The pool with its history

    The rows a task takes its pivots from (lines 57-59 and 136-141): the
    slots of the reflector vectors that complete_task1 may store to
    (lines 105-106) and that complete_task2 reads (lines 143-144). *)
Definition pivot_rows (t : Task) (r : Z) : Prop :=
  effective_start (row_start t) ≤ r < row_end t.

Section TracedScheduler.
Variable cfg : config.
Variable getTask : Z → Z → Task.
Variables total_task_rows total_task_cols : Z.
Variables m n : Z.

(** The steps of [step], on a pool paired with the tasks completed so far,
    latest first: a task enters the history in the step in which its worker
    runs its kernel, sets its flag and queues its successors. *)
Inductive step_traced : pool * list Task → pool * list Task → Prop :=
| traced_pop p h t rest :
    taskPQ (shared p) = t :: rest →
    step_traced (p, h) (Pool (pop_taskPQ rest (shared p)) (t :: running p), h)
| traced_finish p h t r1 r2 :
    running p = r1 ++ t :: r2 →
    step_traced (p, h)
      (Pool (execute_task cfg getTask total_task_rows total_task_cols m n
               t (shared p)) (r1 ++ r2), t :: h)
| traced_wait p h :
    step_traced (p, h) (Pool (wait_phase (shared p)) (running p), h).
End TracedScheduler.

(** A table in which every update task takes its pivots from rows of each
    panel factor above it in its grid column: the slots it reads are slots
    of its producers. *)
Definition reads_from_producers (getTask : Z → Z → Task) : Prop :=
  ∀ i j k, type (getTask i j) = 1 → type (getTask k j) = 2 → i < k →
           ∀ r, pivot_rows (getTask k j) r → pivot_rows (getTask i j) r.

(** ** More fixtures

    A 2x2 grid for a 4x4 matrix with [ALPHA = BETA = 2] in which the update
    [(i, j)] takes its pivots from the rows of panel [j] and applies them to
    the rows of block [i], and the last update of a grid row is followed by
    the panel factor on its right. *)
Definition column_table (i j : Z) : Task :=
  MkTask (if decide (i = j) then 1 else 2) i j
    (2 * j) (2 * j + 2) (2 * i) (2 * i + 2) 0 (bool_decide (i = j + 1)).

Definition zeros4 : list float := [0; 0; 0; 0]%float.

(** The pool [dagqrf] seeds for the identity scenario, for a table [tbl]. *)
Definition identity4_seed (tbl : Z → Z → Task) : pool :=
  Pool (Sched (KState identity4 zeros4 zeros4) ∅ [tbl 0 0] []) [].

(** Two descriptors with the same type, coordinates and ranges; they may
    differ in [priority] and [enq_nxt_t1]. *)
Definition same_descriptor (t u : Task) : Prop :=
  type t = type u ∧ chunk_idx_i t = chunk_idx_i u
  ∧ chunk_idx_j t = chunk_idx_j u
  ∧ row_start t = row_start u ∧ row_end t = row_end u
  ∧ col_start t = col_start u ∧ col_end t = col_end u.

(** Modelled from the spec: [TaskTable] of include/bn2.h as above, with
    [enq_nxt_t1] as the closing sentence of R3 words it, "the task
    immediately to the left of panel i+1's factor": the type-2 task
    [(i, j)] with [j + 1 == i·R], whose right neighbour is the factor of its
    own grid row, the task rule R2 pushes.  (The formula of R3,
    [j + 1 == (i+1)·R], names the task one grid row higher.) *)
Definition spec_task_table_left (TR TC alpha beta M N : Z) (i j : Z) : Task :=
  let R := beta ÷ alpha in
  let ty := if decide (j = i * R) then 1 else 2 in
  MkTask ty i j
    (i * beta) (Z.min ((i + 1) * beta) M)
    (j * alpha) (Z.min ((j + 1) * alpha) M)
    ((TR - i) * 2 + (if decide (ty = 1) then 1 else 0))
    (bool_decide (ty = 2 ∧ j + 1 = i * R)).

(** The states of the pool in the identity scenario, for a table [tbl]:
    the seed queued or held; (0,0) completed and (1,0) queued or held;
    (1,0) completed as well, and (1,1) queued or held if [enq_nxt_t1] of
    (1,0) is set; all three completed. *)
Definition identity4_stage (tbl : Z → Z → Task) (p : pool) : Prop :=
  wait_queue (shared p) = []
  ∧ ((kernel_state (shared p) = identity4_after false false
      ∧ dependency_table (shared p) = ∅
      ∧ taskPQ (shared p) ++ running p = [tbl 0 0])
     ∨ (kernel_state (shared p) = identity4_after true false
        ∧ dependency_table (shared p) = {[ (0, 0) ]} ∪ ∅
        ∧ taskPQ (shared p) ++ running p = [tbl 1 0])
     ∨ (kernel_state (shared p) = identity4_after true false
        ∧ dependency_table (shared p) = {[ (1, 0) ]} ∪ ({[ (0, 0) ]} ∪ ∅)
        ∧ taskPQ (shared p) ++ running p
          = if enq_nxt_t1 (tbl 1 0) then [tbl 1 1] else [])
     ∨ (kernel_state (shared p) = identity4_after true true
        ∧ dependency_table (shared p)
          = {[ (1, 1) ]} ∪ ({[ (1, 0) ]} ∪ ({[ (0, 0) ]} ∪ ∅))
        ∧ taskPQ (shared p) ++ running p = [])).

(** The pool of the identity scenario under [column_table] when (0,0) has
    completed and a worker holds the update (1,0). *)
Definition column_pool : pool :=
  Pool (Sched (identity4_after true false) ({[ (0, 0) ]} ∪ ∅) [] [])
    [column_table 1 0].

(* ================================================================== *)
(** * Proofs *)
(* ================================================================== *)

(** ** Facts on binary64 arithmetic

    Everything here is derived from the specification of the primitive
    operations over [spec_float] ([FloatAxioms]). *)

Module FloatFacts.

Lemma Prim2SF_zero : Prim2SF 0%float = S754_zero false.
Proof. reflexivity. Qed.

Lemma Prim2SF_infinity : Prim2SF infinity = S754_infinity false.
Proof. reflexivity. Qed.

Lemma SFcompare_refl v : v ≠ S754_nan → SFcompare v v = Some Eq.
Proof.
  destruct v as [[]|[]| |[] m e]; cbn; try congruence; intros _.
  - by rewrite Z.compare_refl, Pos.compare_cont_refl.
  - by rewrite Z.compare_refl, Pos.compare_cont_refl.
Qed.

Lemma is_nan_spec x : is_nan x = true ↔ Prim2SF x = S754_nan.
Proof.
  unfold is_nan. rewrite FloatAxioms.eqb_spec. unfold SFeqb.
  destruct (Prim2SF x) eqn:E; try (rewrite SFcompare_refl by done); cbn;
    intuition discriminate.
Qed.

Lemma is_zero_spec x : is_zero x = true ↔ sf_zero (Prim2SF x).
Proof.
  unfold is_zero. rewrite FloatAxioms.eqb_spec. change (Prim2SF zero) with (S754_zero false).
  destruct (Prim2SF x) as [[]|[]| |[] m e]; cbn; intuition discriminate.
Qed.

Lemma eqb_zero_spec x : (x =? 0)%float = true ↔ sf_zero (Prim2SF x).
Proof. apply is_zero_spec. Qed.

Lemma is_finite_spec x : is_finite x = true ↔ sf_finite (Prim2SF x).
Proof.
  unfold is_finite, is_infinity.
  destruct (is_nan x) eqn:Hn.
  - apply is_nan_spec in Hn. rewrite Hn. cbn. intuition discriminate.
  - assert (Prim2SF x ≠ S754_nan) as Hn'.
    { intros H. apply is_nan_spec in H. congruence. }
    rewrite FloatAxioms.eqb_spec, FloatAxioms.abs_spec, Prim2SF_infinity.
    destruct (Prim2SF x) as [[]|[]| |[] m e]; cbn; intuition (discriminate || congruence).
Qed.

Lemma ltb_zero_false x : (x <? 0)%float = false ↔ sf_nonneg (Prim2SF x).
Proof.
  rewrite FloatAxioms.ltb_spec, Prim2SF_zero.
  destruct (Prim2SF x) as [[]|[]| |[] m e]; cbn; intuition (discriminate || congruence).
Qed.

Lemma zero_ltb_true x :
  (0 <? x)%float = true →
  Prim2SF x = S754_infinity false ∨ ∃ m e, Prim2SF x = S754_finite false m e.
Proof.
  rewrite FloatAxioms.ltb_spec, Prim2SF_zero.
  destruct (Prim2SF x) as [[]|[]| |[] m e]; cbn; try discriminate; eauto.
Qed.

Lemma binary_round_aux_cases sx mx ex lx :
  let r := binary_round_aux prec emax sx mx ex lx in
  r = S754_nan ∨ r = S754_zero sx ∨ r = S754_infinity sx
  ∨ ∃ m e, r = S754_finite sx m e.
Proof.
  unfold binary_round_aux.
  destruct (shr_fexp prec emax mx ex lx) as [mrs' e'].
  destruct (shr_fexp prec emax _ e' loc_Exact) as [mrs'' e''].
  destruct (shr_m mrs''); [|destruct (Z.leb _ _)|]; eauto 6.
Qed.

Lemma binary_round_aux_nonneg mx ex lx :
  sf_nonneg (binary_round_aux prec emax false mx ex lx).
Proof.
  destruct (binary_round_aux_cases false mx ex lx) as [H|[H|[H|(m&e&H)]]];
    rewrite H; done.
Qed.

Lemma fabs_nonneg x : sf_nonneg (Prim2SF (fabs x)).
Proof.
  unfold fabs. rewrite FloatAxioms.abs_spec. by destruct (Prim2SF x) as [[]|[]| |[] m e].
Qed.

Lemma mul_nonneg x y :
  sf_nonneg (Prim2SF x) → sf_nonneg (Prim2SF y) → sf_nonneg (Prim2SF (x * y)).
Proof.
  rewrite FloatAxioms.mul_spec. unfold SF64mul.
  destruct (Prim2SF x) as [sx|sx| |sx mx ex], (Prim2SF y) as [sy|sy| |sy my ey];
    cbn [sf_nonneg SFmul]; try done; try (by intros -> ->).
  intros -> ->. apply binary_round_aux_nonneg.
Qed.

Lemma sqrt_nonneg x : sf_nonneg (Prim2SF (sqrt x)).
Proof.
  rewrite FloatAxioms.sqrt_spec. unfold SF64sqrt, SFsqrt.
  destruct (Prim2SF x) as [sx|[]| |[] mx ex]; try done.
  destruct (SFsqrt_core_binary prec emax (Z.pos mx) ex) as [[mz ez] lz].
  apply binary_round_aux_nonneg.
Qed.

(** [|x| * |x|] and [x * x] are the same binary64 value. *)
Lemma fabs_sq x : (fabs x * fabs x)%float = (x * x)%float.
Proof.
  apply Prim2SF_inj. unfold fabs. rewrite !FloatAxioms.mul_spec, FloatAxioms.abs_spec. unfold SF64mul.
  by destruct (Prim2SF x) as [[]|[]| |[] m e].
Qed.

Lemma fmax_cases x y : fmax x y = x ∨ fmax x y = y.
Proof. unfold fmax. repeat case_match; auto. Qed.

(** A product with a zero is a zero when the other factor is finite. *)
Lemma mul_zero_r x z :
  sf_finite (Prim2SF x) → sf_zero (Prim2SF z) → sf_zero (Prim2SF (x * z)).
Proof.
  rewrite FloatAxioms.mul_spec. unfold SF64mul.
  by destruct (Prim2SF x) as [sx|sx| |sx mx ex], (Prim2SF z) as [sy|sy| |sy my ey].
Qed.

Lemma zero_ltb_leb x : (0 <? x)%float = true → (x <=? 0)%float = false.
Proof.
  intros H. rewrite FloatAxioms.leb_spec, Prim2SF_zero.
  by destruct (zero_ltb_true x H) as [->|(m&e&->)].
Qed.

Lemma add_zero_zero x y :
  sf_zero (Prim2SF x) → sf_zero (Prim2SF y) → sf_zero (Prim2SF (x + y)).
Proof.
  rewrite FloatAxioms.add_spec. unfold SF64add.
  by destruct (Prim2SF x) as [[]|sx| |sx mx ex], (Prim2SF y) as [[]|sy| |sy my ey].
Qed.

Lemma opp_nonneg_not_pos x :
  sf_nonneg (Prim2SF x) → (0 <? - x)%float = false.
Proof.
  rewrite FloatAxioms.ltb_spec, FloatAxioms.opp_spec, Prim2SF_zero.
  destruct (Prim2SF x) as [[]|[]| |[] m e]; cbn; intuition discriminate.
Qed.

Lemma ltb_zero_asym x : (x <? 0)%float = true → (0 <? x)%float = false.
Proof.
  rewrite !FloatAxioms.ltb_spec, Prim2SF_zero.
  destruct (Prim2SF x) as [[]|[]| |[] m e]; cbn; intuition discriminate.
Qed.

Lemma pos0_not_nan x : sf_pos0 (Prim2SF x) → is_nan x = false.
Proof.
  intros H. destruct (is_nan x) eqn:E; [|done].
  apply is_nan_spec in E. by rewrite E in H.
Qed.

Lemma fabs_pos0 x : is_nan x = false → sf_pos0 (Prim2SF (fabs x)).
Proof.
  intros Hn. assert (Prim2SF x ≠ S754_nan) as Hx.
  { intros E%is_nan_spec. congruence. }
  unfold fabs. rewrite FloatAxioms.abs_spec.
  by destruct (Prim2SF x) as [[]|[]| |[] m e].
Qed.

Lemma fabs_zero x : sf_zero (Prim2SF (fabs x)) → sf_zero (Prim2SF x).
Proof.
  unfold fabs. rewrite FloatAxioms.abs_spec.
  by destruct (Prim2SF x) as [[]|[]| |[] m e].
Qed.

Lemma fmax_pos0 x y :
  sf_pos0 (Prim2SF x) → sf_pos0 (Prim2SF y) → sf_pos0 (Prim2SF (fmax x y)).
Proof. intros Hx Hy. by destruct (fmax_cases x y) as [->| ->]. Qed.

(** A maximum of two values that are not below zero is zero only when both
    are. *)
Lemma fmax_zero x y :
  sf_pos0 (Prim2SF x) → sf_pos0 (Prim2SF y) → sf_zero (Prim2SF (fmax x y)) →
  sf_zero (Prim2SF x) ∧ sf_zero (Prim2SF y).
Proof.
  intros Hx Hy. unfold fmax.
  rewrite (pos0_not_nan x Hx), (pos0_not_nan y Hy).
  destruct (x <? y)%float eqn:E; rewrite FloatAxioms.ltb_spec in E; revert E Hx Hy;
    destruct (Prim2SF x) as [[]|[]| |[] mx ex],
             (Prim2SF y) as [[]|[]| |[] my ey]; cbn; intuition discriminate.
Qed.

Lemma leb_zero_pos0 x :
  sf_pos0 (Prim2SF x) → (x <=? 0)%float = true → sf_zero (Prim2SF x).
Proof.
  rewrite FloatAxioms.leb_spec, Prim2SF_zero.
  destruct (Prim2SF x) as [[]|[]| |[] m e]; cbn; intuition discriminate.
Qed.

Lemma zero_finite v : sf_zero v → sf_finite v.
Proof. by destruct v. Qed.

Lemma mul_zero_l z y :
  sf_zero (Prim2SF z) → sf_finite (Prim2SF y) → sf_zero (Prim2SF (z * y)).
Proof.
  rewrite FloatAxioms.mul_spec. unfold SF64mul.
  by destruct (Prim2SF z) as [sx|sx| |sx mx ex], (Prim2SF y) as [sy|sy| |sy my ey].
Qed.

(** Adding a zero keeps the number. *)
Lemma add_zero_r_same x z : sf_zero (Prim2SF z) → same_value x (x + z).
Proof.
  intros Hz. destruct (Prim2SF x) as [sx|sx| |sx mx ex] eqn:Ex.
  - right. split; apply is_zero_spec; [by rewrite Ex|].
    apply add_zero_zero; [by rewrite Ex|done].
  - left. apply Prim2SF_inj. rewrite FloatAxioms.add_spec, Ex. unfold SF64add.
    by destruct (Prim2SF z) as [[]|sy| |sy my ey].
  - left. apply Prim2SF_inj. rewrite FloatAxioms.add_spec, Ex. unfold SF64add.
    by destruct (Prim2SF z) as [[]|sy| |sy my ey].
  - left. apply Prim2SF_inj. rewrite FloatAxioms.add_spec, Ex. unfold SF64add.
    by destruct (Prim2SF z) as [[]|sy| |sy my ey].
Qed.

Lemma add_zero_r_finite x z :
  sf_finite (Prim2SF x) → sf_zero (Prim2SF z) → sf_finite (Prim2SF (x + z)).
Proof.
  rewrite FloatAxioms.add_spec. unfold SF64add.
  by destruct (Prim2SF x) as [[]|sx| |sx mx ex], (Prim2SF z) as [[]|sy| |sy my ey].
Qed.

Lemma same_value_refl x : same_value x x.
Proof. by left. Qed.

Lemma same_value_trans x y z : same_value x y → same_value y z → same_value x z.
Proof. intros [->|[??]] [->|[??]]; unfold same_value; auto. Qed.

End FloatFacts.

(** ** Buffers and loops: basic facts *)

Lemma store_length buf i v : length (store buf i v) = length buf.
Proof. unfold store. case_decide; [apply length_insert|done]. Qed.

Lemma load_store_eq buf i v :
  0 ≤ i → (Z.to_nat i < length buf)%nat → load (store buf i v) i = v.
Proof.
  intros Hi Hlen. unfold load, store. rewrite !decide_True by done.
  by rewrite list_lookup_insert_eq.
Qed.

Lemma load_store_ne buf i j v : i ≠ j → load (store buf i v) j = load buf j.
Proof.
  intros Hne. unfold load, store. repeat case_decide; try done.
  rewrite list_lookup_insert_ne; [done|lia].
Qed.

Lemma for_loop_nil {S} lo hi (body : Z → S → S) s :
  hi ≤ lo → for_loop lo hi body s = s.
Proof. intros H. unfold for_loop. by rewrite seqZ_nil by lia. Qed.

Lemma for_loop_first {S} lo hi (body : Z → S → S) s :
  lo < hi → for_loop lo hi body s = for_loop (lo + 1) hi body (body lo s).
Proof.
  intros H. unfold for_loop. rewrite (seqZ_cons lo) by lia. cbn.
  do 2 f_equal; lia.
Qed.

(** The invariant rule of the [for] loop. *)
Lemma for_loop_ind {S} (P : S → Prop) lo hi (body : Z → S → S) s :
  P s → (∀ i s, lo ≤ i < hi → P s → P (body i s)) →
  P (for_loop lo hi body s).
Proof.
  intros Hs Hstep. unfold for_loop.
  assert (Forall (λ i, lo ≤ i < hi) (seqZ lo (hi - lo))) as Hl.
  { apply Forall_forall. intros i Hi%elem_of_seqZ. lia. }
  revert s Hs. induction Hl as [|i l Hi _ IH]; intros s Hs; cbn; auto.
Qed.

(** A loop whose body changes nothing on its range changes nothing. *)
Lemma for_loop_id {S} lo hi (body : Z → S → S) s :
  (∀ i, lo ≤ i < hi → body i s = s) → for_loop lo hi body s = s.
Proof.
  intros H. apply (for_loop_ind (λ s', s' = s)); [done|].
  intros i s' Hi ->. by apply H.
Qed.

(** ** The kernels: which cells they touch *)

Lemma axpy_tail_length m n p j sm : length (axpy_tail m n p j sm) = length m.
Proof.
  unfold axpy_tail. apply (for_loop_ind (λ m', length m' = length m)); [done|].
  intros i m' _ <-. apply store_length.
Qed.

Lemma apply_reflector_length n p up b j m :
  length (apply_reflector n p up b j m) = length m.
Proof.
  unfold apply_reflector. case_match; [done|].
  by rewrite axpy_tail_length, store_length.
Qed.

(** Row [j] is the only one written, from column [p] on. *)
Lemma apply_reflector_load_below n p up b j m q :
  0 ≤ p → q < j * n + p → load (apply_reflector n p up b j m) q = load m q.
Proof.
  intros Hp Hq. unfold apply_reflector. case_match; [done|].
  unfold axpy_tail.
  match goal with |- load (for_loop _ _ _ ?m0) _ = _ =>
    transitivity (load m0 q); [|apply load_store_ne; lia] end.
  apply (for_loop_ind (λ m', load m' q = load _ q)); [done|].
  intros i m' Hi <-. apply load_store_ne. lia.
Qed.

Lemma reflector_loop_load_below n p up b lo hi m q :
  0 ≤ p → 0 ≤ n → q < lo * n + p →
  load (for_loop lo hi (apply_reflector n p up b) m) q = load m q.
Proof.
  intros Hp Hn Hq.
  apply (for_loop_ind (λ m', load m' q = load m q)); [done|].
  intros j m' Hj <-. apply apply_reflector_load_below; [done|]. nia.
Qed.

Lemma reflector_loop_length n p up b lo hi m :
  length (for_loop lo hi (apply_reflector n p up b) m) = length m.
Proof.
  apply (for_loop_ind (λ m', length m' = length m)); [done|].
  intros j m' _ <-. apply apply_reflector_length.
Qed.

(** ** C8: the sentinel on the loop starts *)

(** C8. Both kernels treat a start of [1] as [0]: complete_task1 called
    with [row_start = 1] runs its pivot loop over rows [0, 1, ...,
    row_end - 1], complete_task2 does the same for [row_start = 1] and runs
    its inner loop over [j = 0, 1, ..., col_end - 1] for [col_start = 1];
    with any other start value the loops begin at that value. *)
Theorem sentinel_one_means_zero (m n row_end col_end : Z) (st : kstate) :
  (∀ cs, complete_task1 m n 1 row_end cs col_end st
         = foldl (λ s p, factor_pivot n row_end col_end p s) st (seqZ 0 row_end))
  ∧ (∀ rs cs, rs ≠ 1 →
       complete_task1 m n rs row_end cs col_end st
       = foldl (λ s p, factor_pivot n row_end col_end p s) st
           (seqZ rs (row_end - rs)))
  ∧ (∀ cs, complete_task2 m n 1 row_end cs col_end st
           = complete_task2 m n 0 row_end cs col_end st)
  ∧ (∀ rs, complete_task2 m n rs row_end 1 col_end st
           = complete_task2 m n rs row_end 0 col_end st)
  ∧ (∀ rs cs, rs ≠ 1 → cs ≠ 1 →
       complete_task2 m n rs row_end cs col_end st
       = foldl (λ s p, update_pivot n cs col_end p s) st
           (seqZ rs (row_end - rs)))
  ∧ (∀ cs p s, cs ≠ 1 →
       mat (update_pivot n cs col_end p s)
       = foldl (λ a j, apply_reflector n p (load (global_up_array s) p)
                         (load (global_b_array s) p) j a)
           (mat s) (seqZ cs (col_end - cs))).
Proof.
  unfold complete_task1, complete_task2, update_pivot, for_loop.
  split_and!; intros; repeat case_decide; try done;
    by rewrite ?Z.sub_0_r.
Qed.

(** ** C1: the scalars of a pivot *)

Lemma scan_row_spec m n p : scan_row m n p = (spec_cl m n p, spec_sm1 m n p).
Proof.
  unfold scan_row, spec_cl, spec_sm1, row_tail, for_loop.
  generalize (fabs (load m (p * n + p))) 0%float (seqZ (p + 1) (n - (p + 1))).
  intros c s l. revert c s.
  induction l as [|k l IH]; intros c s; [done|].
  cbn. rewrite IH. by rewrite FloatFacts.fabs_sq.
Qed.

(** The three ways out of one pivot iteration, with the diagonal cell in
    range (so that line 96 reads back what line 89 stored). *)
Lemma factor_pivot_cases n row_end col_end p st :
  0 ≤ p → 0 ≤ n → p < row_end → (Z.to_nat (p * n + p) < length (mat st))%nat →
  let cl := spec_cl (mat st) n p in
  let hs := householder_scalars cl (spec_sm1 (mat st) n p)
              (load (mat st) (p * n + p)) in
  let m1 := store (mat st) (p * n + p) (hs_cl hs) in
  factor_pivot n row_end col_end p st =
    if (cl <=? 0)%float then st
    else if (0 <=? hs_b hs)%float then set_mat st m1
    else KState
           (for_loop (p + 1) col_end
              (apply_reflector n p (hs_up hs) (1 / hs_b hs)%float) m1)
           (store (global_up_array st) p (hs_up hs))
           (store (global_b_array st) p (1 / hs_b hs)%float).
Proof.
  intros Hp Hn Hre Hlen. cbn zeta. unfold factor_pivot.
  rewrite scan_row_spec. case_match; [done|].
  rewrite decide_False by lia.
  rewrite load_store_eq by (done || nia).
  done.
Qed.

(** C1. For a pivot row [p] that complete_task1 processes with [cl > 0],
    where [cl] is the maximum of [|M[p,p]|] and the [|M[p,k]|],
    [k = p+1 .. N-1], and [sm1] the sum of the [M[p,k]²]: the kernel computes
    [clinv = 1/cl], [d = M[p,p]*clinv], [sm = d² + sm1*clinv²] (evaluated as
    the source writes it, [d*d + (sm1*clinv)*clinv]), replaces [cl] by
    [cl*sqrt(sm)], negated when the original [M[p,p] > 0], sets
    [up = M[p,p] - cl], stores [cl] in [M[p,p]] and sets [b = up * M[p,p]];
    the stored diagonal, and the reflector pair [(up, 1/b)] stored when
    [b < 0], are these values. *)
Theorem panel_factor_pivot_scalars (st : kstate) (n row_end col_end p : Z) :
  let M := mat st in
  let mpp := load M (p * n + p) in
  let cl := spec_cl M n p in
  let sm1 := spec_sm1 M n p in
  let clinv := (1 / cl)%float in
  let d := (mpp * clinv)%float in
  let sm := (d * d + sm1 * clinv * clinv)%float in
  let cl1 := (cl * sqrt sm)%float in
  let cl2 := if (0 <? mpp)%float then (- cl1)%float else cl1 in
  let up := (mpp - cl2)%float in
  let b := (up * cl2)%float in
  let st' := factor_pivot n row_end col_end p st in
  0 ≤ p < n → p < row_end →
  (Z.to_nat (p * n + p) < length M)%nat →
  (Z.to_nat p < length (global_up_array st))%nat →
  (Z.to_nat p < length (global_b_array st))%nat →
  (0 <? cl)%float = true →
  scan_row M n p = (cl, sm1)
  ∧ householder_scalars cl sm1 mpp = HScalars clinv d sm cl2 up b
  ∧ load (mat st') (p * n + p) = cl2
  ∧ ((0 <=? b)%float = false →
       load (global_up_array st') p = up
       ∧ load (global_b_array st') p = (1 / b)%float)
  ∧ ((0 <=? b)%float = true →
       global_up_array st' = global_up_array st
       ∧ global_b_array st' = global_b_array st).
Proof.
  intros M mpp cl sm1 clinv d sm cl1 cl2 up b st' Hp Hre Hlen Hup Hb Hcl.
  assert (householder_scalars cl sm1 mpp = HScalars clinv d sm cl2 up b) as Hhs
    by done.
  split; [apply scan_row_spec|]. split; [done|].
  subst st'. rewrite factor_pivot_cases by (done || lia).
  fold M cl sm1 mpp. rewrite Hhs. cbn [hs_cl hs_up hs_b].
  rewrite (FloatFacts.zero_ltb_leb _ Hcl).
  destruct (0 <=? b)%float eqn:Hbs; cbn [mat global_up_array global_b_array set_mat].
  - split; [apply load_store_eq; [nia|done]|]. split; [done|]. done.
  - split.
    + rewrite reflector_loop_load_below by lia.
      apply load_store_eq; [nia|done].
    + split; [|done]. intros _.
      split; apply load_store_eq; (lia || done).
Qed.

(** The theorem at the first pivot of the 4x4 identity. *)
Lemma panel_factor_pivot_scalars_witness :
  load (mat (factor_pivot 4 2 2 0
               (KState [1; 0; 0; 0; 0; 1; 0; 0; 0; 0; 1; 0; 0; 0; 0; 1]%float
                  [0; 0; 0; 0]%float [0; 0; 0; 0]%float))) 0
  = (-1)%float.
Proof.
  pose (st := KState [1; 0; 0; 0; 0; 1; 0; 0; 0; 0; 1; 0; 0; 0; 0; 1]%float
                [0; 0; 0; 0]%float [0; 0; 0; 0]%float).
  refine (proj1 (proj2 (proj2
    (panel_factor_pivot_scalars st 4 2 2 0 _ _ _ _ _ _)))); cbn; try lia.
  reflexivity.
Defined.

(** ** The scan of a pivot row *)

Lemma spec_cl_nonneg m n p : sf_nonneg (Prim2SF (spec_cl m n p)).
Proof.
  unfold spec_cl.
  generalize (FloatFacts.fabs_nonneg (load m (p * n + p))).
  generalize (fabs (load m (p * n + p))) (row_tail m n p).
  intros c l. revert c. induction l as [|x l IH]; intros c Hc; [done|].
  cbn [foldl]. apply IH.
  destruct (FloatFacts.fmax_cases (fabs x) c) as [->| ->];
    [apply FloatFacts.fabs_nonneg|done].
Qed.

(** [cl <= 0] over a row without NaN: the diagonal entry and every entry
    right of it are zeros. *)
Lemma spec_cl_le0_zero m n p :
  (∀ k, p ≤ k < n → is_nan (load m (p * n + k)) = false) →
  (spec_cl m n p <=? 0)%float = true →
  ∀ k, p ≤ k < n → sf_zero (Prim2SF (load m (p * n + k))).
Proof.
  intros Hnan Hcl.
  destruct (decide (p < n)) as [Hpn|]; [|intros; lia].
  assert (sf_zero (Prim2SF (fabs (load m (p * n + p))))
          ∧ Forall (λ x, sf_zero (Prim2SF x)) (row_tail m n p))
    as [Hd Ht].
  { revert Hcl. unfold spec_cl.
    assert (Forall (λ x, is_nan x = false) (row_tail m n p)) as Hl.
    { unfold row_tail. apply Forall_fmap, Forall_forall.
      intros k Hk%elem_of_seqZ. apply Hnan. lia. }
    assert (sf_pos0 (Prim2SF (fabs (load m (p * n + p))))) as Hc.
    { apply FloatFacts.fabs_pos0, Hnan. lia. }
    revert Hc Hl.
    generalize (fabs (load m (p * n + p))) (row_tail m n p).
    intros c l. revert c.
    induction l as [|x l IH]; intros c Hc Hl Hle; cbn [foldl] in Hle.
    - split; [by apply FloatFacts.leb_zero_pos0|done].
    - inversion Hl as [|? ? Hx Hl']; subst.
      assert (sf_pos0 (Prim2SF (fabs x))) as Hax
        by by apply FloatFacts.fabs_pos0.
      destruct (IH _ (FloatFacts.fmax_pos0 _ _ Hax Hc) Hl' Hle) as [Hz Hrest].
      destruct (FloatFacts.fmax_zero _ _ Hax Hc Hz) as [Hzx Hzc].
      split; [done|]. constructor; [by apply FloatFacts.fabs_zero|done]. }
  intros k Hk. destruct (decide (k = p)) as [->|Hne].
  - by apply FloatFacts.fabs_zero.
  - unfold row_tail in Ht. rewrite Forall_fmap, Forall_forall in Ht.
    apply (Ht k). apply elem_of_seqZ. lia.
Qed.

Lemma load_finite m i :
  Forall (λ x, is_finite x = true) m → sf_finite (Prim2SF (load m i)).
Proof.
  intros Hm. apply FloatFacts.is_finite_spec. unfold load.
  case_decide; [|done].
  destruct (m !! Z.to_nat i) as [x|] eqn:E; [|done].
  by apply (Forall_lookup_1 _ _ _ _ Hm E).
Qed.

Lemma finite_not_nan x : sf_finite (Prim2SF x) → is_nan x = false.
Proof.
  intros H. destruct (is_nan x) eqn:E; [|done].
  apply FloatFacts.is_nan_spec in E. by rewrite E in H.
Qed.

(** The dot product of line 148-153 against a zero pivot row, with a zero
    [up]: a zero, so the test of line 155 leaves the row alone. *)
Lemma dot_tail_zero_row m n p j :
  Forall (λ x, is_finite x = true) m →
  (∀ i, p < i < n → sf_zero (Prim2SF (load m (p * n + i)))) →
  (dot_tail m n p j (load m (j * n + p) * 0) =? 0)%float = true.
Proof.
  intros Hfin Hrow. apply FloatFacts.eqb_zero_spec. unfold dot_tail.
  apply (for_loop_ind (λ sm, sf_zero (Prim2SF sm))).
  - apply FloatFacts.mul_zero_r; [by apply load_finite|done].
  - intros i sm Hi Hsm. apply FloatFacts.add_zero_zero; [done|].
    apply FloatFacts.mul_zero_r; [by apply load_finite|]. apply Hrow. lia.
Qed.

Lemma set_mat_same st : set_mat st (mat st) = st.
Proof. by destruct st. Qed.

(** A store changes the cell it addresses, if any, and no other. *)
Lemma load_store_cases buf i v q :
  load (store buf i v) q = load buf q ∨ (q = i ∧ load (store buf i v) q = v).
Proof.
  destruct (decide (q = i)) as [->|Hne]; [|left; by apply load_store_ne].
  unfold load, store. case_decide; [|by left].
  destruct (decide (Z.to_nat i < length buf)%nat) as [Hlt|Hge].
  - right. split; [done|]. by rewrite list_lookup_insert_eq.
  - left. by rewrite list_insert_ge by lia.
Qed.

(** The reflector [(0, 0)] applied to a row of a finite matrix, when the
    dot product of line 148-153 is finite: every cell keeps its number. *)
Lemma apply_zero_reflector_same n p j m :
  (∀ q, sf_finite (Prim2SF (load m q))) →
  sf_finite (Prim2SF (dot_tail m n p j (load m (j * n + p) * 0))) →
  ∀ q, same_value (load m q) (load (apply_reflector n p 0 0 j m) q).
Proof.
  intros Hfin Hsm. unfold apply_reflector.
  destruct (_ =? 0)%float; [intros; apply FloatFacts.same_value_refl|].
  set (z := (dot_tail m n p j (load m (j * n + p) * 0) * 0)%float).
  assert (sf_zero (Prim2SF z)) as Hz by by apply FloatFacts.mul_zero_r.
  assert (sf_zero (Prim2SF (z * 0))) as Hz0.
  { apply FloatFacts.mul_zero_r; [by apply FloatFacts.zero_finite|done]. }
  cut ((∀ q, same_value (load m q) (load (axpy_tail
          (store m (j * n + p) (load m (j * n + p) + z * 0)) n p j z) q))
       ∧ (∀ q, sf_finite (Prim2SF (load (axpy_tail
          (store m (j * n + p) (load m (j * n + p) + z * 0)) n p j z) q))));
    [tauto|].
  unfold axpy_tail.
  apply (for_loop_ind (λ m', (∀ q, same_value (load m q) (load m' q))
                             ∧ (∀ q, sf_finite (Prim2SF (load m' q))))).
  - split; intros q;
      destruct (load_store_cases m (j * n + p) (load m (j * n + p) + z * 0) q)
        as [-> | [-> ->]];
      auto using FloatFacts.same_value_refl, FloatFacts.add_zero_r_same,
                 FloatFacts.add_zero_r_finite.
  - intros i m' _ [Hsame Hfin'].
    assert (sf_zero (Prim2SF (z * load m' (p * n + i)))) as Hzi
      by by apply FloatFacts.mul_zero_l.
    split; intros q;
      destruct (load_store_cases m' (j * n + i)
                  (load m' (j * n + i) + z * load m' (p * n + i)) q)
        as [-> | [-> ->]];
      eauto using FloatFacts.same_value_trans, FloatFacts.add_zero_r_same,
                  FloatFacts.add_zero_r_finite.
Qed.

(** ** C4: degenerate pivots *)

(** C4 as stated fails in two ways.
    - An entry that is not finite: in the 2x2 matrix with rows [0, 0] and
      [inf, 1] pivot 0 has [cl = 0], it is skipped and its slots stay zero;
      the update for pivot 0 then computes, on row 1,
      [sm = inf * 0 + 1 * 0 = NaN], the test [sm == 0] fails, and NaN is
      written over the row.
    - A pivot skipped on [b >= 0], all entries finite: in the 2x2 matrix
      with rows [0, 2^-600] and [-0, 1] pivot 0 has [cl = 2^-600 > 0] and
      [b >= 0] (the square underflows), its slots stay zero; the update for
      pivot 0 computes [sm = 2^-600] on row 1, which is not 0, takes no
      early exit, and stores [-0 + 0 = +0] over the [-0]. *)
Lemma zero_reflector_changes_matrix :
  ¬ (∀ (st : kstate) (n row_end col_end p : Z),
       let st' := factor_pivot n row_end col_end p st in
       0 ≤ p < n → p < row_end → (Z.to_nat (p * n + p) < length (mat st))%nat →
       (fst (scan_row (mat st) n p) <=? 0)%float = true →
       load (global_up_array st') p = 0%float →
       load (global_b_array st') p = 0%float →
       ∀ cs ce, mat (update_pivot n cs ce p st') = mat st')
  ∧ ¬ (∀ (st : kstate) (n row_end col_end p : Z),
         let M := mat st in
         let cl := fst (scan_row M n p) in
         let sm1 := snd (scan_row M n p) in
         let b := hs_b (householder_scalars cl sm1 (load M (p * n + p))) in
         let st' := factor_pivot n row_end col_end p st in
         0 ≤ p < n → p < row_end → (Z.to_nat (p * n + p) < length M)%nat →
         Forall (λ x, is_finite x = true) M →
         (0 <=? b)%float = true →
         load (global_up_array st') p = 0%float →
         load (global_b_array st') p = 0%float →
         ∀ cs ce j,
           (dot_tail (mat st') n p j (load (mat st') (j * n + p) * 0) =? 0)%float
             = true
           ∧ mat (update_pivot n cs ce p st') = mat st').
Proof.
  split.
  - intros H.
    specialize (H (KState [0; 0; infinity; 1]%float [0; 0]%float [0; 0]%float)
                  2 2 2 0 ltac:(lia) ltac:(lia) ltac:(cbn; lia)
                  eq_refl eq_refl eq_refl 1 2).
    apply (f_equal (λ m, is_nan (load m 2))) in H.
    vm_compute in H. discriminate.
  - intros H.
    specialize (H (KState [0; 0x1p-600; (-0); 1]%float [0; 0]%float
                     [0; 0]%float)
                  2 2 2 0 ltac:(lia) ltac:(lia) ltac:(cbn; lia)).
    cbn zeta in H.
    destruct (H ltac:(repeat first [apply Forall_nil_2
                                   | apply Forall_cons_2; [reflexivity|]])
                eq_refl eq_refl eq_refl 1 2 1) as [Hsm Hmat].
    vm_compute in Hsm. discriminate.
Qed.

(** The second run in full: after the skip on [b >= 0] the update of row 1
    changes the buffer, its [-0] becoming [+0]. *)
Lemma b_degenerate_update_rewrites_zero :
  let st := KState [0; 0x1p-600; (-0); 1]%float [0; 0]%float [0; 0]%float in
  let st' := factor_pivot 2 2 2 0 st in
  st' = st
  ∧ mat (update_pivot 2 1 2 0 st') = [0; 0x1p-600; 0; 1]%float
  ∧ mat (update_pivot 2 1 2 0 st') ≠ mat st'.
Proof.
  cbn zeta. split; [vm_compute; reflexivity|].
  split; [vm_compute; reflexivity|].
  intros H. apply (f_equal (λ m, (1 / load m 2 <? 0)%float)) in H.
  vm_compute in H. discriminate.
Qed.

(** Why [sm] has to be finite in the last part of the theorem below: with
    finite entries the dot product of lines 148-153 can overflow, and the
    pair [(0, 0)] then turns the row into NaNs ([inf * 0]).  Row 0 of this
    matrix is not a degenerate pivot; the pair [(0, 0)] is what an update
    finds in the slots of a pivot that has not been factored yet. *)
Lemma zero_reflector_overflow :
  let M := [0; 0x1p1023; 0; 0x1p1023]%float in
  Forall (λ x, is_finite x = true) M
  ∧ is_finite (dot_tail M 2 0 1 (load M 2 * 0)) = false
  ∧ is_nan (load (apply_reflector 2 0 0 0 1 M) 2) = true.
Proof.
  cbn zeta. split; [|split; vm_compute; reflexivity].
  repeat first [apply Forall_nil_2 | apply Forall_cons_2; [reflexivity|]].
Qed.

(** C4, amended.  A degenerate pivot is passed over, not reported: when the
    scan of row [p] gives [cl <= 0], complete_task1 leaves the whole state as
    it is (row untouched, no reflector written); in either degenerate case
    ([cl <= 0], or [b >= 0]) the slots [up_array[p]], [b_array[p]] keep
    their value, zero when they were zero.  In a matrix of finite entries:
    for a [cl <= 0] pivot whose slot [up_array[p]] is zero, the update of
    complete_task2 for pivot [p] finds [sm == 0] on every row [j], takes the
    early exit and leaves the state unchanged, whatever its column range;
    for a [b >= 0] pivot [sm] need not be 0, and the reflector pair
    [(0, 0)] applied to a row leaves the matrix as it is when [sm == 0] and
    otherwise, when [sm] is finite, adds zeros: every cell keeps its
    number, a [-0] possibly stored back as [+0]. *)
Theorem degenerate_pivot_is_skipped (st : kstate) (n row_end col_end p : Z) :
  let M := mat st in
  let cl := fst (scan_row M n p) in
  let sm1 := snd (scan_row M n p) in
  let b := hs_b (householder_scalars cl sm1 (load M (p * n + p))) in
  let st' := factor_pivot n row_end col_end p st in
  0 ≤ p < n → p < row_end → (Z.to_nat (p * n + p) < length M)%nat →
  ((cl <=? 0)%float = true → st' = st)
  ∧ ((cl <=? 0)%float = true ∨ (0 <=? b)%float = true →
       global_up_array st' = global_up_array st
       ∧ global_b_array st' = global_b_array st)
  ∧ ((cl <=? 0)%float = true →
       Forall (λ x, is_finite x = true) M →
       load (global_up_array st) p = 0%float →
       ∀ cs ce,
         (∀ j, (dot_tail M n p j (load M (j * n + p) * 0) =? 0)%float = true)
         ∧ update_pivot n cs ce p st' = st')
  ∧ (Forall (λ x, is_finite x = true) M →
     ∀ j,
       let sm := dot_tail M n p j (load M (j * n + p) * 0) in
       ((sm =? 0)%float = true → apply_reflector n p 0 0 j M = M)
       ∧ (is_finite sm = true →
          ∀ q, same_value (load M q) (load (apply_reflector n p 0 0 j M) q))).
Proof.
  intros M cl sm1 b st' Hp Hre Hlen. subst st'.
  rewrite factor_pivot_cases by (done || lia).
  subst cl sm1 b. rewrite !scan_row_spec. cbn [fst snd]. fold M.
  split_and!.
  - by intros ->.
  - intros [-> | Hb]; [done|].
    destruct (_ <=? 0)%float; [done|]. by rewrite Hb.
  - intros Hcl Hfin Hup cs ce. rewrite Hcl.
    assert (∀ i, p < i < n → sf_zero (Prim2SF (load M (p * n + i)))) as Hrow.
    { intros i Hi. apply spec_cl_le0_zero; [|done|lia].
      intros k _. by apply finite_not_nan, load_finite. }
    split; [intros j; by apply dot_tail_zero_row|].
    unfold update_pivot. rewrite Hup.
    rewrite for_loop_id; [apply set_mat_same|].
    intros j _. unfold apply_reflector. fold M.
    by rewrite dot_tail_zero_row.
  - intros Hfin j. cbn zeta. split.
    + intros Hsm. unfold apply_reflector. by rewrite Hsm.
    + intros Hsm%FloatFacts.is_finite_spec.
      apply apply_zero_reflector_same; [|done].
      intros q. by apply load_finite.
Qed.

(** The theorem at a 2x2 matrix whose first row is zero. *)
Lemma degenerate_pivot_is_skipped_witness :
  factor_pivot 2 2 2 0 (KState [0; 0; 3; 4]%float [0; 0]%float [0; 0]%float)
  = KState [0; 0; 3; 4]%float [0; 0]%float [0; 0]%float.
Proof.
  refine (proj1
    (degenerate_pivot_is_skipped
       (KState [0; 0; 3; 4]%float [0; 0]%float [0; 0]%float) 2 2 2 0 _ _ _) _);
    cbn; (lia || reflexivity).
Defined.

(** ** C10: a pivot skipped on [b >= 0] *)

(** C10 as stated fails at one corner: with [M[p,p] = 0] and a tiny entry
    right of it, [cl > 0] and [b >= 0], yet the value stored on the diagonal
    is the zero that was there, and the row is left as it was. *)
Lemma b_degenerate_row_can_stay :
  ¬ (∀ (st : kstate) (n row_end col_end p : Z),
       let M := mat st in
       let cl := fst (scan_row M n p) in
       let sm1 := snd (scan_row M n p) in
       let b := hs_b (householder_scalars cl sm1 (load M (p * n + p))) in
       0 ≤ p < n → p < row_end → (Z.to_nat (p * n + p) < length M)%nat →
       (0 <? cl)%float = true → (0 <=? b)%float = true →
       mat (factor_pivot n row_end col_end p st) ≠ mat st).
Proof.
  intros H.
  apply (H (KState [0; 0x1p-600; 0; 0]%float [0; 0]%float [0; 0]%float)
           2 2 2 0); cbn; try lia; reflexivity.
Qed.

(** C10, amended. For a pivot [p] with [cl > 0] and [b = up * cl_new >= 0],
    complete_task1 has stored the new [cl] in [M[p,p]] before the skip and
    skips only the reflector store and the reflector application: every
    other cell and both reflector vectors are as before.  When the old
    [M[p,p]] is positive or negative the stored value differs from it, so
    the row is changed; with [M[p,p] = 0] it need not be. *)
Theorem b_degenerate_pivot_rewrites_diagonal
    (st : kstate) (n row_end col_end p : Z) :
  let M := mat st in
  let mpp := load M (p * n + p) in
  let cl := fst (scan_row M n p) in
  let sm1 := snd (scan_row M n p) in
  let hs := householder_scalars cl sm1 mpp in
  let st' := factor_pivot n row_end col_end p st in
  0 ≤ p < n → p < row_end → (Z.to_nat (p * n + p) < length M)%nat →
  (0 <? cl)%float = true → (0 <=? hs_b hs)%float = true →
  st' = set_mat st (store M (p * n + p) (hs_cl hs))
  ∧ load (mat st') (p * n + p) = hs_cl hs
  ∧ (∀ q, q ≠ p * n + p → load (mat st') q = load M q)
  ∧ global_up_array st' = global_up_array st
  ∧ global_b_array st' = global_b_array st
  ∧ ((0 <? mpp)%float = true ∨ (mpp <? 0)%float = true →
       load (mat st') (p * n + p) ≠ mpp).
Proof.
  intros M mpp cl sm1 hs st' Hp Hre Hlen Hcl Hb. subst st'.
  rewrite factor_pivot_cases by (done || lia).
  subst hs cl sm1. rewrite !scan_row_spec in *. cbn [fst snd] in *.
  fold M mpp in Hb |- *.
  rewrite (FloatFacts.zero_ltb_leb _ Hcl), Hb.
  cbn [mat set_mat global_up_array global_b_array].
  rewrite load_store_eq by (nia || done).
  split_and!; try done.
  - intros q Hq. by apply load_store_ne.
  - unfold householder_scalars; cbn [hs_cl].
    set (cl1 := (spec_cl M n p * sqrt _)%float).
    assert (sf_nonneg (Prim2SF cl1)) as Hnn.
    { apply FloatFacts.mul_nonneg;
        [apply spec_cl_nonneg|apply FloatFacts.sqrt_nonneg]. }
    intros [Hpos | Hneg].
    + rewrite Hpos. intros E.
      pose proof (FloatFacts.opp_nonneg_not_pos _ Hnn) as Hno.
      rewrite E in Hno. congruence.
    + rewrite (FloatFacts.ltb_zero_asym _ Hneg). intros E.
      apply FloatFacts.ltb_zero_false in Hnn. rewrite E in Hnn. congruence.
Qed.

(** The theorem at a pivot whose square underflows: the diagonal [2^-600]
    is replaced by [-2^-600] and nothing else happens. *)
Lemma b_degenerate_pivot_rewrites_diagonal_witness :
  factor_pivot 2 2 2 0
    (KState [0x1p-600; 0; 0; 0]%float [0; 0]%float [0; 0]%float)
  = KState [(-0x1p-600); 0; 0; 0]%float [0; 0]%float [0; 0]%float.
Proof.
  refine (eq_trans (proj1
    (b_degenerate_pivot_rewrites_diagonal
       (KState [0x1p-600; 0; 0; 0]%float [0; 0]%float [0; 0]%float)
       2 2 2 0 _ _ _ _ _)) _); cbn; (lia || reflexivity).
Defined.

(** ** The scheduler *)

Section SchedulerFacts.
Variable cfg : config.
Variable getTask : Z → Z → Task.
Variables total_task_rows total_task_cols : Z.
Variables m n : Z.

Local Abbreviation enqueue_column := (enqueue_column getTask total_task_rows).
Local Abbreviation execute_task :=
  (execute_task cfg getTask total_task_rows total_task_cols m n).
Local Abbreviation ready_phase :=
  (ready_phase cfg getTask total_task_rows total_task_cols m n).
Local Abbreviation exit_cell := (exit_cell cfg total_task_rows).
Local Abbreviation exit_test := (exit_test cfg total_task_rows).
Local Abbreviation thdwork_iter :=
  (thdwork_iter cfg getTask total_task_rows total_task_cols m n).
Local Abbreviation thdwork :=
  (thdwork cfg getTask total_task_rows total_task_cols m n).
Local Abbreviation step :=
  (step cfg getTask total_task_rows total_task_cols m n).

(** The loop of lines 197-209 appends the successors of column [j], in
    increasing [k], each to one of the two queues, and touches nothing
    else. *)
Lemma enqueue_column_spec i j s :
  let ready k := j = 0 ∨ getDependency (dependency_table s) k (j - 1) = true in
  let succs := seqZ (i + 1) (total_task_rows - (i + 1)) in
  enqueue_column i j s =
    Sched (kernel_state s) (dependency_table s)
      (taskPQ s ++ ((λ k, getTask k j) <$> filter ready succs))
      (wait_queue s ++ ((λ k, getTask k j) <$> filter (λ k, ¬ ready k) succs)).
Proof.
  cbn zeta. unfold enqueue_column, for_loop.
  generalize (seqZ (i + 1) (total_task_rows - (i + 1))). intros l.
  revert s. induction l as [|k l IH]; intros [ks d q w].
  - cbn. by rewrite !app_nil_r.
  - cbn [foldl]. rewrite IH. rewrite !filter_cons.
    cbn [kernel_state dependency_table taskPQ wait_queue].
    destruct (decide (j = 0)) as [Hj|Hj].
    + rewrite decide_True by auto. rewrite decide_False by tauto.
      unfold push_taskPQ; cbn. by rewrite <- app_assoc.
    + destruct (getDependency d k (j - 1)) eqn:Hd.
      * rewrite decide_True by auto. rewrite decide_False by tauto.
        unfold push_taskPQ; cbn. by rewrite <- app_assoc.
      * rewrite decide_False by (intros [|]; congruence).
        rewrite decide_True by (intros [|]; congruence).
        unfold push_wait_queue; cbn. by rewrite <- app_assoc.
Qed.

(** C3. A worker that has popped a type-1 task at [(i, j)] runs
    complete_task1, sets the flag of [(i, j)], and then takes the tasks
    [(k, j)] for [k = i+1 .. TR-1] in turn: [(k, j)] goes to the back of
    the ready queue when [j == 0] or the flag of [(k, j-1)] is true, and
    to the back of the wait queue otherwise.  Nothing else is enqueued. *)
Theorem type1_completion_enqueues (s : sched) (t : Task) (rest : list Task) :
  taskPQ s = t :: rest → type t = 1 →
  let i := chunk_idx_i t in
  let j := chunk_idx_j t in
  let d := setDependency (dependency_table s) i j true in
  let ready k := j = 0 ∨ getDependency d k (j - 1) = true in
  let succs := seqZ (i + 1) (total_task_rows - (i + 1)) in
  ready_phase s =
    Sched
      (complete_task1 m n (row_start t) (row_end t) (col_start t) (col_end t)
         (kernel_state s))
      d
      (rest ++ ((λ k, getTask k j) <$> filter ready succs))
      (wait_queue s ++ ((λ k, getTask k j) <$> filter (λ k, ¬ ready k) succs))
  ∧ (∀ k, i < k < total_task_rows → getTask k j ∈ taskPQ (ready_phase s)
                                    ∨ getTask k j ∈ wait_queue (ready_phase s))
  ∧ (∀ k, getDependency d k (j - 1)
          = getDependency (dependency_table s) k (j - 1)).
Proof.
  intros Hq Ht i j d ready succs.
  assert (ready_phase s = Sched
      (complete_task1 m n (row_start t) (row_end t) (col_start t) (col_end t)
         (kernel_state s))
      d
      (rest ++ ((λ k, getTask k j) <$> filter ready succs))
      (wait_queue s ++ ((λ k, getTask k j) <$> filter (λ k, ¬ ready k) succs)))
    as Heq.
  { unfold ready_phase. rewrite Hq.
    unfold execute_task. rewrite decide_True by done.
    by rewrite enqueue_column_spec. }
  split; [done|]. split.
  - intros k Hk. rewrite Heq. cbn [taskPQ wait_queue].
    assert (k ∈ succs) as Hin by (apply elem_of_seqZ; lia).
    destruct (decide (ready k)) as [Hr|Hr].
    + left. apply elem_of_app. right.
      apply (list_elem_of_fmap_2 (λ k, getTask k j)).
      by apply list_elem_of_filter.
    + right. apply elem_of_app. right.
      apply (list_elem_of_fmap_2 (λ k, getTask k j)).
      by apply list_elem_of_filter.
  - intros k. unfold d, getDependency, setDependency.
    apply bool_decide_ext. rewrite elem_of_union, elem_of_singleton.
    split; [intros [E|?]; [injection E; lia|done]|by right].
Qed.

(** *** Flags are never cleared *)

Lemma execute_task_dependency t s :
  dependency_table (execute_task t s)
  = if decide (type t = 1 ∨ type t = 2)
    then {[ (chunk_idx_i t, chunk_idx_j t) ]} ∪ dependency_table s
    else dependency_table s.
Proof.
  unfold execute_task.
  destruct (decide (type t = 1)) as [H1|H1].
  - rewrite enqueue_column_spec. cbn. by rewrite decide_True by auto.
  - destruct (decide (type t = 2)) as [H2|H2].
    + rewrite decide_True by auto. by case_match.
    + by rewrite decide_False by tauto.
Qed.

Lemma wait_phase_dependency s :
  dependency_table (wait_phase s) = dependency_table s.
Proof. unfold wait_phase. repeat case_match; done. Qed.

Lemma step_dependency_mono p p' :
  step p p' → dependency_table (shared p) ⊆ dependency_table (shared p').
Proof.
  intros [p0 t rest Hq | p0 t r1 r2 Hr | p0]; cbn.
  - done.
  - rewrite execute_task_dependency. case_decide; [apply union_subseteq_r|done].
  - by rewrite wait_phase_dependency.
Qed.

Lemma steps_dependency_mono p p' :
  rtc step p p' → dependency_table (shared p) ⊆ dependency_table (shared p').
Proof.
  induction 1 as [|p1 p2 p3 H12 _ IH]; [done|].
  etrans; [by apply step_dependency_mono|done].
Qed.

(** C2. The worker leaves its loop exactly when its exit test reads the
    flag of the cell [(TR - 1, R * (TR - 1))], [R = BETA / ALPHA], as true:
    a pass ends in [break] iff that cell is set in the state the pass has
    reached; a worker running alone returns at that pass and at no pass
    before, so the state it returns has the cell set.  The test reads no
    other cell: two tables that agree on this cell give the same answer.
    The flag, once true, stays true along every execution of the pool, so
    from then on every worker that reaches the test leaves.  In the table
    of section 4.3 the cell is that of the type-1 task of the last panel. *)
Theorem worker_exit_test :
  let cell := (total_task_rows - 1,
               (BETA cfg ÷ ALPHA cfg) * (total_task_rows - 1)) in
  (∀ s, snd (thdwork_iter s) = true
        ↔ cell ∈ dependency_table (wait_phase (ready_phase s)))
  ∧ (∀ fuel s, cell ∈ dependency_table (wait_phase (ready_phase s)) →
       thdwork (S fuel) s = Some (wait_phase (ready_phase s)))
  ∧ (∀ fuel s, cell ∉ dependency_table (wait_phase (ready_phase s)) →
       thdwork (S fuel) s = thdwork fuel (wait_phase (ready_phase s)))
  ∧ (∀ fuel s s', thdwork fuel s = Some s' → cell ∈ dependency_table s')
  ∧ (∀ s1 s2, (cell ∈ dependency_table s1 ↔ cell ∈ dependency_table s2) →
       exit_test s1 = exit_test s2)
  ∧ (∀ p p', rtc step p p' → cell ∈ dependency_table (shared p) →
       cell ∈ dependency_table (shared p')
       ∧ ∀ fuel, thdwork (S fuel) (shared p')
                 = Some (wait_phase (ready_phase (shared p'))))
  ∧ (∀ TC M N,
       type (spec_task_table total_task_rows TC (ALPHA cfg) (BETA cfg) M N
               cell.1 cell.2) = 1).
Proof.
  intros cell.
  assert (Htest : ∀ s, exit_test s = bool_decide (cell ∈ dependency_table s)).
  { intros s. done. }
  assert (Hpass : ∀ fuel s,
            thdwork (S fuel) s
            = if exit_test (wait_phase (ready_phase s))
              then Some (wait_phase (ready_phase s))
              else thdwork fuel (wait_phase (ready_phase s))).
  { intros fuel s. done. }
  assert (Hkeep : ∀ s, cell ∈ dependency_table s →
            cell ∈ dependency_table (wait_phase (ready_phase s))).
  { intros s Hin. rewrite wait_phase_dependency. unfold ready_phase.
    destruct (taskPQ s) as [|t rest]; [done|].
    rewrite execute_task_dependency. cbn.
    case_decide; [apply elem_of_union; by right|done]. }
  split_and!.
  - intros s. cbn [thdwork_iter snd]. rewrite Htest.
    apply bool_decide_eq_true.
  - intros fuel s Hin. rewrite Hpass, Htest.
    by rewrite bool_decide_eq_true_2.
  - intros fuel s Hnin. rewrite Hpass, Htest.
    by rewrite bool_decide_eq_false_2.
  - intros fuel. induction fuel as [|fuel IH]; intros s s'; [done|].
    rewrite Hpass, Htest. case_bool_decide as Hin.
    + by intros [= <-].
    + apply IH.
  - intros s1 s2 H. rewrite !Htest. by apply bool_decide_ext.
  - intros p p' Hsteps Hin.
    assert (cell ∈ dependency_table (shared p')) as Hin'.
    { by apply (steps_dependency_mono _ _ Hsteps). }
    split; [done|]. intros fuel. rewrite Hpass, Htest.
    by rewrite bool_decide_eq_true_2 by by apply Hkeep.
  - intros TC M N. unfold spec_task_table. cbn.
    rewrite decide_True; [done|]. apply Z.mul_comm.
Qed.

(** *** Invariants of the pool *)

Lemma steps_invariant (I : pool → Prop) :
  (∀ p p', step p p' → I p → I p') →
  ∀ p p', rtc step p p' → I p → I p'.
Proof. intros Hstep p p' Hrtc. induction Hrtc; eauto. Qed.

(** The descriptor stored at [(i, j)] carries its own coordinates. *)
Hypothesis getTask_coordinates :
  ∀ i j, chunk_idx_i (getTask i j) = i ∧ chunk_idx_j (getTask i j) = j.

Lemma step_columns p p' :
  step p p' →
  Forall (λ t, 0 ≤ chunk_idx_j t) (taskPQ (shared p) ++ running p)
  ∧ Forall (λ t, 1 ≤ chunk_idx_j t) (wait_queue (shared p)) →
  Forall (λ t, 0 ≤ chunk_idx_j t) (taskPQ (shared p') ++ running p')
  ∧ Forall (λ t, 1 ≤ chunk_idx_j t) (wait_queue (shared p')).
Proof.
  intros [p0 t rest Hq | p0 t r1 r2 Hr | p0]; cbn [shared running].
  - rewrite Hq. cbn. rewrite ?Forall_app, ?Forall_cons, ?Forall_app. tauto.
  - rewrite Hr. rewrite !Forall_app, !Forall_cons.
    intros [(Hq & Hr1 & Ht & Hr2) Hw].
    unfold execute_task.
    destruct (decide (type t = 1)) as [H1|H1];
      [|destruct (decide (type t = 2)) as [H2|H2]].
    + rewrite enqueue_column_spec. cbn.
      rewrite !Forall_app, !Forall_fmap. split_and!; try done.
      * apply Forall_forall. intros k _. cbn.
        by rewrite (proj2 (getTask_coordinates _ _)).
      * apply Forall_forall. intros k [Hk _]%list_elem_of_filter. cbn.
        rewrite (proj2 (getTask_coordinates _ _)).
        destruct (decide (chunk_idx_j t = 0)); [|lia].
        exfalso. apply Hk. by left.
    + case_match; cbn; rewrite ?Forall_app, ?Forall_cons; split_and!;
        try done.
      rewrite (proj2 (getTask_coordinates _ _)). lia.
    + done.
  - rewrite !Forall_app. intros [[Hq Hr] Hw].
    unfold wait_phase. destruct (wait_queue (shared p0)) as [|t rest] eqn:E.
    + by rewrite E.
    + apply Forall_cons in Hw as [Ht Hrest].
      case_match; cbn; rewrite ?Forall_app, ?Forall_cons; split_and!;
        try done; lia.
Qed.

(** C9. In every state the pool reaches from the seeded one, each task in
    the wait queue has a column index [j >= 1]: a task of column 0 is
    always pushed to the ready queue.  The re-check of line 227 therefore
    reads the dependency table at a column [j - 1 >= 0]. *)
Theorem wait_queue_columns (p0 p : pool) :
  seeded getTask p0 → rtc step p0 p →
  Forall (λ t, 1 ≤ chunk_idx_j t ∧ 0 ≤ chunk_idx_j t - 1)
    (wait_queue (shared p))
  ∧ (∀ t rest, wait_queue (shared p) = t :: rest →
       wait_phase (shared p) =
         (if getDependency (dependency_table (shared p)) (chunk_idx_i t)
               (chunk_idx_j t - 1)
          then push_taskPQ t else push_wait_queue t)
           (Sched (kernel_state (shared p)) (dependency_table (shared p))
              (taskPQ (shared p)) rest)
       ∧ 0 ≤ chunk_idx_j t - 1).
Proof.
  intros (Hq & Hw & Hr & _) Hsteps.
  assert (Forall (λ t, 0 ≤ chunk_idx_j t) (taskPQ (shared p) ++ running p)
          ∧ Forall (λ t, 1 ≤ chunk_idx_j t) (wait_queue (shared p)))
    as [_ Hwait].
  { apply (steps_invariant
             (λ q, Forall (λ t, 0 ≤ chunk_idx_j t) (taskPQ (shared q) ++ running q)
                   ∧ Forall (λ t, 1 ≤ chunk_idx_j t) (wait_queue (shared q)))
             step_columns p0 p Hsteps).
    rewrite Hq, Hw, Hr. split; [|done].
    repeat constructor. by rewrite (proj2 (getTask_coordinates _ _)). }
  split.
  - eapply Forall_impl; [done|]. cbn. lia.
  - intros t rest E. rewrite E in Hwait.
    apply Forall_cons in Hwait as [Ht _].
    split; [|lia]. unfold wait_phase. rewrite E. by case_match.
Qed.

(** *** Update tasks wait for a panel factor of their column *)

Hypothesis seed_is_panel_factor : type (getTask 0 0) = 1.
Hypothesis next_panel_is_factor :
  ∀ i j, type (getTask i j) = 2 → enq_nxt_t1 (getTask i j) = true →
         type (getTask ((j + 1) ÷ BETA_DIV_ALPHA cfg) (j + 1)) = 1.

Lemma table_entry_getTask i j : table_entry getTask (getTask i j).
Proof.
  unfold table_entry. by destruct (getTask_coordinates i j) as [-> ->].
Qed.

Lemma has_producer_mono d d' t :
  d ⊆ d' → has_producer getTask d t → has_producer getTask d' t.
Proof. intros Hd (i & ? & ? & ?). exists i. split_and!; [done|by apply Hd|done]. Qed.

Lemma step_producers p p' :
  step p p' →
  (∀ t, t ∈ taskPQ (shared p) ∨ t ∈ wait_queue (shared p) ∨ t ∈ running p →
        table_entry getTask t
        ∧ (type t = 1 ∨ has_producer getTask (dependency_table (shared p)) t)) →
  (∀ t, t ∈ taskPQ (shared p') ∨ t ∈ wait_queue (shared p') ∨ t ∈ running p' →
        table_entry getTask t
        ∧ (type t = 1 ∨ has_producer getTask (dependency_table (shared p')) t)).
Proof.
  intros Hstep. pose proof (step_dependency_mono _ _ Hstep) as Hmono.
  destruct Hstep as [p0 t rest Hq | p0 t r1 r2 Hr | p0];
    cbn [shared running] in *; intros Hinv t' Hin.
  - apply Hinv. rewrite Hq. cbn in Hin.
    rewrite !elem_of_cons in *. tauto.
  - assert (table_entry getTask t'
            ∧ (type t' = 1
               ∨ has_producer getTask (dependency_table (shared p0)) t')
            → table_entry getTask t'
              ∧ (type t' = 1
                 ∨ has_producer getTask
                     (dependency_table (execute_task t (shared p0))) t'))
      as Hold.
    { intros [? [?|?]]; eauto using has_producer_mono. }
    destruct (Hinv t) as [Het Htt].
    { rewrite Hr, elem_of_app, elem_of_cons. tauto. }
    assert (t' ∈ r1 ∨ t' ∈ r2 → t' ∈ running p0) as Hrun.
    { rewrite Hr, !elem_of_app, elem_of_cons. tauto. }
    rewrite (elem_of_app r1 r2) in Hin.
    revert Hin Hmono Hold. unfold execute_task.
    destruct (decide (type t = 1)) as [H1|H1];
      [|destruct (decide (type t = 2)) as [H2|H2]].
    + rewrite enqueue_column_spec. cbn.
      rewrite !elem_of_app, !list_elem_of_fmap.
      intros Hin Hmono Hold.
      assert (∀ k, k ∈ seqZ (chunk_idx_i t + 1)
                     (total_task_rows - (chunk_idx_i t + 1)) →
                   table_entry getTask (getTask k (chunk_idx_j t))
                   ∧ (type (getTask k (chunk_idx_j t)) = 1
                      ∨ has_producer getTask
                          ({[(chunk_idx_i t, chunk_idx_j t)]}
                           ∪ dependency_table (shared p0))
                          (getTask k (chunk_idx_j t)))) as Hnew.
      { intros k Hk%elem_of_seqZ. split; [apply table_entry_getTask|right].
        exists (chunk_idx_i t).
        destruct (getTask_coordinates k (chunk_idx_j t)) as [-> ->].
        split; [lia|]. split; [by apply elem_of_union_l, elem_of_singleton|].
        by rewrite <- Het. }
      destruct Hin as [[Ho|(k & -> & [_ Hk]%list_elem_of_filter)]
                      |[[Ho|(k & -> & [_ Hk]%list_elem_of_filter)]|Ho]];
        try (by apply Hnew); apply Hold, Hinv; auto.
    + intros Hin Hmono Hold.
      destruct (enq_nxt_t1 t && bool_decide (chunk_idx_j t + 1 ≤ total_task_cols))
        eqn:Hflag; cbn in Hin, Hmono, Hold |- *.
      * rewrite elem_of_app, list_elem_of_singleton in Hin.
        destruct Hin as [[Ho| ->]|[Ho|Ho]]; try (apply Hold, Hinv; by auto).
        split; [apply table_entry_getTask|left].
        apply andb_prop in Hflag as [Hflag _].
        rewrite Het in H2, Hflag. by apply (next_panel_is_factor _ _ H2 Hflag).
      * destruct Hin as [Ho|[Ho|Ho]]; apply Hold, Hinv; auto.
    + intros Hin _ _. apply Hinv. destruct Hin as [Ho|[Ho|Ho]]; auto.
  - rewrite wait_phase_dependency. apply Hinv. revert Hin. unfold wait_phase.
    destruct (wait_queue (shared p0)) as [|t rest] eqn:E; [by rewrite E|].
    case_match; cbn; rewrite ?elem_of_app, ?elem_of_cons, ?elem_of_nil;
      tauto.
Qed.

(** From the seeded pool on, every task that is queued or held by a
    worker is a table entry and, unless it is a panel factor, has a
    completed panel factor above it in its grid column. *)
Lemma producers_invariant p0 p t :
  seeded getTask p0 → rtc step p0 p →
  t ∈ taskPQ (shared p) ∨ t ∈ wait_queue (shared p) ∨ t ∈ running p →
  table_entry getTask t
  ∧ (type t = 1 ∨ has_producer getTask (dependency_table (shared p)) t).
Proof.
  intros (Hq & Hw & Hr & Hd) Hsteps. revert t.
  apply (steps_invariant
           (λ q, ∀ t, t ∈ taskPQ (shared q) ∨ t ∈ wait_queue (shared q)
                      ∨ t ∈ running q →
                      table_entry getTask t
                      ∧ (type t = 1
                         ∨ has_producer getTask (dependency_table (shared q)) t))
           step_producers p0 p Hsteps).
  intros t. rewrite Hq, Hw, Hr, list_elem_of_singleton, !elem_of_nil.
  intros [->|[[]|[]]]. split; [apply table_entry_getTask|by left].
Qed.
(** *** The history of completed tasks *)

Local Abbreviation step_traced :=
  (step_traced cfg getTask total_task_rows total_task_cols m n).

(** The step that completes a task runs its kernel. *)
Lemma execute_task_kernel t s :
  kernel_state (execute_task t s) = run_kernel m n t (kernel_state s).
Proof.
  unfold execute_task, run_kernel.
  destruct (decide (type t = 1)); [by rewrite enqueue_column_spec|].
  destruct (decide (type t = 2)); [by case_match|done].
Qed.

Lemma step_traced_step x y : step_traced x y → step x.1 y.1.
Proof.
  intros [p h t rest Hq | p h t r1 r2 Hr | p h]; cbn.
  - by apply step_pop.
  - by apply step_finish.
  - apply step_wait.
Qed.

Lemma steps_traced_steps x y : rtc step_traced x y → rtc step x.1 y.1.
Proof.
  induction 1 as [|x y z Hxy _ IH]; [done|].
  eapply rtc_l; [by apply step_traced_step|done].
Qed.

(** Every flag that is set is the flag of a task in the history. *)
Lemma traced_flags p0 x :
  seeded getTask p0 → rtc step_traced (p0, []) x →
  ∀ c, c ∈ dependency_table (shared x.1) →
       ∃ u, u ∈ x.2 ∧ (chunk_idx_i u, chunk_idx_j u) = c
            ∧ table_entry getTask u ∧ (type u = 1 ∨ type u = 2).
Proof.
  intros Hseed Hsteps. revert x Hsteps.
  apply (rtc_ind_r
           (λ x, ∀ c, c ∈ dependency_table (shared x.1) →
                      ∃ u, u ∈ x.2 ∧ (chunk_idx_i u, chunk_idx_j u) = c
                           ∧ table_entry getTask u
                           ∧ (type u = 1 ∨ type u = 2))
           (p0, [])).
  - pose proof Hseed as (_ & _ & _ & Hd). cbn. rewrite Hd.
    by intros c ?%elem_of_empty.
  - intros y z Hy Hyz IH.
    pose proof (steps_traced_steps _ _ Hy) as Hreach. cbn in Hreach.
    destruct Hyz as [p h t rest Hq | p h t r1 r2 Hr | p h]; cbn in *.
    + done.
    + intros c. rewrite execute_task_dependency.
      destruct (producers_invariant p0 p t Hseed Hreach) as [Het _].
      { rewrite Hr, elem_of_app, elem_of_cons. tauto. }
      case_decide as Hty.
      * intros [->%elem_of_singleton|Hc]%elem_of_union.
        -- exists t. split_and!; try done. apply elem_of_cons. by left.
        -- destruct (IH c Hc) as (u & ? & ? & ? & ?). exists u.
           split_and!; try done. apply elem_of_cons. by right.
      * intros Hc. destruct (IH c Hc) as (u & ? & ? & ? & ?). exists u.
        split_and!; try done. apply elem_of_cons. by right.
    + by rewrite wait_phase_dependency.
Qed.

(** A type-2 task that is queued, parked or held has, in the history, a
    panel factor of its grid column from a grid row above its own. *)
Lemma traced_producers p0 p h t :
  seeded getTask p0 → rtc step_traced (p0, []) (p, h) →
  t ∈ taskPQ (shared p) ∨ t ∈ wait_queue (shared p) ∨ t ∈ running p →
  type t = 2 →
  ∃ u, u ∈ h ∧ type u = 1 ∧ chunk_idx_j u = chunk_idx_j t
       ∧ chunk_idx_i u < chunk_idx_i t
       ∧ (reads_from_producers getTask →
          ∀ r, pivot_rows t r → pivot_rows u r).
Proof.
  intros Hseed Hsteps Hin Ht.
  pose proof (steps_traced_steps _ _ Hsteps) as Hreach. cbn in Hreach.
  destruct (producers_invariant p0 p t Hseed Hreach Hin)
    as [Het [?|(i & Hi & Hflag & Hty)]]; [congruence|].
  destruct (traced_flags p0 (p, h) Hseed Hsteps _ Hflag)
    as (u & Hu & [= Hui Huj] & Heu & _).
  assert (u = getTask i (chunk_idx_j t)) as Eu.
  { unfold table_entry in Heu. by rewrite Hui, Huj in Heu. }
  exists u. split_and!; try done; try congruence; try lia.
  intros Hrows r Hr. subst u. unfold table_entry in Het.
  apply (Hrows i (chunk_idx_j t) (chunk_idx_i t)); [done| |done|];
    by rewrite <- Het.
Qed.
End SchedulerFacts.

(** ** C5: the reflector slots *)

(** An iteration of complete_task1 stores to no slot but its own. *)
Lemma factor_pivot_slots_frame n row_end col_end p st r :
  r ≠ p →
  load (global_up_array (factor_pivot n row_end col_end p st)) r
    = load (global_up_array st) r
  ∧ load (global_b_array (factor_pivot n row_end col_end p st)) r
    = load (global_b_array st) r.
Proof.
  intros Hr. unfold factor_pivot.
  destruct (scan_row (mat st) n p) as [cl sm1].
  repeat case_match; cbn; rewrite ?load_store_ne by done; done.
Qed.

(** ... and to none at all when it does not reach lines 105-106. *)
Lemma factor_pivot_no_store n row_end col_end p st :
  stores_reflector n row_end p st = false →
  global_up_array (factor_pivot n row_end col_end p st) = global_up_array st
  ∧ global_b_array (factor_pivot n row_end col_end p st) = global_b_array st.
Proof.
  unfold stores_reflector, factor_pivot.
  destruct (scan_row (mat st) n p) as [cl sm1].
  repeat case_match; cbn; try done.
Qed.

(** The iterations that store are those of the non-degenerate pivots. *)
Lemma stores_reflector_spec n row_end p st :
  0 ≤ p → 0 ≤ n → p < row_end → (Z.to_nat (p * n + p) < length (mat st))%nat →
  let cl := fst (scan_row (mat st) n p) in
  let sm1 := snd (scan_row (mat st) n p) in
  let b := hs_b (householder_scalars cl sm1 (load (mat st) (p * n + p))) in
  stores_reflector n row_end p st = negb (cl <=? 0)%float && negb (0 <=? b)%float.
Proof.
  intros Hp Hn Hre Hlen. cbn zeta. unfold stores_reflector.
  destruct (scan_row (mat st) n p) as [cl sm1]. cbn [fst snd].
  destruct (cl <=? 0)%float; [done|].
  rewrite decide_False by lia. by rewrite load_store_eq by (nia || done).
Qed.

Lemma complete_task1_writes_fold n row_end col_end l st w :
  let factor := λ s p, factor_pivot n row_end col_end p s in
  let body := λ (acc : kstate * list Z) lpivot,
    let '(st, written) := acc in
    (factor_pivot n row_end col_end lpivot st,
     if stores_reflector n row_end lpivot st
     then written ++ [lpivot] else written) in
  ∃ w', foldl body (st, w) l = (foldl factor st l, w ++ w')
    ∧ w' `sublist_of` l
    ∧ (∀ r, r ∉ w' →
        load (global_up_array (foldl factor st l)) r = load (global_up_array st) r
        ∧ load (global_b_array (foldl factor st l)) r = load (global_b_array st) r)
    ∧ (∀ l1 p l2, l = l1 ++ p :: l2 → p ∉ l1 → p ∉ l2 →
        (p ∈ w' ↔ stores_reflector n row_end p (foldl factor st l1) = true)).
Proof.
  cbn zeta. revert st w. induction l as [|p l IH]; intros st w.
  - exists []. cbn. rewrite app_nil_r. split_and!; try done.
    intros [|??] ??; discriminate.
  - cbn [foldl].
    destruct (stores_reflector n row_end p st) eqn:Hs.
    + destruct (IH (factor_pivot n row_end col_end p st) (w ++ [p]))
        as (w' & -> & Hsub & Hframe & Hiff).
      exists (p :: w'). rewrite <- app_assoc. split; [done|].
      split; [by apply sublist_skip|]. split.
      * intros r Hr. apply not_elem_of_cons in Hr as [Hne Hr].
        destruct (Hframe r Hr) as [-> ->].
        by apply factor_pivot_slots_frame.
      * intros [|x l1] q l2 El Hq1 Hq2; simplify_eq/=.
        -- split; [done|]. intros _. apply elem_of_cons. by left.
        -- apply not_elem_of_cons in Hq1 as [Hne Hq1].
           rewrite elem_of_cons. rewrite <- (Hiff l1 q l2) by done. tauto.
    + destruct (IH (factor_pivot n row_end col_end p st) w)
        as (w' & -> & Hsub & Hframe & Hiff).
      exists w'. split; [done|]. split; [by apply sublist_cons|]. split.
      * intros r Hr. destruct (Hframe r Hr) as [-> ->].
        destruct (factor_pivot_no_store n row_end col_end p st Hs) as [-> ->].
        done.
      * intros [|x l1] q l2 El Hq1 Hq2; simplify_eq/=.
        -- rewrite Hs. split; [|done]. intros Hin.
           destruct Hq2. eapply elem_of_sublist; [exact Hin|exact Hsub].
        -- apply not_elem_of_cons in Hq1 as [Hne Hq1].
           by apply (Hiff l1 q l2).
Qed.

Lemma complete_task2_slots m n rs re cs ce st :
  global_up_array (complete_task2 m n rs re cs ce st) = global_up_array st
  ∧ global_b_array (complete_task2 m n rs re cs ce st) = global_b_array st.
Proof.
  unfold complete_task2.
  apply (for_loop_ind (λ s, global_up_array s = global_up_array st
                            ∧ global_b_array s = global_b_array st)); [done|].
  by intros p s _ [<- <-].
Qed.

(** Membership of a concrete row in the pivot rows of a concrete task. *)
Ltac rows_in_range :=
  vm_compute;
  first [ split; [discriminate | reflexivity]
        | let H := fresh in intros [_ H]; discriminate H
        | let H := fresh in intros [H _]; by apply H ].



(** ** Examples on the staircase grid *)

(** pop (0,0), finish it; pop (1,0) and (2,0); finish (1,0), which queues
    (1,1); pop (1,1) and finish it while (2,0) is still running. *)
Lemma staircase_reachable :
  rtc (step staircase_config staircase_table 3 3 0 0)
    staircase_seed staircase_pool.
Proof.
  eapply rtc_l;
    [apply (step_pop _ _ _ _ _ _ _ (staircase_table 0 0) []); reflexivity|].
  eapply rtc_l;
    [apply (step_finish _ _ _ _ _ _ _ (staircase_table 0 0) [] []); reflexivity|].
  eapply rtc_l;
    [apply (step_pop _ _ _ _ _ _ _ (staircase_table 1 0) [staircase_table 2 0]);
     reflexivity|].
  eapply rtc_l;
    [apply (step_pop _ _ _ _ _ _ _ (staircase_table 2 0) []); reflexivity|].
  eapply rtc_l;
    [apply (step_finish _ _ _ _ _ _ _ (staircase_table 1 0)
              [staircase_table 2 0] []); reflexivity|].
  eapply rtc_l;
    [apply (step_pop _ _ _ _ _ _ _ (staircase_table 1 1) []); reflexivity|].
  eapply rtc_l;
    [apply (step_finish _ _ _ _ _ _ _ (staircase_table 1 1)
              [] [staircase_table 2 0]); reflexivity|].
  vm_compute. apply rtc_refl.
Qed.

(** C3 at the completion of (1,1) on the staircase grid while (2,0) is not
    done: its successor (2,1) goes to the wait queue. *)
Lemma type1_completion_enqueues_witness :
  ready_phase staircase_config staircase_table 3 3 0 0
    (Sched (KState [] [] []) {[ (1, 0); (0, 0) ]} [staircase_table 1 1] [])
  = Sched (KState [] [] []) {[ (1, 1); (1, 0); (0, 0) ]}
      [] [staircase_table 2 1].
Proof.
  refine (eq_trans (proj1
    (type1_completion_enqueues staircase_config staircase_table 3 3 0 0
       (Sched (KState [] [] []) {[ (1, 0); (0, 0) ]} [staircase_table 1 1] [])
       (staircase_table 1 1) [] eq_refl eq_refl)) _).
  vm_compute. reflexivity.
Defined.

(** C9 at the pool in which (2,1) is parked. *)
Lemma wait_queue_columns_witness :
  Forall (λ t, 1 ≤ chunk_idx_j t ∧ 0 ≤ chunk_idx_j t - 1)
    [staircase_table 2 1].
Proof.
  exact (proj1
    (wait_queue_columns staircase_config staircase_table 3 3 0 0
       (λ i j, conj eq_refl eq_refl) staircase_seed staircase_pool
       (conj eq_refl (conj eq_refl (conj eq_refl eq_refl)))
       staircase_reachable)).
Defined.

(** C5 at the same pool: the parked update (2,1) has the completed panel
    factor (1,1) above it. *)
Lemma column_next_panel i j :
  type (column_table i j) = 2 → enq_nxt_t1 (column_table i j) = true →
  type (column_table ((j + 1) ÷ BETA_DIV_ALPHA config_2_2) (j + 1)) = 1.
Proof.
  intros _ _. unfold column_table. cbn [type].
  change (BETA_DIV_ALPHA config_2_2) with 1. rewrite Z.quot_1_r.
  by rewrite decide_True.
Qed.

Lemma column_reads_from_producers : reads_from_producers column_table.
Proof.
  intros i j k Hi Hk _ r. unfold column_table in *. cbn [type] in Hi, Hk.
  unfold pivot_rows. cbn [row_start row_end]. done.
Qed.

(** pop (0,0), finish it, pop (1,0): the history is [(0,0)]. *)
Lemma column_reachable :
  rtc (step_traced config_2_2 column_table 2 2 4 4)
    (identity4_seed column_table, []) (column_pool, [column_table 0 0]).
Proof.
  eapply rtc_l;
    [apply (traced_pop _ _ _ _ _ _ _ _ (column_table 0 0) []); reflexivity|].
  eapply rtc_l;
    [apply (traced_finish _ _ _ _ _ _ _ _ (column_table 0 0) [] []);
     reflexivity|].
  eapply rtc_l;
    [apply (traced_pop _ _ _ _ _ _ _ _ (column_table 1 0) []); reflexivity|].
  vm_compute. apply rtc_refl.
Qed.


(** ** C6: the driver's entry *)

Lemma resize_nil k :
  resize [] k = if decide (k < 0) then None
                else Some (replicate (Z.to_nat k) 0%float).
Proof.
  unfold resize. case_decide; [done|]. rewrite take_nil. cbn.
  do 2 f_equal. lia.
Qed.

Lemma dagqrf_setup_spec cfg task_table matrix mat_rows mat_cols :
  dagqrf_setup cfg task_table matrix mat_rows mat_cols
  = if decide (mat_rows < 0) then None
    else Some (Sched (KState matrix (replicate (Z.to_nat mat_rows) 0%float)
                        (replicate (Z.to_nat mat_rows) 0%float)) ∅
                 [driver_table cfg task_table mat_rows mat_cols 0 0] []).
Proof. unfold dagqrf_setup. rewrite resize_nil. by case_decide. Qed.



(** ** A worker running alone is one execution of the pool *)

Section SequentialRuns.
Variable cfg : config.
Variable getTask : Z → Z → Task.
Variables total_task_rows total_task_cols : Z.
Variables m n : Z.

Local Abbreviation ready_phase :=
  (ready_phase cfg getTask total_task_rows total_task_cols m n).
Local Abbreviation exit_test := (exit_test cfg total_task_rows).
Local Abbreviation thdwork :=
  (thdwork cfg getTask total_task_rows total_task_cols m n).
Local Abbreviation workers_in_turn :=
  (workers_in_turn cfg getTask total_task_rows total_task_cols m n).
Local Abbreviation step :=
  (step cfg getTask total_task_rows total_task_cols m n).

(** One pass of the loop body: a pop and the completion of the popped
    task, if there is one, then the pass over the wait queue. *)
Lemma thdwork_pass_steps s r :
  rtc step (Pool s r) (Pool (wait_phase (ready_phase s)) r).
Proof.
  eapply rtc_r; [|apply (step_wait _ _ _ _ _ _ (Pool (ready_phase s) r))].
  unfold ready_phase. destruct (taskPQ s) as [|t rest] eqn:E; [done|].
  eapply rtc_l; [by apply (step_pop _ _ _ _ _ _ (Pool s r) t rest)|].
  apply rtc_once.
  by apply (step_finish _ _ _ _ _ _
              (Pool (pop_taskPQ rest s) (t :: r)) t [] r).
Qed.

Lemma thdwork_steps fuel : ∀ s s' r,
  thdwork fuel s = Some s' →
  rtc step (Pool s r) (Pool s' r) ∧ exit_test s' = true.
Proof.
  induction fuel as [|fuel IH]; intros s s' r; [done|].
  change (thdwork (S fuel) s) with
    (if exit_test (wait_phase (ready_phase s))
     then Some (wait_phase (ready_phase s))
     else thdwork fuel (wait_phase (ready_phase s))).
  destruct (exit_test (wait_phase (ready_phase s))) eqn:E.
  - intros [= <-]. split; [apply thdwork_pass_steps|done].
  - intros [Hsteps He]%(IH _ _ r). split; [|done].
    etrans; [apply thdwork_pass_steps|done].
Qed.

Lemma workers_in_turn_steps fuel workers : ∀ s s',
  workers_in_turn fuel workers s = Some s' →
  rtc step (Pool s []) (Pool s' [])
  ∧ (workers ≠ 0%nat → exit_test s' = true).
Proof.
  induction workers as [|workers IH]; intros s s'.
  - intros [= <-]. done.
  - change (workers_in_turn fuel (S workers) s) with
      (match thdwork fuel s with
       | Some s1 => workers_in_turn fuel workers s1
       | None => None
       end).
    destruct (thdwork fuel s) as [s1|] eqn:E; [|done].
    apply (thdwork_steps _ _ _ []) in E as [Hsteps He].
    intros H. pose proof H as [Hsteps' He']%IH. split; [by etrans|].
    intros _. destruct workers as [|workers]; [|by apply He'].
    by injection H as <-.
Qed.
End SequentialRuns.

Lemma thdwork_unfold cfg getTask TR TC m n fuel s :
  thdwork cfg getTask TR TC m n (S fuel) s
  = let '(s', brk) := thdwork_iter cfg getTask TR TC m n s in
    if brk then Some s' else thdwork cfg getTask TR TC m n fuel s'.
Proof. done. Qed.

Lemma workers_in_turn_unfold cfg getTask TR TC m n fuel workers s :
  workers_in_turn cfg getTask TR TC m n fuel (S workers) s
  = match thdwork cfg getTask TR TC m n fuel s with
    | Some s' => workers_in_turn cfg getTask TR TC m n fuel workers s'
    | None => None
    end.
Proof. done. Qed.

(** A pass that changes nothing and does not break repeats for ever. *)
Lemma thdwork_stuck cfg getTask TR TC m n s :
  thdwork_iter cfg getTask TR TC m n s = (s, false) →
  ∀ fuel, thdwork cfg getTask TR TC m n fuel s = None.
Proof.
  intros Hs fuel. induction fuel as [|fuel IH]; [done|].
  cbn [thdwork]. by rewrite Hs.
Qed.

(** ** C7: the identity scenario *)

Lemma same_descriptor_inv t ty i j rs re cs ce pr e :
  same_descriptor t (MkTask ty i j rs re cs ce pr e) →
  t = MkTask ty i j rs re cs ce (priority t) (enq_nxt_t1 t).
Proof.
  destruct t. unfold same_descriptor. cbn.
  by intros (-> & -> & -> & -> & -> & -> & ->).
Qed.

Section Identity4.
Variable tbl : Z → Z → Task.
Hypothesis tbl_descriptors :
  ∀ i j, 0 ≤ i < 2 → 0 ≤ j < 2 → same_descriptor (tbl i j) (grid4 i j).

Local Abbreviation step := (step config_2_2 tbl 2 2 4 4).
Local Abbreviation execute_task := (execute_task config_2_2 tbl 2 2 4 4).

Lemma tbl_0_0 :
  tbl 0 0 = MkTask 1 0 0 0 2 0 2 (priority (tbl 0 0)) (enq_nxt_t1 (tbl 0 0)).
Proof.
  eapply same_descriptor_inv.
  apply (tbl_descriptors 0 0); lia.
Qed.

Lemma tbl_1_0 :
  tbl 1 0 = MkTask 2 1 0 2 4 0 2 (priority (tbl 1 0)) (enq_nxt_t1 (tbl 1 0)).
Proof.
  eapply same_descriptor_inv.
  apply (tbl_descriptors 1 0); lia.
Qed.

Lemma tbl_1_1 :
  tbl 1 1 = MkTask 1 1 1 2 4 2 4 (priority (tbl 1 1)) (enq_nxt_t1 (tbl 1 1)).
Proof.
  eapply same_descriptor_inv.
  apply (tbl_descriptors 1 1); lia.
Qed.

(** The three completions. *)
Lemma finish_0_0 :
  execute_task (tbl 0 0) (Sched (identity4_after false false) ∅ [] [])
  = Sched (identity4_after true false) ({[ (0, 0) ]} ∪ ∅) [tbl 1 0] [].
Proof. rewrite tbl_0_0 at 1. vm_compute. reflexivity. Qed.

Lemma finish_1_0 :
  execute_task (tbl 1 0)
    (Sched (identity4_after true false) ({[ (0, 0) ]} ∪ ∅) [] [])
  = Sched (identity4_after true false) ({[ (1, 0) ]} ∪ ({[ (0, 0) ]} ∪ ∅))
      (if enq_nxt_t1 (tbl 1 0) then [tbl 1 1] else []) [].
Proof.
  rewrite tbl_1_0 at 1. destruct (enq_nxt_t1 (tbl 1 0)); vm_compute; reflexivity.
Qed.

Lemma finish_1_1 :
  execute_task (tbl 1 1)
    (Sched (identity4_after true false)
       ({[ (1, 0) ]} ∪ ({[ (0, 0) ]} ∪ ∅)) [] [])
  = Sched (identity4_after true true)
      ({[ (1, 1) ]} ∪ ({[ (1, 0) ]} ∪ ({[ (0, 0) ]} ∪ ∅))) [] [].
Proof. rewrite tbl_1_1 at 1. vm_compute. reflexivity. Qed.

Lemma app_singleton_cases {A} (l1 l2 : list A) x :
  l1 ++ l2 = [x] → (l1 = [x] ∧ l2 = []) ∨ (l1 = [] ∧ l2 = [x]).
Proof.
  destruct l1 as [|y [|z l1]]; cbn; [by right| |done].
  intros [= -> ->]. by left.
Qed.

Lemma identity4_stage_step p p' :
  step p p' → identity4_stage tbl p → identity4_stage tbl p'.
Proof.
  destruct p as [[ks d pq wq] run].
  intros Hstep [Hw Hstage].
  cbn [shared running kernel_state dependency_table taskPQ wait_queue]
    in Hw, Hstage. subst wq.
  inversion Hstep as [p0 t rest Hq | p0 t r1 r2 Hr | p0]; subst p0;
    cbn [shared running kernel_state dependency_table taskPQ wait_queue] in *.
  - (* pop *)
    subst pq. split; [done|]. cbn.
    assert (rest = [] ∧ run = []) as [-> ->].
    { destruct Hstage as [H|[H|[H|H]]]; destruct H as (_ & _ & H);
        try (destruct (enq_nxt_t1 (tbl 1 0))); destruct rest, run; done. }
    cbn in Hstage. exact Hstage.
  - (* finish *)
    subst run.
    assert (pq = [] ∧ r1 = [] ∧ r2 = []) as (-> & -> & ->).
    { assert (∀ y, pq ++ r1 ++ t :: r2 = [y] → pq = [] ∧ r1 = [] ∧ r2 = [])
        as Hone.
      { intros y. destruct pq as [|? [|? ?]], r1 as [|? [|? ?]], r2; done. }
      assert (pq ++ r1 ++ t :: r2 ≠ []) as Hnil by by destruct pq, r1.
      destruct Hstage as [H|[H|[H|H]]]; destruct H as (_ & _ & H);
        try (destruct (enq_nxt_t1 (tbl 1 0))); by eauto. }
    cbn [app] in *.
    destruct Hstage as [(-> & -> & [= ->])|[(-> & -> & [= ->])
                       |[(-> & -> & H)|(_ & _ & [=])]]].
    + rewrite finish_0_0. split; [done|]. right; left. done.
    + rewrite finish_1_0. split; [done|]. right; right; left.
      split_and!; try done. by rewrite app_nil_r.
    + destruct (enq_nxt_t1 (tbl 1 0)); [|done]. injection H as ->.
      rewrite finish_1_1. split; [done|]. right; right; right. done.
  - (* wait *)
    split; [done|]. exact Hstage.
Qed.

Lemma identity4_stage_seed : identity4_stage tbl (identity4_seed tbl).
Proof. split; [done|]. left. done. Qed.

Lemma identity4_reachable p :
  rtc step (identity4_seed tbl) p → identity4_stage tbl p.
Proof.
  intros Hsteps.
  apply (steps_invariant config_2_2 tbl 2 2 4 4 (identity4_stage tbl)
           identity4_stage_step _ _ Hsteps).
  apply identity4_stage_seed.
Qed.

Lemma identity4_stage_exit p :
  identity4_stage tbl p →
  (∃ a b, kernel_state (shared p) = identity4_after a b
          ∧ (b = true → a = true))
  ∧ ((1, 1) ∈ dependency_table (shared p) →
     kernel_state (shared p) = identity4_after true true).
Proof.
  intros [_ [H|[H|[H|H]]]]; destruct H as (-> & -> & _).
  - split; [by exists false, false|]. by intros ?%elem_of_empty.
  - split; [by exists true, false|].
    rewrite elem_of_union, elem_of_singleton, elem_of_empty.
    by intros [[=]|[]].
  - split; [by exists true, false|].
    rewrite !elem_of_union, !elem_of_singleton, elem_of_empty.
    by intros [[=]|[[=]|[]]].
  - split; [by exists true, true|done].
Qed.

(** *** The workers in turn *)

Local Abbreviation thdwork := (thdwork config_2_2 tbl 2 2 4 4).
Local Abbreviation thdwork_iter := (thdwork_iter config_2_2 tbl 2 2 4 4).
Local Abbreviation workers_in_turn :=
  (workers_in_turn config_2_2 tbl 2 2 4 4).

Lemma pass_0 :
  thdwork_iter (Sched (identity4_after false false) ∅ [tbl 0 0] [])
  = (Sched (identity4_after true false) ({[ (0, 0) ]} ∪ ∅) [tbl 1 0] [],
     false).
Proof.
  change (thdwork_iter (Sched (identity4_after false false) ∅ [tbl 0 0] []))
    with (let s' := wait_phase
                      (execute_task (tbl 0 0)
                         (Sched (identity4_after false false) ∅ [] [])) in
          (s', exit_test config_2_2 2 s')).
  rewrite finish_0_0. vm_compute. reflexivity.
Qed.

Lemma pass_1 :
  thdwork_iter
    (Sched (identity4_after true false) ({[ (0, 0) ]} ∪ ∅) [tbl 1 0] [])
  = (Sched (identity4_after true false) ({[ (1, 0) ]} ∪ ({[ (0, 0) ]} ∪ ∅))
       (if enq_nxt_t1 (tbl 1 0) then [tbl 1 1] else []) [],
     false).
Proof.
  change (thdwork_iter
            (Sched (identity4_after true false) ({[ (0, 0) ]} ∪ ∅)
               [tbl 1 0] []))
    with (let s' := wait_phase
                      (execute_task (tbl 1 0)
                         (Sched (identity4_after true false)
                            ({[ (0, 0) ]} ∪ ∅) [] [])) in
          (s', exit_test config_2_2 2 s')).
  rewrite finish_1_0. destruct (enq_nxt_t1 (tbl 1 0)); vm_compute; reflexivity.
Qed.

Lemma pass_2 :
  thdwork_iter
    (Sched (identity4_after true false) ({[ (1, 0) ]} ∪ ({[ (0, 0) ]} ∪ ∅))
       [tbl 1 1] [])
  = (Sched (identity4_after true true)
       ({[ (1, 1) ]} ∪ ({[ (1, 0) ]} ∪ ({[ (0, 0) ]} ∪ ∅))) [] [],
     true).
Proof.
  change (thdwork_iter
            (Sched (identity4_after true false)
               ({[ (1, 0) ]} ∪ ({[ (0, 0) ]} ∪ ∅)) [tbl 1 1] []))
    with (let s' := wait_phase
                      (execute_task (tbl 1 1)
                         (Sched (identity4_after true false)
                            ({[ (1, 0) ]} ∪ ({[ (0, 0) ]} ∪ ∅)) [] [])) in
          (s', exit_test config_2_2 2 s')).
  rewrite finish_1_1. vm_compute. reflexivity.
Qed.

(** With [enq_nxt_t1] on (1,0) the first worker leaves after three
    passes, the second after one. *)
Lemma identity4_workers_return fuel :
  enq_nxt_t1 (tbl 1 0) = true →
  workers_in_turn (3 + fuel) 2
    (Sched (identity4_after false false) ∅ [tbl 0 0] [])
  = Some (Sched (identity4_after true true)
            ({[ (1, 1) ]} ∪ ({[ (1, 0) ]} ∪ ({[ (0, 0) ]} ∪ ∅))) [] []).
Proof.
  intros He. change (3 + fuel)%nat with (S (S (S fuel))).
  rewrite workers_in_turn_unfold.
  rewrite thdwork_unfold, pass_0. cbv beta iota zeta.
  rewrite thdwork_unfold, pass_1, He. cbv beta iota zeta.
  rewrite thdwork_unfold, pass_2. cbv beta iota zeta.
  rewrite workers_in_turn_unfold, thdwork_unfold.
  assert (thdwork_iter
            (Sched (identity4_after true true)
               ({[ (1, 1) ]} ∪ ({[ (1, 0) ]} ∪ ({[ (0, 0) ]} ∪ ∅))) [] [])
          = (Sched (identity4_after true true)
               ({[ (1, 1) ]} ∪ ({[ (1, 0) ]} ∪ ({[ (0, 0) ]} ∪ ∅))) [] [],
             true)) as -> by (vm_compute; reflexivity).
  done.
Qed.

(** Without it the workers stall once (1,0) has completed. *)
Lemma identity4_workers_stall fuel :
  enq_nxt_t1 (tbl 1 0) = false →
  workers_in_turn fuel 2
    (Sched (identity4_after false false) ∅ [tbl 0 0] [])
  = None.
Proof.
  intros He. rewrite workers_in_turn_unfold.
  destruct fuel as [|[|fuel]]; [done| |].
  - by rewrite thdwork_unfold, pass_0.
  - rewrite thdwork_unfold, pass_0. cbv beta iota zeta.
    rewrite thdwork_unfold, pass_1, He. cbv beta iota zeta.
    rewrite thdwork_stuck; [done|]. vm_compute. reflexivity.
Qed.
End Identity4.

(** C7 as stated fails on the reflectors.  With the table of section 4.3
    and [enq_nxt_t1] on the task left of the factor (1,1), the driver runs
    (0,0), (1,0) and (1,1) and returns with [up_array = [2; 2; 2; 2]]: no
    slot is zero.  With [enq_nxt_t1] as the formula of R3 puts it, the
    first pass of a worker leaves [up_array = [2; 2; 0; 0]], and the driver
    does not return. *)
Lemma identity4_reflectors_not_zero :
  dagqrf config_2_2 spec_task_table_left 3 identity4 4 4
    = Returns ([-1; 0; 0; 0;  0; -1; 0; 0;  0; 0; -1; 0;  0; 0; 0; -1]%float,
               [2; 2; 2; 2]%float)
  ∧ ¬ (∀ r, 0 ≤ r < 4 → load [2; 2; 2; 2]%float r = 0%float)
  ∧ global_up_array
      (kernel_state
         (fst (thdwork_iter config_2_2 grid4 2 2 4 4
                 (shared (identity4_seed grid4)))))
    = [2; 2; 0; 0]%float
  ∧ dagqrf config_2_2 spec_task_table 3 identity4 4 4 = Spins.
Proof.
  split; [vm_compute; reflexivity|]. split.
  - intros H. specialize (H 0 ltac:(lia)). vm_compute in H.
    assert ((2 =? 0)%float = true) as Hz by (rewrite H; reflexivity).
    vm_compute in Hz. discriminate.
  - split; vm_compute; reflexivity.
Qed.

(** C7, amended.  For the 4x4 identity with ALPHA = BETA = 2, two workers
    and a table whose four descriptors have the types, coordinates and
    ranges of section 4.3 (whatever their priorities and [enq_nxt_t1]
    flags):
    - in every state the workers reach, in any interleaving, the kernel
      state is the identity with the diagonal of panel 0, or of both
      panels, turned to -1 and the slots of those rows at [up = 2],
      [b = -1/2]: off-diagonal entries are exactly 0 and diagonal entries
      have absolute value 1; once the exit flag (1,1) is set both panels
      are factored;
    - so whenever the driver returns, every diagonal entry is -1, every
      off-diagonal entry exactly 0, and every slot of [up_array] is 2
      (none is zero);
    - it returns, after three passes of the first worker, when
      [enq_nxt_t1] is set on (1,0), and never when it is not. *)
Theorem identity4_factorization (tbl : Z → Z → Task) :
  (∀ i j, 0 ≤ i < 2 → 0 ≤ j < 2 → same_descriptor (tbl i j) (grid4 i j)) →
  let final : list float * list float :=
    ([-1; 0; 0; 0;  0; -1; 0; 0;  0; 0; -1; 0;  0; 0; 0; -1]%float,
     [2; 2; 2; 2]%float) in
  let run fuel := dagqrf config_2_2 (λ _ _ _ _ _ _, tbl) fuel identity4 4 4 in
  (∀ p, rtc (step config_2_2 tbl 2 2 4 4) (identity4_seed tbl) p →
     (∃ a b, kernel_state (shared p) = identity4_after a b
             ∧ (b = true → a = true))
     ∧ ((1, 1) ∈ dependency_table (shared p) →
        kernel_state (shared p) = identity4_after true true))
  ∧ (∀ fuel result, run fuel = Returns result → result = final)
  ∧ (enq_nxt_t1 (tbl 1 0) = true → ∀ fuel, run (3 + fuel)%nat = Returns final)
  ∧ (enq_nxt_t1 (tbl 1 0) = false → ∀ fuel, run fuel = Spins).
Proof.
  intros Htbl final run.
  assert (Hrun : ∀ fuel,
            run fuel
            = match workers_in_turn config_2_2 tbl 2 2 4 4 fuel 2
                      (Sched (identity4_after false false) ∅ [tbl 0 0] []) with
              | None => Spins
              | Some s =>
                let 'KState mat' up_array _ := kernel_state s in
                Returns (mat', up_array)
              end).
  { intros fuel. done. }
  split_and!.
  - intros p Hsteps. apply (identity4_stage_exit tbl).
    by apply identity4_reachable.
  - intros fuel result. rewrite Hrun.
    destruct (workers_in_turn _ _ _ _ _ _ _ _ _) as [s|] eqn:E; [|done].
    apply workers_in_turn_steps in E as [Hsteps Hexit].
    specialize (Hexit ltac:(done)).
    apply (identity4_reachable tbl Htbl) in Hsteps.
    apply identity4_stage_exit in Hsteps as [_ Hfinal].
    cbn [shared] in Hfinal.
    rewrite Hfinal; [by intros [= <-]|].
    unfold exit_test, getDependency in Hexit.
    by apply bool_decide_eq_true in Hexit.
  - intros He fuel. rewrite Hrun.
    by rewrite (identity4_workers_return tbl Htbl fuel He).
  - intros He fuel. rewrite Hrun.
    by rewrite (identity4_workers_stall tbl Htbl fuel He).
Qed.

(** The table of section 4.3 with [enq_nxt_t1] on the left neighbour of
    each factor: the driver returns the factored identity. *)
Lemma identity4_factorization_witness :
  dagqrf config_2_2 (λ _ _ _ _ _ _, spec_task_table_left 2 2 2 2 4 4)
    3 identity4 4 4
  = Returns ([-1; 0; 0; 0;  0; -1; 0; 0;  0; 0; -1; 0;  0; 0; 0; -1]%float,
             [2; 2; 2; 2]%float).
Proof.
  refine (proj1 (proj2 (proj2
    (identity4_factorization (spec_task_table_left 2 2 2 2 4 4) _))) _ 0%nat).
  - intros i j Hi Hj.
    assert ((i = 0 ∨ i = 1) ∧ (j = 0 ∨ j = 1)) as [[-> | ->] [-> | ->]]
      by lia; vm_compute; by repeat split.
  - reflexivity.
Defined.

(** ** The table of section 4.3 under the scheduler of main.cpp *)

(** The table as sections 4.3 and 4.6 word it meets the three hypotheses
    the theorems on the pool make on a task table. *)
Lemma spec_task_table_coordinates TR TC alpha beta M N i j :
  chunk_idx_i (spec_task_table TR TC alpha beta M N i j) = i
  ∧ chunk_idx_j (spec_task_table TR TC alpha beta M N i j) = j.
Proof. done. Qed.

Lemma spec_task_table_seed TR TC alpha beta M N :
  type (spec_task_table TR TC alpha beta M N 0 0) = 1.
Proof. unfold spec_task_table. cbn. by rewrite decide_True by lia. Qed.

Lemma spec_task_table_next_panel TR TC alpha beta M N i j :
  beta ÷ alpha ≠ 0 →
  type (spec_task_table TR TC alpha beta M N i j) = 2 →
  enq_nxt_t1 (spec_task_table TR TC alpha beta M N i j) = true →
  type (spec_task_table TR TC alpha beta M N
          ((j + 1) ÷ (beta ÷ alpha)) (j + 1)) = 1.
Proof.
  intros HR _. unfold spec_task_table. cbn.
  intros (_ & Hj & _)%bool_decide_eq_true.
  rewrite Hj, Z.quot_mul by done. by rewrite decide_True.
Qed.

(* ================================================================== *)
(** * Further properties of the kernels *)
(* ================================================================== *)

(** ** Cells, rows and columns *)

Lemma flat_div n r c : 0 ≤ c < n → (r * n + c) / n = r ∧ (r * n + c) `mod` n = c.
Proof.
  intros Hc. split.
  - symmetry. apply (Z.div_unique _ _ r c); lia.
  - symmetry. apply (Z.mod_unique _ _ r c); lia.
Qed.

Lemma in_block_cell n r0 r1 c0 r c :
  0 ≤ c < n → in_block n r0 r1 c0 (r * n + c) ↔ r0 ≤ r < r1 ∧ c0 ≤ c.
Proof.
  intros Hc. unfold in_block. destruct (flat_div n r c Hc) as [-> ->]. tauto.
Qed.

Global Instance in_block_dec n r0 r1 c0 q : Decision (in_block n r0 r1 c0 q).
Proof. unfold in_block. apply _. Defined.

Lemma load_store buf i v q :
  load (store buf i v) q
  = if decide (q = i ∧ 0 ≤ i ∧ (Z.to_nat i < length buf)%nat) then v
    else load buf q.
Proof.
  case_decide as H.
  - destruct H as (-> & ? & ?). by apply load_store_eq.
  - destruct (decide (q = i)) as [->|]; [|by apply load_store_ne].
    unfold load, store. case_decide; [|done].
    rewrite list_insert_ge; [done|lia].
Qed.

(** Two buffers of one length with the same cells are the same buffer. *)
Lemma buffer_ext m1 m2 :
  length m1 = length m2 → (∀ q, load m1 q = load m2 q) → m1 = m2.
Proof.
  intros Hlen Hq. apply list_eq_same_length with (length m1); [done|done|].
  intros i x y Hi Hx Hy. specialize (Hq (Z.of_nat i)).
  unfold load in Hq. rewrite !decide_True in Hq by lia.
  rewrite Nat2Z.id, Hx, Hy in Hq. exact Hq.
Qed.

(** The relational rule of the [for] loop. *)
Lemma for_loop_ind2 {S T} (R : S → T → Prop) lo hi
    (f : Z → S → S) (g : Z → T → T) s t :
  R s t → (∀ i s t, lo ≤ i < hi → R s t → R (f i s) (g i t)) →
  R (for_loop lo hi f s) (for_loop lo hi g t).
Proof.
  intros Hst Hstep. unfold for_loop.
  assert (Forall (λ i, lo ≤ i < hi) (seqZ lo (hi - lo))) as Hl.
  { apply Forall_forall. intros i Hi%elem_of_seqZ. lia. }
  revert s t Hst. induction Hl as [|i l Hi _ IH]; intros s t Hst; cbn; auto.
Qed.

(** ** What one reflector application writes and reads *)

(** Applied to row [j] for pivot [p], it writes inside row [j], from column
    [p] on, and nowhere else. *)
Lemma apply_reflector_frame n p up b j m q :
  0 ≤ p < n → ¬ in_block n j (j + 1) p q →
  load (apply_reflector n p up b j m) q = load m q.
Proof.
  intros Hp Hq.
  assert (∀ i, p ≤ i < n → q ≠ j * n + i) as Hne.
  { intros i Hi ->. apply Hq. apply in_block_cell; lia. }
  unfold apply_reflector. case_match; [done|].
  unfold axpy_tail.
  match goal with |- load (for_loop _ _ _ ?m0) _ = _ =>
    transitivity (load m0 q) end.
  - apply (for_loop_ind (λ m', load m' q = load _ q)); [done|].
    intros i m' Hi <-. apply load_store_ne. intros E. apply (Hne i); [lia|done].
  - apply load_store_ne. intros E. apply (Hne p); [lia|done].
Qed.

(** What it writes depends only on row [j] from column [p] on and on row
    [p] right of column [p]. *)
Lemma apply_reflector_agree (Q : Z → Prop) n p up b j m1 m2 :
  0 ≤ p < n →
  (∀ i, p ≤ i < n → Q (j * n + i)) → (∀ i, p < i < n → Q (p * n + i)) →
  length m1 = length m2 → agree Q m1 m2 →
  length (apply_reflector n p up b j m1) = length (apply_reflector n p up b j m2)
  ∧ agree Q (apply_reflector n p up b j m1) (apply_reflector n p up b j m2).
Proof.
  intros Hp HQj HQp Hlen Hag.
  assert (dot_tail m1 n p j (load m1 (j * n + p) * up)
          = dot_tail m2 n p j (load m2 (j * n + p) * up)) as Hdot.
  { unfold dot_tail. apply (for_loop_ind2 eq).
    - by rewrite (Hag (j * n + p)) by (apply HQj; lia).
    - intros i s t Hi ->.
      rewrite (Hag (j * n + i)) by (apply HQj; lia).
      by rewrite (Hag (p * n + i)) by (apply HQp; lia). }
  unfold apply_reflector. rewrite Hdot. case_match; [done|].
  unfold axpy_tail.
  apply (for_loop_ind2 (λ a b, length a = length b ∧ agree Q a b)).
  - split; [by rewrite !store_length|].
    intros q Hq. rewrite !load_store, Hlen.
    rewrite (Hag (j * n + p)) by (apply HQj; lia).
    case_decide; [done|by apply Hag].
  - intros i a c Hi [Hl Ha]. split; [by rewrite !store_length|].
    intros q Hq. rewrite !load_store, Hl.
    rewrite (Ha (j * n + i)) by (apply HQj; lia).
    rewrite (Ha (p * n + i)) by (apply HQp; lia).
    case_decide; [done|by apply Ha].
Qed.

(** ** complete_task2: its footprint *)

Lemma in_block_mono n r0 r1 c0 r0' r1' c0' q :
  r0' ≤ r0 → r1 ≤ r1' → c0' ≤ c0 →
  in_block n r0 r1 c0 q → in_block n r0' r1' c0' q.
Proof. unfold in_block. lia. Qed.

Lemma update_pivot_length n cs ce p st :
  length (mat (update_pivot n cs ce p st)) = length (mat st).
Proof. unfold update_pivot. cbn. apply reflector_loop_length. Qed.

Lemma update_pivot_frame n cs ce p st q :
  0 ≤ p < n → ¬ in_block n cs ce p q →
  load (mat (update_pivot n cs ce p st)) q = load (mat st) q.
Proof.
  intros Hp Hq. unfold update_pivot. cbn.
  apply (for_loop_ind (λ m', load m' q = load (mat st) q)); [done|].
  intros j m' Hj <-. apply apply_reflector_frame; [done|].
  intros Hin. apply Hq. revert Hin. apply in_block_mono; lia.
Qed.

Lemma update_pivot_agree (Q : Z → Prop) n cs ce p st1 st2 :
  0 ≤ p < n →
  (∀ q, in_block n cs ce p q → Q q) → (∀ i, p < i < n → Q (p * n + i)) →
  load (global_up_array st1) p = load (global_up_array st2) p →
  load (global_b_array st1) p = load (global_b_array st2) p →
  length (mat st1) = length (mat st2) → agree Q (mat st1) (mat st2) →
  length (mat (update_pivot n cs ce p st1))
    = length (mat (update_pivot n cs ce p st2))
  ∧ agree Q (mat (update_pivot n cs ce p st1)) (mat (update_pivot n cs ce p st2)).
Proof.
  intros Hp HQ HQp Hup Hb Hlen Hag. unfold update_pivot. cbn. rewrite Hup, Hb.
  apply (for_loop_ind2 (λ a b, length a = length b ∧ agree Q a b)); [done|].
  intros j a c Hj [Hl Ha]. apply apply_reflector_agree; try done.
  intros i Hi. apply HQ. apply in_block_cell; lia.
Qed.

Lemma complete_task2_length m n rs re cs ce st :
  length (mat (complete_task2 m n rs re cs ce st)) = length (mat st).
Proof.
  unfold complete_task2.
  apply (for_loop_ind (λ s, length (mat s) = length (mat st))); [done|].
  intros p s _ <-. apply update_pivot_length.
Qed.

Lemma complete_task2_frame m n rs re cs ce st q :
  0 ≤ effective_start rs → re ≤ n →
  ¬ in_block n (effective_start cs) ce (effective_start rs) q →
  load (mat (complete_task2 m n rs re cs ce st)) q = load (mat st) q.
Proof.
  intros Hrs Hre Hq.
  unfold complete_task2. fold (effective_start rs) (effective_start cs).
  apply (for_loop_ind (λ s, load (mat s) q = load (mat st) q)); [done|].
  intros p s Hp <-. apply update_pivot_frame; [lia|].
  intros Hin. apply Hq. revert Hin. apply in_block_mono; lia.
Qed.

(** X1. complete_task2 on pivots [[rs', re)] and rows [[cs', ce)] (the
    starts after the sentinel, [0 <= rs'], [re <= n]) changes no cell outside
    the rows [[cs', ce)], and inside them none left of column [rs']; the
    buffer keeps its length. *)
Theorem complete_task2_footprint (m n rs re cs ce : Z) (st : kstate) (q : Z) :
  0 ≤ effective_start rs → re ≤ n →
  ¬ in_block n (effective_start cs) ce (effective_start rs) q →
  load (mat (complete_task2 m n rs re cs ce st)) q = load (mat st) q
  ∧ length (mat (complete_task2 m n rs re cs ce st)) = length (mat st).
Proof.
  intros Hrs Hre Hq. split; [|apply complete_task2_length].
  by apply complete_task2_frame.
Qed.

(** The flat index [4] of a 3x3 buffer (row 1, column 1) under an update of
    rows [[2, 3)] by pivot 0: untouched. *)
Lemma complete_task2_footprint_witness :
  load (mat (complete_task2 3 3 0 1 2 3
               (KState [1; 2; 3; 4; 5; 6; 7; 8; 9]%float
                  [2; 0; 0]%float [-0.5; 0; 0]%float))) 4
  = 5%float.
Proof.
  refine (eq_trans (proj1 (complete_task2_footprint 3 3 0 1 2 3
    (KState [1; 2; 3; 4; 5; 6; 7; 8; 9]%float [2; 0; 0]%float
       [-0.5; 0; 0]%float) 4 _ _ _)) _).
  - vm_compute. discriminate.
  - lia.
  - vm_compute. intros [[H _] _]. by apply H.
  - reflexivity.
Defined.

(** What complete_task2 computes in its rows depends only on those rows and
    on its pivot rows, from column [rs'] on, and on the reflector vectors. *)
Lemma complete_task2_agree (Q : Z → Prop) m n rs re cs ce st1 st2 :
  0 ≤ effective_start rs → re ≤ n →
  (∀ q, in_block n (effective_start cs) ce (effective_start rs) q → Q q) →
  (∀ q, in_block n (effective_start rs) re (effective_start rs) q → Q q) →
  global_up_array st1 = global_up_array st2 →
  global_b_array st1 = global_b_array st2 →
  length (mat st1) = length (mat st2) → agree Q (mat st1) (mat st2) →
  agree Q (mat (complete_task2 m n rs re cs ce st1))
    (mat (complete_task2 m n rs re cs ce st2)).
Proof.
  intros Hrs Hre HQt HQp Hup Hb Hlen Hag.
  unfold complete_task2. fold (effective_start rs) (effective_start cs).
  cut (let r1 := for_loop (effective_start rs) re
                   (update_pivot n (effective_start cs) ce) st1 in
       let r2 := for_loop (effective_start rs) re
                   (update_pivot n (effective_start cs) ce) st2 in
       global_up_array r1 = global_up_array r2
       ∧ global_b_array r1 = global_b_array r2
       ∧ length (mat r1) = length (mat r2) ∧ agree Q (mat r1) (mat r2));
    [cbn zeta; tauto|].
  cbn zeta.
  apply (for_loop_ind2 (λ a b,
           global_up_array a = global_up_array b
           ∧ global_b_array a = global_b_array b
           ∧ length (mat a) = length (mat b) ∧ agree Q (mat a) (mat b)));
    [done|].
  intros p a b Hp (Hu & Hbb & Hl & Ha).
  split; [done|]. split; [done|].
  apply update_pivot_agree; try done; [lia| | |by rewrite Hu|by rewrite Hbb].
  - intros q Hin. apply HQt. revert Hin. apply in_block_mono; lia.
  - intros i Hi. apply HQp. apply in_block_cell; lia.
Qed.

Lemma kstate_ext (s1 s2 : kstate) :
  mat s1 = mat s2 → global_up_array s1 = global_up_array s2 →
  global_b_array s1 = global_b_array s2 → s1 = s2.
Proof. destruct s1, s2. cbn. by intros -> -> ->. Qed.

(** One update task after another whose target rows it neither updates nor
    reads as pivot rows. *)
Lemma complete_task2_after m n rsA reA csA ceA rsB reB csB ceB st q :
  0 ≤ effective_start rsA → reA ≤ n → 0 ≤ effective_start rsB → reB ≤ n →
  (∀ r, effective_start csB ≤ r < ceB →
        ¬ effective_start csA ≤ r < ceA ∧ ¬ effective_start rsA ≤ r < reA) →
  load (mat (complete_task2 m n rsA reA csA ceA
               (complete_task2 m n rsB reB csB ceB st))) q
  = if decide (in_block n (effective_start csA) ceA (effective_start rsA) q)
    then load (mat (complete_task2 m n rsA reA csA ceA st)) q
    else load (mat (complete_task2 m n rsB reB csB ceB st)) q.
Proof.
  intros HrsA HreA HrsB HreB Hdis. case_decide as Hq.
  - apply (complete_task2_agree
             (λ q, in_block n (effective_start csA) ceA (effective_start rsA) q
                   ∨ in_block n (effective_start rsA) reA (effective_start rsA) q));
      try done; try tauto.
    + apply complete_task2_slots.
    + apply complete_task2_slots.
    + apply complete_task2_length.
    + intros q' Hq'. apply complete_task2_frame; [done..|].
      intros [Hrow _]. destruct (Hdis _ Hrow) as [H1 H2].
      destruct Hq' as [[H _]|[H _]]; tauto.
  - by apply complete_task2_frame.
Qed.

(** X2. Two update tasks commute when the target rows of each are disjoint
    from the target rows and from the pivot rows of the other: either order
    gives the same matrix and the same reflector vectors. *)
Theorem independent_updates_commute
    (m n rsA reA csA ceA rsB reB csB ceB : Z) (st : kstate) :
  0 ≤ effective_start rsA → reA ≤ n → 0 ≤ effective_start rsB → reB ≤ n →
  (∀ r, effective_start csA ≤ r < ceA →
        ¬ effective_start csB ≤ r < ceB ∧ ¬ effective_start rsB ≤ r < reB) →
  (∀ r, effective_start csB ≤ r < ceB → ¬ effective_start rsA ≤ r < reA) →
  complete_task2 m n rsA reA csA ceA (complete_task2 m n rsB reB csB ceB st)
  = complete_task2 m n rsB reB csB ceB (complete_task2 m n rsA reA csA ceA st).
Proof.
  intros HrsA HreA HrsB HreB HA HB.
  assert (HBA : ∀ r, effective_start csB ≤ r < ceB →
            ¬ effective_start csA ≤ r < ceA ∧ ¬ effective_start rsA ≤ r < reA).
  { intros r Hr. split; [|by apply HB]. intros Hr'. by destruct (HA r Hr'). }
  apply kstate_ext.
  - apply buffer_ext; [by rewrite !complete_task2_length|].
    intros q.
    rewrite (complete_task2_after m n rsA reA csA ceA rsB reB csB ceB) by done.
    rewrite (complete_task2_after m n rsB reB csB ceB rsA reA csA ceA) by done.
    repeat case_decide; try done.
    + exfalso. destruct H as [Hr _], H0 as [Hr' _]. by destruct (HA _ Hr).
    + transitivity (load (mat st) q); [|symmetry];
        by apply complete_task2_frame.
  - destruct (complete_task2_slots m n rsA reA csA ceA
                (complete_task2 m n rsB reB csB ceB st)) as [-> _].
    destruct (complete_task2_slots m n rsB reB csB ceB
                (complete_task2 m n rsA reA csA ceA st)) as [-> _].
    destruct (complete_task2_slots m n rsA reA csA ceA st) as [-> _].
    by destruct (complete_task2_slots m n rsB reB csB ceB st) as [-> _].
  - destruct (complete_task2_slots m n rsA reA csA ceA
                (complete_task2 m n rsB reB csB ceB st)) as [_ ->].
    destruct (complete_task2_slots m n rsB reB csB ceB
                (complete_task2 m n rsA reA csA ceA st)) as [_ ->].
    destruct (complete_task2_slots m n rsA reA csA ceA st) as [_ ->].
    by destruct (complete_task2_slots m n rsB reB csB ceB st) as [_ ->].
Qed.

(** Pivot row 0 of a 4x4 matrix applied to row 2 and to row 3, in either
    order. *)
Lemma independent_updates_commute_witness :
  let st := KState [-3; 2; 1; 0; 0; 1; 0; 0; 4; 5; 6; 7; 8; 9; 10; 11]%float
              [4; 0; 0; 0]%float [-0.0625; 0; 0; 0]%float in
  complete_task2 4 4 0 1 2 3 (complete_task2 4 4 0 1 3 4 st)
  = complete_task2 4 4 0 1 3 4 (complete_task2 4 4 0 1 2 3 st).
Proof.
  cbn zeta.
  apply (independent_updates_commute 4 4 0 1 2 3 0 1 3 4);
    intros; unfold effective_start in *; repeat case_decide; lia.
Defined.

(** ** complete_task1: its footprint *)

Lemma factor_pivot_length n row_end col_end p st :
  length (mat (factor_pivot n row_end col_end p st)) = length (mat st).
Proof.
  unfold factor_pivot. destruct (scan_row (mat st) n p) as [cl sm1].
  repeat case_match; cbn; rewrite ?reflector_loop_length, ?store_length; done.
Qed.

Lemma factor_pivot_frame n row_end col_end p st q :
  0 ≤ p < n → ¬ in_block n p (Z.max (p + 1) col_end) p q →
  load (mat (factor_pivot n row_end col_end p st)) q = load (mat st) q.
Proof.
  intros Hp Hq.
  assert (Hd : q ≠ p * n + p).
  { intros ->. apply Hq. apply in_block_cell; lia. }
  unfold factor_pivot. destruct (scan_row (mat st) n p) as [cl sm1].
  repeat case_match; cbn; try done; try by apply load_store_ne.
  match goal with |- load (for_loop _ _ _ ?m0) _ = _ =>
    transitivity (load m0 q); [|by apply load_store_ne] end.
  apply (for_loop_ind (λ m', load m' q = load _ q)); [done|].
  intros j m' Hj <-. apply apply_reflector_frame; [done|].
  intros Hin. apply Hq. revert Hin. apply in_block_mono; lia.
Qed.

Lemma complete_task1_length m n rs re cs ce st :
  length (mat (complete_task1 m n rs re cs ce st)) = length (mat st).
Proof.
  unfold complete_task1.
  apply (for_loop_ind (λ s, length (mat s) = length (mat st))); [done|].
  intros p s _ <-. apply factor_pivot_length.
Qed.

Lemma complete_task1_frame m n rs re cs ce st q :
  0 ≤ effective_start rs → re ≤ n →
  ¬ in_block n (effective_start rs) (Z.max re ce) (effective_start rs) q →
  load (mat (complete_task1 m n rs re cs ce st)) q = load (mat st) q.
Proof.
  intros Hrs Hre Hq. unfold complete_task1. fold (effective_start rs).
  apply (for_loop_ind (λ s, load (mat s) q = load (mat st) q)); [done|].
  intros p s Hp <-. apply factor_pivot_frame; [lia|].
  intros Hin. apply Hq. revert Hin. apply in_block_mono; lia.
Qed.

(** X3. complete_task1 on pivots [[rs', re)] with reflectors applied up to
    row [ce] changes no cell above row [rs'], none from row [max re ce] on
    and none left of column [rs']; slots of the reflector vectors outside
    [[rs', re)] keep their value; the buffer keeps its length. *)
Theorem complete_task1_footprint (m n rs re cs ce : Z) (st : kstate) :
  0 ≤ effective_start rs → re ≤ n →
  let st' := complete_task1 m n rs re cs ce st in
  (∀ q, ¬ in_block n (effective_start rs) (Z.max re ce) (effective_start rs) q →
        load (mat st') q = load (mat st) q)
  ∧ (∀ r, ¬ effective_start rs ≤ r < re →
          load (global_up_array st') r = load (global_up_array st) r
          ∧ load (global_b_array st') r = load (global_b_array st) r)
  ∧ length (mat st') = length (mat st).
Proof.
  intros Hrs Hre st'. split_and!.
  - intros q Hq. by apply complete_task1_frame.
  - intros r Hr. subst st'. unfold complete_task1. fold (effective_start rs).
    apply (for_loop_ind (λ s,
             load (global_up_array s) r = load (global_up_array st) r
             ∧ load (global_b_array s) r = load (global_b_array st) r));
      [done|].
    intros p s Hp [<- <-]. apply factor_pivot_slots_frame. lia.
  - apply complete_task1_length.
Qed.

(** The panel factor of row 0 of a 3x3 matrix, reflectors applied to rows
    below 2: row 2 and the slots 1 and 2 are left as they were. *)
Lemma complete_task1_footprint_witness :
  let st := KState [3; 4; 0; 1; 2; 3; 7; 8; 9]%float [0; 0; 0]%float
              [0; 0; 0]%float in
  let st' := complete_task1 3 3 0 1 0 2 st in
  load (mat st') 7 = 8%float ∧ load (global_up_array st') 1 = 0%float.
Proof.
  cbn zeta.
  destruct (complete_task1_footprint 3 3 0 1 0 2
    (KState [3; 4; 0; 1; 2; 3; 7; 8; 9]%float [0; 0; 0]%float
       [0; 0; 0]%float)) as (Hm & Hs & _).
  - unfold effective_start. by case_decide.
  - lia.
  - split.
    + rewrite Hm; [reflexivity|]. vm_compute. intros [[_ H] _]. discriminate H.
    + destruct (Hs 1) as [-> _]; [|reflexivity].
      unfold effective_start. case_decide; lia.
Defined.

(** ** The sign of the stored diagonal *)

Lemma fmax_positive x y :
  (0 <? y)%float = true → (0 <? fmax x y)%float = true.
Proof.
  intros Hy. unfold fmax. destruct (is_nan x) eqn:Hx; [done|].
  assert (Prim2SF x ≠ S754_nan) as Hx'.
  { intros E%FloatFacts.is_nan_spec. congruence. }
  destruct (is_nan y) eqn:Hn.
  - apply FloatFacts.is_nan_spec in Hn. revert Hy.
    by rewrite FloatAxioms.ltb_spec, Hn.
  - destruct (x <? y)%float eqn:E; [done|].
    revert E Hy. rewrite !FloatAxioms.ltb_spec, FloatFacts.Prim2SF_zero.
    destruct (Prim2SF x) as [[]|[]| |[] mx ex],
      (Prim2SF y) as [[]|[]| |[] my ey]; cbn; try done.
Qed.

Lemma fabs_positive x :
  (0 <? x)%float = true ∨ (x <? 0)%float = true → (0 <? fabs x)%float = true.
Proof.
  unfold fabs. rewrite !FloatAxioms.ltb_spec, FloatAxioms.abs_spec,
    FloatFacts.Prim2SF_zero.
  destruct (Prim2SF x) as [[]|[]| |[] mx ex]; cbn; intuition discriminate.
Qed.

(** A pivot whose diagonal entry is positive or negative is not skipped at
    line 71. *)
Lemma spec_cl_positive m n p :
  (0 <? load m (p * n + p))%float = true
  ∨ (load m (p * n + p) <? 0)%float = true →
  (spec_cl m n p <=? 0)%float = false.
Proof.
  intros H%fabs_positive. apply FloatFacts.zero_ltb_leb. unfold spec_cl.
  revert H. generalize (fabs (load m (p * n + p))) (row_tail m n p).
  intros c l. revert c. induction l as [|x l IH]; intros c Hc; [done|].
  cbn [foldl]. apply IH. by apply fmax_positive.
Qed.

Lemma factor_pivot_diagonal n row_end col_end p st :
  0 ≤ p < n → p < row_end → (Z.to_nat (p * n + p) < length (mat st))%nat →
  let cl := spec_cl (mat st) n p in
  let hs := householder_scalars cl (spec_sm1 (mat st) n p)
              (load (mat st) (p * n + p)) in
  load (mat (factor_pivot n row_end col_end p st)) (p * n + p)
  = if (cl <=? 0)%float then load (mat st) (p * n + p) else hs_cl hs.
Proof.
  intros Hp Hre Hlen cl hs.
  rewrite factor_pivot_cases by (done || lia). fold cl hs.
  repeat case_match; cbn [mat set_mat]; try done;
    rewrite ?reflector_loop_load_below by lia;
    by rewrite load_store_eq by (nia || done).
Qed.

(** X4. One pivot step of complete_task1 never leaves on the diagonal a
    value of the sign it found there: a positive [M[p,p]] is replaced by a
    value that is not positive, a negative one by a value that is not
    negative (the replacement may be a zero or a NaN), and neither is
    skipped at line 71. *)
Theorem factored_diagonal_sign (st : kstate) (n row_end col_end p : Z) :
  let mpp := load (mat st) (p * n + p) in
  let d := load (mat (factor_pivot n row_end col_end p st)) (p * n + p) in
  0 ≤ p < n → p < row_end → (Z.to_nat (p * n + p) < length (mat st))%nat →
  ((0 <? mpp)%float = true → (0 <? d)%float = false)
  ∧ ((mpp <? 0)%float = true → (d <? 0)%float = false).
Proof.
  intros mpp d Hp Hre Hlen. subst d.
  rewrite factor_pivot_diagonal by done. fold mpp.
  assert (sf_nonneg (Prim2SF (spec_cl (mat st) n p
            * sqrt (hs_sm (householder_scalars (spec_cl (mat st) n p)
                             (spec_sm1 (mat st) n p) mpp))))) as Hnn.
  { apply FloatFacts.mul_nonneg;
      [apply spec_cl_nonneg|apply FloatFacts.sqrt_nonneg]. }
  split; intros Hs.
  - rewrite spec_cl_positive by (by left).
    unfold householder_scalars; cbn [hs_cl]. rewrite Hs.
    by apply FloatFacts.opp_nonneg_not_pos.
  - rewrite spec_cl_positive by (by right).
    unfold householder_scalars; cbn [hs_cl].
    rewrite (FloatFacts.ltb_zero_asym _ Hs).
    by apply FloatFacts.ltb_zero_false.
Qed.

(** Pivot 0 of the rows [3 4] and [1 2]: the diagonal becomes [-5]. *)
Lemma factored_diagonal_sign_witness :
  (0 <? load (mat (factor_pivot 2 1 2 0
                     (KState [3; 4; 1; 2]%float [0; 0]%float [0; 0]%float)))
          0)%float = false.
Proof.
  apply (factored_diagonal_sign
           (KState [3; 4; 1; 2]%float [0; 0]%float [0; 0]%float) 2 1 2 0);
    cbn; (lia || reflexivity).
Defined.

(** ** The zero matrix *)

Lemma load_zero m q :
  Forall (λ x, is_zero x = true) m → sf_zero (Prim2SF (load m q)).
Proof.
  intros Hm. apply FloatFacts.is_zero_spec. unfold load.
  case_decide; [|done].
  destruct (m !! Z.to_nat q) as [x|] eqn:E; [|done].
  by apply (Forall_lookup_1 _ _ _ _ Hm E).
Qed.

Lemma fabs_of_zero x : sf_zero (Prim2SF x) → sf_zero (Prim2SF (fabs x)).
Proof.
  unfold fabs. rewrite FloatAxioms.abs_spec.
  by destruct (Prim2SF x) as [[]|[]| |[] mx ex].
Qed.

Lemma leb_zero_of_zero x : sf_zero (Prim2SF x) → (x <=? 0)%float = true.
Proof.
  rewrite FloatAxioms.leb_spec, FloatFacts.Prim2SF_zero.
  by destruct (Prim2SF x) as [[]|[]| |[] mx ex].
Qed.

Lemma spec_cl_zero_matrix m n p :
  Forall (λ x, is_zero x = true) m → (spec_cl m n p <=? 0)%float = true.
Proof.
  intros Hm. apply leb_zero_of_zero. unfold spec_cl, row_tail.
  generalize (fabs_of_zero _ (load_zero m (p * n + p) Hm)).
  generalize (fabs (load m (p * n + p))) (seqZ (p + 1) (n - (p + 1))).
  intros c l. revert c. induction l as [|k l IH]; intros c Hc; [done|].
  cbn [fmap list_fmap foldl]. apply IH.
  destruct (FloatFacts.fmax_cases (fabs (load m (p * n + k))) c) as [->| ->];
    [|done].
  apply fabs_of_zero. by apply load_zero.
Qed.

Lemma apply_reflector_zero_matrix n p up b j m :
  Forall (λ x, is_zero x = true) m → sf_finite (Prim2SF up) →
  apply_reflector n p up b j m = m.
Proof.
  intros Hm Hup. unfold apply_reflector.
  assert ((dot_tail m n p j (load m (j * n + p) * up) =? 0)%float = true)
    as ->; [|done].
  apply FloatFacts.eqb_zero_spec. unfold dot_tail.
  apply (for_loop_ind (λ sm, sf_zero (Prim2SF sm))).
  - apply FloatFacts.mul_zero_l; [by apply load_zero|done].
  - intros i sm _ Hsm. apply FloatFacts.add_zero_zero; [done|].
    apply FloatFacts.mul_zero_l; [by apply load_zero|].
    apply FloatFacts.zero_finite. by apply load_zero.
Qed.

(** X5. A matrix of zeros (of either sign) is a fixed point of both
    kernels, whatever the ranges: complete_task1 skips every pivot at line
    71 and stores no reflector; complete_task2 leaves at line 155 on every
    row, provided the reflector values [up] it reads are finite. *)
Theorem zero_matrix_is_fixed (m n rs re cs ce : Z) (st : kstate) :
  Forall (λ x, is_zero x = true) (mat st) →
  complete_task1 m n rs re cs ce st = st
  ∧ (Forall (λ x, is_finite x = true) (global_up_array st) →
     complete_task2 m n rs re cs ce st = st).
Proof.
  intros Hm. split.
  - unfold complete_task1. apply for_loop_id. intros p _.
    unfold factor_pivot. rewrite scan_row_spec.
    by rewrite spec_cl_zero_matrix.
  - intros Hup. unfold complete_task2. apply for_loop_id. intros p _.
    unfold update_pivot. rewrite for_loop_id; [apply set_mat_same|].
    intros j _. apply apply_reflector_zero_matrix; [done|].
    by apply load_finite.
Qed.

(** The 2x2 matrix of zeros, one of them negative, with the ranges of a
    whole-matrix task. *)
Lemma zero_matrix_is_fixed_witness :
  let st := KState [0; (-0); 0; 0]%float [2; 0]%float [(-0.5); 0]%float in
  complete_task1 2 2 0 2 0 2 st = st ∧ complete_task2 2 2 0 2 0 2 st = st.
Proof.
  cbn zeta.
  destruct (zero_matrix_is_fixed 2 2 0 2 0 2
    (KState [0; (-0); 0; 0]%float [2; 0]%float [(-0.5); 0]%float))
    as [H1 H2].
  - repeat first [apply Forall_nil_2 | apply Forall_cons_2; [reflexivity|]].
  - split; [exact H1|apply H2].
    repeat first [apply Forall_nil_2 | apply Forall_cons_2; [reflexivity|]].
Defined.

(** ** Pivot ranges compose *)

Lemma for_loop_split {S} lo mid hi (body : Z → S → S) s :
  lo ≤ mid ≤ hi →
  for_loop lo hi body s = for_loop mid hi body (for_loop lo mid body s).
Proof.
  intros H. unfold for_loop.
  replace (hi - lo) with ((mid - lo) + (hi - mid)) by lia.
  rewrite seqZ_app by lia. rewrite foldl_app. do 2 f_equal. lia.
Qed.

Lemma for_loop_ext {S} lo hi (f g : Z → S → S) s :
  (∀ i s, lo ≤ i < hi → f i s = g i s) →
  for_loop lo hi f s = for_loop lo hi g s.
Proof.
  intros H. apply (for_loop_ind2 eq); [done|].
  intros i s1 s2 Hi ->. by apply H.
Qed.

(** Inside the pivot loop the test of line 91 is never true: the step of
    pivot [p] is the same for every [row_end] above [p]. *)
Lemma factor_pivot_row_end n row_end row_end' col_end p st :
  p < row_end → p < row_end' →
  factor_pivot n row_end col_end p st = factor_pivot n row_end' col_end p st.
Proof.
  intros H H'. unfold factor_pivot.
  destruct (scan_row (mat st) n p) as [cl sm1].
  destruct (cl <=? 0)%float; [done|].
  by rewrite !decide_False by lia.
Qed.

(** X6. Pivot ranges compose: a kernel run on the pivots [[rs', re)] is
    the run on [[rs', mid)] followed by the run on [[mid, re)], for both
    kernels, when [mid] is not the sentinel 1 (a second run started at 1
    would start over at row 0).  For complete_task1 this uses that the test
    [row_end - lpivot < 0] of line 91 never holds inside the loop. *)
Theorem pivot_ranges_compose (m n rs mid re cs ce : Z) (st : kstate) :
  effective_start rs ≤ mid ≤ re → mid ≠ 1 →
  complete_task1 m n rs re cs ce st
    = complete_task1 m n mid re cs ce (complete_task1 m n rs mid cs ce st)
  ∧ complete_task2 m n rs re cs ce st
    = complete_task2 m n mid re cs ce (complete_task2 m n rs mid cs ce st).
Proof.
  intros Hmid Hne. unfold complete_task1, complete_task2.
  fold (effective_start rs) (effective_start cs) (effective_start mid).
  assert (effective_start mid = mid) as ->.
  { unfold effective_start. by rewrite decide_False. }
  split.
  - rewrite (for_loop_split _ mid re) by done. f_equal.
    apply for_loop_ext. intros p s Hp. apply factor_pivot_row_end; lia.
  - by rewrite (for_loop_split _ mid re).
Qed.

(** The three rows of a 3x3 matrix factored in one call, and in a call
    for rows 0 and 1 followed by a call for row 2. *)
Lemma pivot_ranges_compose_witness :
  let st := KState [3; 4; 0; 1; 2; 2; 2; 1; 2]%float [0; 0; 0]%float
              [0; 0; 0]%float in
  complete_task1 3 3 0 3 0 3 st
  = complete_task1 3 3 2 3 0 3 (complete_task1 3 3 0 2 0 3 st).
Proof.
  cbn zeta.
  refine (proj1 (pivot_ranges_compose 3 3 0 2 3 0 3
    (KState [3; 4; 0; 1; 2; 2; 2; 1; 2]%float [0; 0; 0]%float
       [0; 0; 0]%float) _ _)).
  - unfold effective_start. case_decide; lia.
  - lia.
Defined.

(** ** A panel factor that reaches below its panel *)

Lemma for_loop_commute {S} lo hi (f : Z → S → S) (g : S → S) s :
  (∀ i s, lo ≤ i < hi → f i (g s) = g (f i s)) →
  for_loop lo hi f (g s) = g (for_loop lo hi f s).
Proof.
  intros H. apply (for_loop_ind2 (λ x y, x = g y)); [done|].
  intros i x y Hi ->. by apply H.
Qed.

Lemma agree_store (Q : Z → Prop) m1 m2 i v :
  length m1 = length m2 → agree Q m1 m2 →
  agree Q (store m1 i v) (store m2 i v).
Proof.
  intros Hlen Hag q Hq. rewrite !load_store, Hlen.
  case_decide; [done|by apply Hag].
Qed.

Lemma scan_row_agree (Q : Z → Prop) m1 m2 n p :
  (∀ k, p ≤ k < n → Q (p * n + k)) → p < n → agree Q m1 m2 →
  scan_row m1 n p = scan_row m2 n p.
Proof.
  intros HQ Hp Hag. unfold scan_row.
  rewrite (Hag (p * n + p)) by (apply HQ; lia).
  apply (for_loop_ind2 eq); [done|].
  intros k [cl sm1] ? Hk <-. by rewrite (Hag (p * n + k)) by (apply HQ; lia).
Qed.

(** A pivot step reads the cells it may write and no others. *)
Lemma factor_pivot_agree (Q : Z → Prop) n re ce p s1 s2 :
  0 ≤ p < n →
  (∀ q, in_block n p (Z.max (p + 1) ce) p q → Q q) →
  global_up_array s1 = global_up_array s2 →
  global_b_array s1 = global_b_array s2 →
  length (mat s1) = length (mat s2) → agree Q (mat s1) (mat s2) →
  global_up_array (factor_pivot n re ce p s1)
    = global_up_array (factor_pivot n re ce p s2)
  ∧ global_b_array (factor_pivot n re ce p s1)
    = global_b_array (factor_pivot n re ce p s2)
  ∧ length (mat (factor_pivot n re ce p s1))
    = length (mat (factor_pivot n re ce p s2))
  ∧ agree Q (mat (factor_pivot n re ce p s1)) (mat (factor_pivot n re ce p s2))
  ∧ stores_reflector n re p s1 = stores_reflector n re p s2.
Proof.
  intros Hp HQ Hup Hb Hlen Hag.
  assert (HQrow : ∀ k, p ≤ k < n → Q (p * n + k)).
  { intros k Hk. apply HQ. apply in_block_cell; lia. }
  unfold factor_pivot, stores_reflector.
  rewrite (scan_row_agree Q (mat s1) (mat s2)) by (done || lia).
  destruct (scan_row (mat s2) n p) as [cl sm1].
  destruct (cl <=? 0)%float; [done|].
  rewrite (Hag (p * n + p)) by (apply HQrow; lia).
  set (hs := householder_scalars cl sm1 (load (mat s2) (p * n + p))).
  assert (Hm1 : agree Q (store (mat s1) (p * n + p) (hs_cl hs))
                  (store (mat s2) (p * n + p) (hs_cl hs))).
  { by apply agree_store. }
  rewrite (Hm1 (p * n + p)) by (apply HQrow; lia).
  case_decide; cbn [mat set_mat global_up_array global_b_array];
    [by rewrite !store_length|].
  destruct (0 <=? _)%float;
    cbn [mat set_mat global_up_array global_b_array negb];
    [by rewrite !store_length|].
  rewrite Hup, Hb. split_and!; try done.
  - by rewrite !reflector_loop_length, !store_length.
  - apply (for_loop_ind2 (λ a b, length a = length b ∧ agree Q a b)).
    + by rewrite !store_length.
    + intros j a b Hj [Hl Ha]. apply apply_reflector_agree; try done.
      * intros i Hi. apply HQ. apply in_block_cell; lia.
      * intros i Hi. apply HQrow. lia.
Qed.

Lemma factor_pivot_slots_length n re ce p st :
  length (global_up_array (factor_pivot n re ce p st))
    = length (global_up_array st)
  ∧ length (global_b_array (factor_pivot n re ce p st))
    = length (global_b_array st).
Proof.
  unfold factor_pivot. destruct (scan_row (mat st) n p) as [cl sm1].
  repeat case_match; cbn; by rewrite ?store_length.
Qed.

(** The step of pivot [p] on the panel rows and the update of the rows
    below the panel by an earlier pivot [lo] do not see each other. *)
Lemma factor_update_commute n re ce lo p st :
  0 ≤ lo < p → p < re → re ≤ n →
  factor_pivot n re re p (update_pivot n re ce lo st)
  = update_pivot n re ce lo (factor_pivot n re re p st)
  ∧ stores_reflector n re p (update_pivot n re ce lo st)
    = stores_reflector n re p st.
Proof.
  intros Hlo Hp Hre.
  destruct (factor_pivot_agree (in_block n p re p) n re re p
              (update_pivot n re ce lo st) st) as (Hu & Hb & Hl & Ha & Hs);
    [lia|by rewrite Z.max_r by lia|done|done|apply update_pivot_length| |].
  { intros q Hq. apply update_pivot_frame; [lia|].
    intros [Hrow _]. destruct Hq as [Hq _]. lia. }
  split; [|done]. apply kstate_ext; [|done..].
  apply buffer_ext.
  { by rewrite update_pivot_length, !factor_pivot_length, update_pivot_length. }
  intros q. destruct (decide (in_block n p re p q)) as [Hq|Hq].
  - rewrite (Ha q Hq). symmetry. apply update_pivot_frame; [lia|].
    intros [Hrow _]. destruct Hq as [Hq _]. lia.
  - rewrite factor_pivot_frame by (lia || by rewrite Z.max_r by lia).
    destruct (decide (in_block n re ce lo q)) as [Hq'|Hq'].
    + symmetry.
      apply (update_pivot_agree
               (λ q, in_block n re ce lo q
                     ∨ in_block n lo (lo + 1) (lo + 1) q));
        try done; try tauto; try lia.
      * intros i Hi. right. apply in_block_cell; lia.
      * apply factor_pivot_slots_frame. lia.
      * apply factor_pivot_slots_frame. lia.
      * apply factor_pivot_length.
      * intros q' Hq''. apply factor_pivot_frame; [lia|].
        rewrite Z.max_r by lia. intros [Hrow _].
        destruct Hq'' as [[H _]|[H _]]; lia.
    + rewrite !update_pivot_frame by (done || lia).
      symmetry. apply factor_pivot_frame; [lia|]. by rewrite Z.max_r by lia.
Qed.

(** A pivot step that stores its reflector and applies it down to row
    [ce] is the step that stops at the end of the panel, followed by the
    update of the rows from there to [ce] with the stored reflector. *)
Lemma factor_pivot_wide n re ce p st :
  0 ≤ p < re → re ≤ ce →
  (Z.to_nat p < length (global_up_array st))%nat →
  (Z.to_nat p < length (global_b_array st))%nat →
  stores_reflector n re p st = true →
  factor_pivot n re ce p st = update_pivot n re ce p (factor_pivot n re re p st).
Proof.
  intros Hp Hce Hlu Hlb. unfold factor_pivot, stores_reflector, update_pivot.
  destruct (scan_row (mat st) n p) as [cl sm1].
  destruct (cl <=? 0)%float; [done|].
  rewrite !decide_False by lia.
  destruct (0 <=? _)%float; [done|]. intros _.
  cbn [mat set_mat global_up_array global_b_array].
  rewrite (load_store_eq (global_up_array st)) by (done || lia).
  rewrite (load_store_eq (global_b_array st)) by (done || lia).
  by rewrite (for_loop_split (p + 1) re ce) by lia.
Qed.

Lemma panel_update_loop n re ce hi k : ∀ lo st,
  Z.to_nat (hi - lo) = k → 0 ≤ lo → hi ≤ re → re ≤ n → re ≤ ce →
  (Z.to_nat re ≤ length (global_up_array st))%nat →
  (Z.to_nat re ≤ length (global_b_array st))%nat →
  (∀ p, lo ≤ p < hi →
     stores_reflector n re p (for_loop lo p (factor_pivot n re re) st) = true) →
  for_loop lo hi (factor_pivot n re ce) st
  = for_loop lo hi (update_pivot n re ce)
      (for_loop lo hi (factor_pivot n re re) st).
Proof.
  induction k as [|k IH]; intros lo st Hk Hlo Hhi Hre Hce Hlu Hlb Hs.
  { by rewrite !for_loop_nil by lia. }
  rewrite !(for_loop_first lo hi) by lia.
  rewrite (factor_pivot_wide n re ce lo st); try lia.
  2: { specialize (Hs lo). rewrite for_loop_nil in Hs by lia. apply Hs. lia. }
  set (s1 := factor_pivot n re re lo st).
  assert (Hcomm : ∀ b, b ≤ re →
            for_loop (lo + 1) b (factor_pivot n re re)
              (update_pivot n re ce lo s1)
            = update_pivot n re ce lo
                (for_loop (lo + 1) b (factor_pivot n re re) s1)).
  { intros b Hb. apply for_loop_commute. intros p s Hp.
    apply factor_update_commute; lia. }
  rewrite (IH (lo + 1) (update_pivot n re ce lo s1)); try lia.
  - by rewrite Hcomm.
  - cbn. subst s1.
    destruct (factor_pivot_slots_length n re re lo st) as [-> _]. done.
  - cbn. subst s1.
    destruct (factor_pivot_slots_length n re re lo st) as [_ ->]. done.
  - intros p Hp. rewrite Hcomm by lia.
    destruct (factor_update_commute n re ce lo p
                (for_loop (lo + 1) p (factor_pivot n re re) s1)) as [_ ->];
      try lia.
    subst s1. rewrite <- for_loop_first by lia. apply Hs. lia.
Qed.

(** X7. A panel factor called with [col_end] below its panel does the work
    of the panel factor that stops at the end of the panel ([col_end =
    row_end]) followed by the update task for the rows [[row_end, col_end)]:
    the state is the same, cell by cell and slot by slot, when every pivot
    of the panel stores its reflector (none is degenerate) and the slots
    exist.  [row_end] is not 1, which the update would read as 0. *)
Theorem panel_factor_then_update (m n rs re cs ce : Z) (st : kstate) :
  0 ≤ effective_start rs → re ≤ n → re ≤ ce → re ≠ 1 →
  (Z.to_nat re ≤ length (global_up_array st))%nat →
  (Z.to_nat re ≤ length (global_b_array st))%nat →
  (∀ p, effective_start rs ≤ p < re →
     stores_reflector n re p
       (for_loop (effective_start rs) p (factor_pivot n re re) st) = true) →
  complete_task1 m n rs re cs ce st
  = complete_task2 m n rs re re ce (complete_task1 m n rs re cs re st).
Proof.
  intros Hrs Hre Hce Hne Hlu Hlb Hs.
  unfold complete_task1, complete_task2.
  fold (effective_start rs) (effective_start re).
  assert (effective_start re = re) as ->.
  { unfold effective_start. by rewrite decide_False. }
  by apply (panel_update_loop n re ce re
              (Z.to_nat (re - effective_start rs))).
Qed.

(** Rows 0 and 1 of a 3x3 matrix factored with the reflectors applied to
    row 2 as well, and factored alone with row 2 updated afterwards. *)
Lemma panel_factor_then_update_witness :
  let st := KState [3; 4; 0; 1; 2; 2; 2; 1; 2]%float [0; 0; 0]%float
              [0; 0; 0]%float in
  complete_task1 3 3 0 2 0 3 st
  = complete_task2 3 3 0 2 2 3 (complete_task1 3 3 0 2 0 2 st).
Proof.
  cbn zeta.
  apply (panel_factor_then_update 3 3 0 2 0 3
    (KState [3; 4; 0; 1; 2; 2; 2; 1; 2]%float [0; 0; 0]%float
       [0; 0; 0]%float));
    try (unfold effective_start; repeat case_decide; cbn; lia).
  intros p Hp.
  assert (p = 0 ∨ p = 1) as [-> | ->]
    by (unfold effective_start in Hp; case_decide; lia);
    vm_compute; reflexivity.
Defined.

(** * Further properties of the scheduler *)

Section SchedulerMore.
Variable cfg : config.
Variable getTask : Z → Z → Task.
Variables total_task_rows total_task_cols : Z.
Variables m n : Z.

Local Abbreviation enqueue_column := (enqueue_column getTask total_task_rows).
Local Abbreviation execute_task :=
  (execute_task cfg getTask total_task_rows total_task_cols m n).
Local Abbreviation ready_phase :=
  (ready_phase cfg getTask total_task_rows total_task_cols m n).
Local Abbreviation exit_cell := (exit_cell cfg total_task_rows).
Local Abbreviation exit_test := (exit_test cfg total_task_rows).
Local Abbreviation thdwork_iter :=
  (thdwork_iter cfg getTask total_task_rows total_task_cols m n).
Local Abbreviation thdwork :=
  (thdwork cfg getTask total_task_rows total_task_cols m n).
Local Abbreviation workers_in_turn :=
  (workers_in_turn cfg getTask total_task_rows total_task_cols m n).
Local Abbreviation step :=
  (step cfg getTask total_task_rows total_task_cols m n).
Local Abbreviation step_priority :=
  (step_priority cfg getTask total_task_rows total_task_cols m n).

(** X8. The pass over the wait queue (lines 222-235) loses and duplicates
    no task: the two queues together hold the same tasks before and after,
    the ready queue only grows at its tail, by at most the head of the wait
    queue, and neither the kernel state nor a flag changes. *)
Theorem wait_phase_conserves (s : sched) :
  kernel_state (wait_phase s) = kernel_state s
  ∧ dependency_table (wait_phase s) = dependency_table s
  ∧ taskPQ (wait_phase s) ++ wait_queue (wait_phase s)
      ≡ₚ taskPQ s ++ wait_queue s
  ∧ (taskPQ (wait_phase s) = taskPQ s
     ∨ ∃ rest, wait_queue s = hd (getTask 0 0) (wait_queue s) :: rest
               ∧ taskPQ (wait_phase s)
                 = taskPQ s ++ [hd (getTask 0 0) (wait_queue s)]
               ∧ wait_queue (wait_phase s) = rest).
Proof.
  unfold wait_phase. destruct (wait_queue s) as [|t rest] eqn:E.
  - rewrite E. split_and!; try done. by left.
  - case_match; cbn; split_and!; try done.
    + by rewrite <- app_assoc.
    + right. by exists rest.
    + by rewrite <- Permutation_cons_append.
    + by left.
Qed.

(** X9. What the completion of an update task enqueues (lines 214-218):
    nothing to the wait queue, and to the ready queue the one descriptor
    [getTask ((j+1) / R) (j+1)] when [enq_nxt_t1] is set and [j + 1 <=
    total_task_cols], nothing otherwise.  The guard admits [j + 1 =
    total_task_cols]: an update task of the last grid column with
    [enq_nxt_t1] set asks the table for column [total_task_cols], one past
    the columns [0 .. total_task_cols - 1] of the grid.  [R] is not 0, so
    that the division of line 217 is defined. *)
Theorem update_completion_enqueues (t : Task) (s : sched) :
  type t = 2 → BETA_DIV_ALPHA cfg ≠ 0 →
  let j := chunk_idx_j t in
  wait_queue (execute_task t s) = wait_queue s
  ∧ taskPQ (execute_task t s)
    = taskPQ s
      ++ (if enq_nxt_t1 t && bool_decide (j + 1 ≤ total_task_cols)
          then [getTask ((j + 1) ÷ BETA_DIV_ALPHA cfg) (j + 1)] else [])
  ∧ (enq_nxt_t1 t = true → j = total_task_cols - 1 →
     taskPQ (execute_task t s)
     = taskPQ s
       ++ [getTask (total_task_cols ÷ BETA_DIV_ALPHA cfg) total_task_cols]).
Proof.
  intros Ht HR j. unfold execute_task.
  rewrite decide_False by lia. rewrite decide_True by done. fold j.
  split_and!.
  - by case_match.
  - case_match; cbn; [done|by rewrite app_nil_r].
  - intros -> Hj. rewrite bool_decide_eq_true_2 by lia. cbn.
    by replace (j + 1) with total_task_cols by lia.
Qed.

Lemma ready_phase_dependency s :
  dependency_table s ⊆ dependency_table (ready_phase s).
Proof.
  unfold ready_phase. destruct (taskPQ s) as [|t rest]; [done|].
  rewrite execute_task_dependency. cbn.
  case_decide; [apply union_subseteq_r|done].
Qed.

Lemma exit_test_pass s :
  exit_test s = true → exit_test (wait_phase (ready_phase s)) = true.
Proof.
  unfold exit_test, getDependency. rewrite !bool_decide_eq_true.
  rewrite wait_phase_dependency. apply ready_phase_dependency.
Qed.

Lemma thdwork_after_exit fuel s :
  exit_test s = true → thdwork (S fuel) s = Some (wait_phase (ready_phase s)).
Proof.
  intros He.
  change (thdwork (S fuel) s) with
    (if exit_test (wait_phase (ready_phase s))
     then Some (wait_phase (ready_phase s))
     else thdwork fuel (wait_phase (ready_phase s))).
  by rewrite exit_test_pass.
Qed.

Lemma workers_after_exit fuel workers s :
  exit_test s = true → taskPQ s = [] → wait_queue s = [] →
  workers_in_turn (S fuel) workers s = Some s.
Proof.
  intros He Hq Hwq. induction workers as [|workers IH]; [done|].
  change (workers_in_turn (S fuel) (S workers) s) with
    (match thdwork (S fuel) s with
     | Some s' => workers_in_turn (S fuel) workers s'
     | None => None
     end).
  rewrite thdwork_after_exit by done.
  assert (wait_phase (ready_phase s) = s) as ->; [|done].
  unfold ready_phase, wait_phase. by rewrite Hq, Hwq.
Qed.

(** X10. The exit test stands at the end of the loop body: a worker that
    starts when the exit flag is already set still makes one whole pass (it
    pops and runs a ready task if there is one, and moves a waiting one)
    and then returns; with both queues empty it returns the state as it
    found it, and so does every worker after it. *)
Theorem late_worker_makes_one_pass (fuel : nat) (s : sched) :
  exit_test s = true →
  thdwork (S fuel) s = Some (wait_phase (ready_phase s))
  ∧ (taskPQ s = [] → wait_queue s = [] →
     ∀ workers, workers_in_turn (S fuel) workers s = Some s).
Proof.
  intros He. split; [by apply thdwork_after_exit|].
  intros Hq Hwq workers. by apply workers_after_exit.
Qed.

(** X11. An idle pool stays idle: with both queues empty and no task
    held by a worker, no step of any worker changes anything, so a flag that
    is not set will never be; a worker running alone then loops for ever
    when the exit flag is not set.  Nothing in thdwork detects the stall. *)
Theorem idle_pool_spins (p : pool) :
  taskPQ (shared p) = [] → wait_queue (shared p) = [] → running p = [] →
  (∀ p', rtc step p p' → p' = p)
  ∧ (exit_test (shared p) = false → ∀ fuel, thdwork fuel (shared p) = None).
Proof.
  intros Hq Hw Hr. split.
  - intros p' Hsteps. induction Hsteps as [|p1 p2 p3 H12 _ IH]; [done|].
    assert (p2 = p1) as ->; [|by apply IH].
    destruct H12 as [p0 t rest Hq' | p0 t r1 r2 Hr' | p0].
    + congruence.
    + rewrite Hr in Hr'. by destruct r1.
    + unfold wait_phase. rewrite Hw. by destruct p0.
  - intros He fuel. induction fuel as [|fuel IH]; [done|].
    change (thdwork (S fuel) (shared p)) with
      (if exit_test (wait_phase (ready_phase (shared p)))
       then Some (wait_phase (ready_phase (shared p)))
       else thdwork fuel (wait_phase (ready_phase (shared p)))).
    assert (wait_phase (ready_phase (shared p)) = shared p) as ->.
    { unfold ready_phase, wait_phase. by rewrite Hq, Hw. }
    by rewrite He.
Qed.

(** *** The priority queue in place of the FIFO queue *)

Lemma step_priority_dependency_mono p p' :
  step_priority p p' →
  dependency_table (shared p) ⊆ dependency_table (shared p').
Proof.
  intros [p0 t rest Hq | p0 t r1 r2 Hr | p0]; cbn.
  - done.
  - rewrite execute_task_dependency. case_decide; [apply union_subseteq_r|done].
  - by rewrite wait_phase_dependency.
Qed.

Lemma step_priority_columns p p' :
  (∀ i j, chunk_idx_i (getTask i j) = i ∧ chunk_idx_j (getTask i j) = j) →
  step_priority p p' →
  Forall (λ t, 0 ≤ chunk_idx_j t) (taskPQ (shared p) ++ running p)
  ∧ Forall (λ t, 1 ≤ chunk_idx_j t) (wait_queue (shared p)) →
  Forall (λ t, 0 ≤ chunk_idx_j t) (taskPQ (shared p') ++ running p')
  ∧ Forall (λ t, 1 ≤ chunk_idx_j t) (wait_queue (shared p')).
Proof.
  intros Hcoord [p0 t rest (l1 & l2 & Hq & -> & _) | p0 t r1 r2 Hr | p0].
  - cbn [shared running pop_taskPQ taskPQ wait_queue]. rewrite Hq.
    rewrite ?Forall_app, ?Forall_cons, ?Forall_app. tauto.
  - apply (step_columns cfg getTask total_task_rows total_task_cols m n
             Hcoord p0). by apply step_finish.
  - apply (step_columns cfg getTask total_task_rows total_task_cols m n
             Hcoord p0). apply step_wait.
Qed.

(** X12. The ordering invariants of the pool do not depend on the queue
    discipline: with the priority queue of lines 47-48 (a pop takes any task
    of highest priority), from every state [p] reached from the seeded one,
    every flag set in [p] is set in every later state, so the exit test
    stays true once true; and every task in the wait queue of [p] has a
    column [j >= 1]. *)
Theorem priority_queue_keeps_invariants (p0 p : pool) :
  (∀ i j, chunk_idx_i (getTask i j) = i ∧ chunk_idx_j (getTask i j) = j) →
  seeded getTask p0 → rtc step_priority p0 p →
  (∀ p', rtc step_priority p p' →
         dependency_table (shared p) ⊆ dependency_table (shared p')
         ∧ (exit_test (shared p) = true → exit_test (shared p') = true))
  ∧ Forall (λ t, 1 ≤ chunk_idx_j t) (wait_queue (shared p)).
Proof.
  intros Hcoord (Hq & Hw & Hr & _) Hsteps.
  assert (Hmono : ∀ q q', rtc step_priority q q' →
            dependency_table (shared q) ⊆ dependency_table (shared q')).
  { intros q q' H. induction H as [|q1 q2 q3 H12 _ IH]; [done|].
    etrans; [by apply step_priority_dependency_mono|done]. }
  split.
  - intros p' Hsteps'. split; [by apply Hmono|].
    unfold exit_test, getDependency.
    rewrite !bool_decide_eq_true. apply (Hmono _ _ Hsteps').
  - cut (Forall (λ t, 0 ≤ chunk_idx_j t) (taskPQ (shared p) ++ running p)
         ∧ Forall (λ t, 1 ≤ chunk_idx_j t) (wait_queue (shared p)));
      [tauto|].
    assert (Hinv : ∀ q q', rtc step_priority q q' →
              Forall (λ t, 0 ≤ chunk_idx_j t) (taskPQ (shared q) ++ running q)
              ∧ Forall (λ t, 1 ≤ chunk_idx_j t) (wait_queue (shared q)) →
              Forall (λ t, 0 ≤ chunk_idx_j t) (taskPQ (shared q') ++ running q')
              ∧ Forall (λ t, 1 ≤ chunk_idx_j t) (wait_queue (shared q'))).
    { intros q q' H. induction H as [|q1 q2 q3 H12 _ IH]; [done|].
      intros H1. apply IH. by apply (step_priority_columns q1 q2 Hcoord). }
    apply (Hinv p0 p Hsteps). rewrite Hq, Hw, Hr. split; [|done].
    repeat constructor. by rewrite (proj2 (Hcoord _ _)).
Qed.
End SchedulerMore.

(** An update task of the last column of the staircase grid, with
    [enq_nxt_t1] set: the descriptor of column 3 of a grid of 3 columns is
    queued. *)
Lemma update_completion_enqueues_witness :
  taskPQ (execute_task staircase_config staircase_table 3 3 0 0
            (staircase_table 3 2) (Sched (KState [] [] []) ∅ [] []))
  = [staircase_table 3 3].
Proof.
  refine (proj2 (proj2 (update_completion_enqueues staircase_config
    staircase_table 3 3 0 0 (staircase_table 3 2)
    (Sched (KState [] [] []) ∅ [] []) _ _)) _ _); by vm_compute.
Defined.

(** The exit flag of the staircase grid set, nothing queued: each of three
    workers leaves at once. *)
Lemma late_worker_makes_one_pass_witness :
  workers_in_turn staircase_config staircase_table 3 3 0 0 1 3
    (Sched (KState [] [] []) {[ (2, 2) ]} [] [])
  = Some (Sched (KState [] [] []) {[ (2, 2) ]} [] []).
Proof.
  apply (late_worker_makes_one_pass staircase_config staircase_table 3 3 0 0
           0 (Sched (KState [] [] []) {[ (2, 2) ]} [] [])); by vm_compute.
Defined.

(** The staircase grid with nothing queued and no flag set. *)
Lemma idle_pool_spins_witness :
  thdwork staircase_config staircase_table 3 3 0 0 5
    (Sched (KState [] [] []) ∅ [] []) = None.
Proof.
  apply (proj2 (idle_pool_spins staircase_config staircase_table 3 3 0 0
                  (Pool (Sched (KState [] [] []) ∅ [] []) [])
                  eq_refl eq_refl eq_refl)).
  by vm_compute.
Defined.

(** The run of [staircase_reachable] is a run over the priority queue as
    well. *)
Lemma staircase_priority_reachable :
  rtc (step_priority staircase_config staircase_table 3 3 0 0)
    staircase_seed staircase_pool.
Proof.
  assert (Hmax : ∀ t u, priority t = 0 → priority u = 0 →
            TaskComparator t u = false).
  { intros t u Ht Hu. unfold TaskComparator. by rewrite Ht, Hu. }
  eapply rtc_l.
  { apply (step_priority_pop _ _ _ _ _ _ _ (staircase_table 0 0) []).
    exists [], []. split_and!; [reflexivity..|]. by intros u ?%elem_of_nil. }
  eapply rtc_l.
  { by apply (step_priority_finish _ _ _ _ _ _ _ (staircase_table 0 0) [] []). }
  eapply rtc_l.
  { apply (step_priority_pop _ _ _ _ _ _ _ (staircase_table 1 0)
             [staircase_table 2 0]).
    exists [], [staircase_table 2 0]. split_and!; [reflexivity..|].
    intros u ->%list_elem_of_singleton. by apply Hmax. }
  eapply rtc_l.
  { apply (step_priority_pop _ _ _ _ _ _ _ (staircase_table 2 0) []).
    exists [], []. split_and!; [reflexivity..|]. by intros u ?%elem_of_nil. }
  eapply rtc_l.
  { by apply (step_priority_finish _ _ _ _ _ _ _ (staircase_table 1 0)
                [staircase_table 2 0] []). }
  eapply rtc_l.
  { apply (step_priority_pop _ _ _ _ _ _ _ (staircase_table 1 1) []).
    exists [], []. split_and!; [reflexivity..|]. by intros u ?%elem_of_nil. }
  eapply rtc_l.
  { by apply (step_priority_finish _ _ _ _ _ _ _ (staircase_table 1 1)
                [] [staircase_table 2 0]). }
  vm_compute. apply rtc_refl.
Qed.

Lemma priority_queue_keeps_invariants_witness :
  Forall (λ t, 1 ≤ chunk_idx_j t) [staircase_table 2 1].
Proof.
  exact (proj2
    (priority_queue_keeps_invariants staircase_config staircase_table 3 3 0 0
       staircase_seed staircase_pool (λ i j, conj eq_refl eq_refl)
       (conj eq_refl (conj eq_refl (conj eq_refl eq_refl)))
       staircase_priority_reachable)).
Defined.

(** X13. [TaskComparator] is a strict weak ordering, as the priority queue
    requires of its comparison; a pop of the priority queue succeeds on
    every queue that is not empty, and the task it takes has the greatest
    [priority] of the queue, the other tasks staying queued. *)
Theorem priority_pop_takes_a_maximum :
  (∀ a, TaskComparator a a = false)
  ∧ (∀ a b c, TaskComparator a b = true → TaskComparator b c = true →
              TaskComparator a c = true)
  ∧ (∀ a b c, TaskComparator a b = false → TaskComparator b c = false →
              TaskComparator a c = false)
  ∧ (∀ q, q ≠ [] → ∃ t rest, priority_pop q t rest)
  ∧ (∀ q t rest, priority_pop q t rest →
       q ≡ₚ t :: rest ∧ ∀ u, u ∈ q → priority u ≤ priority t).
Proof.
  split_and!.
  - intros a. apply Z.ltb_irrefl.
  - intros a b c. unfold TaskComparator. rewrite !Z.ltb_lt. lia.
  - intros a b c. unfold TaskComparator. rewrite !Z.ltb_ge. lia.
  - intros q Hq. induction q as [|x q IH]; [done|].
    destruct q as [|y q].
    { exists x, [], [], []. split_and!; [done..|]. by intros u ?%elem_of_nil. }
    destruct IH as (t & rest & l1 & l2 & Eq & -> & Hmax); [done|].
    assert (Hmax' : ∀ u, u ∈ l1 ++ l2 → priority u ≤ priority t).
    { intros u Hu. apply Z.ltb_ge. by apply Hmax. }
    destruct (decide (priority x < priority t)) as [Hlt|Hge].
    + exists t, (x :: l1 ++ l2), (x :: l1), l2. rewrite Eq.
      split_and!; [done..|].
      intros u [->|Hu]%elem_of_cons; [apply Z.ltb_ge; lia|by apply Hmax].
    + exists x, (y :: q), [], (y :: q). split_and!; [done..|].
      intros u Hu. apply Z.ltb_ge. rewrite Eq in Hu.
      apply elem_of_app in Hu as [Hu|[->|Hu]%elem_of_cons]; [|lia|].
      * etrans; [apply Hmax'; apply elem_of_app; by left|lia].
      * etrans; [apply Hmax'; apply elem_of_app; by right|lia].
  - intros q t rest (l1 & l2 & -> & -> & Hmax).
    assert (Hmax' : ∀ u, u ∈ l1 ++ l2 → priority u ≤ priority t).
    { intros u Hu. apply Z.ltb_ge. by apply Hmax. }
    split.
    + by rewrite Permutation_middle.
    + intros u [Hu|[->|Hu]%elem_of_cons]%elem_of_app; [|done|].
      * apply Hmax'. apply elem_of_app. by left.
      * apply Hmax'. apply elem_of_app. by right.
Qed.

(** * Further properties of the driver *)

Lemma ceil_div_bounds a b :
  0 < b → (ceil_div a b - 1) * b < a ≤ ceil_div a b * b.
Proof.
  intros Hb. unfold ceil_div.
  pose proof (Z.div_mod (- a) b ltac:(lia)) as Hdm.
  pose proof (Z.mod_pos_bound (- a) b Hb) as Hm. nia.
Qed.

(** X14. The cell the exit test reads is a cell of the task grid: for
    positive [ALPHA], [BETA] and [mat_rows] the grid has at least one row,
    and [(TR - 1, R * (TR - 1))] lies in its [TR] rows and [TC] columns,
    whether or not [ALPHA] divides [BETA]. *)
Theorem exit_cell_in_grid (cfg : config) (mat_rows : Z) :
  0 < ALPHA cfg → 0 < BETA cfg → 0 < mat_rows →
  let TR := total_rows cfg mat_rows in
  let TC := total_cols cfg mat_rows in
  0 < TR
  ∧ 0 ≤ (exit_cell cfg TR).1 < TR
  ∧ 0 ≤ (exit_cell cfg TR).2 < TC.
Proof.
  intros Ha Hb HM TR TC. subst TR TC.
  unfold exit_cell, total_rows, total_cols, BETA_DIV_ALPHA. cbn [fst snd].
  rewrite Z.quot_div_nonneg by lia.
  pose proof (ceil_div_bounds mat_rows (BETA cfg) Hb) as H1.
  pose proof (ceil_div_bounds mat_rows (ALPHA cfg) Ha) as H2.
  pose proof (Z.div_mod (BETA cfg) (ALPHA cfg) ltac:(lia)) as Hdm.
  pose proof (Z.mod_pos_bound (BETA cfg) (ALPHA cfg) Ha) as Hm.
  assert (0 ≤ BETA cfg / ALPHA cfg) by (apply Z.div_pos; lia).
  set (TR := ceil_div mat_rows (BETA cfg)) in *.
  set (TC := ceil_div mat_rows (ALPHA cfg)) in *.
  set (R := BETA cfg / ALPHA cfg) in *.
  assert (0 < TR) by nia.
  split_and!; try lia; nia.
Qed.

(** The constants of main.cpp on 100 rows: 10 grid rows and columns, exit
    cell (9, 9). *)
Lemma exit_cell_in_grid_witness :
  0 ≤ (exit_cell main_cpp_config (total_rows main_cpp_config 100)).2
    < total_cols main_cpp_config 100.
Proof.
  exact (proj2 (proj2
    (exit_cell_in_grid main_cpp_config 100 eq_refl eq_refl eq_refl))).
Defined.

Lemma ceil_div_one a b : 0 < a ≤ b → ceil_div a b = 1.
Proof.
  intros H. pose proof (ceil_div_bounds a b ltac:(lia)). nia.
Qed.

(** X15. A matrix of at most [BETA] rows is one panel: the grid has the
    single row 0, the first worker runs the seed task, whose flag is the
    exit flag, and every other worker leaves at once.  When the seed is a
    panel factor carrying the coordinates (0, 0), the driver returns what
    one call of complete_task1 with the ranges of the seed leaves, from
    reflector vectors of [mat_rows] zeros.  ([ALPHA = 0] is the division by
    zero of line 276: undefined behaviour.) *)
Theorem single_panel_run (cfg : config)
    (task_table : Z → Z → Z → Z → Z → Z → Z → Z → Task)
    (fuel : nat) (matrix : list float) (mat_rows mat_cols : Z) :
  let t := driver_table cfg task_table mat_rows mat_cols 0 0 in
  let st := complete_task1 mat_rows mat_cols
              (row_start t) (row_end t) (col_start t) (col_end t)
              (KState matrix (replicate (Z.to_nat mat_rows) 0%float)
                 (replicate (Z.to_nat mat_rows) 0%float)) in
  0 < mat_rows ≤ BETA cfg → 0 < NUM_THREADS cfg →
  type t = 1 → chunk_idx_i t = 0 → chunk_idx_j t = 0 →
  dagqrf cfg task_table (S fuel) matrix mat_rows mat_cols
  = if decide (ALPHA cfg = 0) then Undefined
    else Returns (mat st, global_up_array st).
Proof.
  intros t st HM HW Ht Hi Hj. unfold dagqrf. rewrite dagqrf_setup_spec.
  fold t. destruct (decide (ALPHA cfg = 0)) as [Ha|Ha].
  { rewrite decide_True; [done|by right]. }
  rewrite (decide_False (P := BETA cfg = 0 ∨ ALPHA cfg = 0)) by lia.
  rewrite !(decide_False (P := mat_rows < 0)) by lia.
  rewrite (decide_False (P := NUM_THREADS cfg < 0)) by lia.
  assert (total_rows cfg mat_rows = 1) as ->.
  { unfold total_rows. apply ceil_div_one. lia. }
  destruct (Z.to_nat (NUM_THREADS cfg)) as [|w] eqn:E; [lia|].
  set (s0 := Sched _ ∅ [t] []).
  set (TC := total_cols cfg mat_rows).
  set (tbl := driver_table cfg task_table mat_rows mat_cols).
  assert (thdwork_iter cfg tbl 1 TC mat_rows mat_cols s0
          = (Sched st {[ (0, 0) ]} [] [], true)) as Hiter.
  { unfold thdwork_iter, ready_phase, s0. cbn [taskPQ].
    unfold execute_task. rewrite decide_True by done.
    unfold enqueue_column. rewrite for_loop_nil by lia.
    unfold wait_phase, exit_test, exit_cell, getDependency, setDependency.
    cbn [wait_queue dependency_table pop_taskPQ kernel_state taskPQ fst snd].
    rewrite Hi, Hj, Z.mul_0_r, (right_id_L ∅ (∪)). fold st.
    by f_equal. }
  change (workers_in_turn cfg tbl 1 TC mat_rows mat_cols (S fuel) (S w) s0)
    with (match (let '(s', brk) := thdwork_iter cfg tbl 1 TC mat_rows mat_cols s0
                 in if brk then Some s'
                    else thdwork cfg tbl 1 TC mat_rows mat_cols fuel s') with
          | Some s' => workers_in_turn cfg tbl 1 TC mat_rows mat_cols
                         (S fuel) w s'
          | None => None
          end).
  rewrite Hiter. rewrite workers_after_exit; [by destruct st|..|done|done].
  unfold exit_test, exit_cell, getDependency. cbn.
  apply bool_decide_eq_true. rewrite Z.mul_0_r. by apply elem_of_singleton.
Qed.

(** The rows [3 4] and [1 2] under [ALPHA = BETA = 2] with two workers and
    the table of the specification. *)
Lemma single_panel_run_witness :
  dagqrf config_2_2 spec_task_table 1 [3; 4; 1; 2]%float 2 2
  = Returns (mat (complete_task1 2 2 0 2 0 2
                 (KState [3; 4; 1; 2]%float [0; 0]%float [0; 0]%float)),
          global_up_array (complete_task1 2 2 0 2 0 2
                 (KState [3; 4; 1; 2]%float [0; 0]%float [0; 0]%float))).
Proof.
  apply (single_panel_run config_2_2 spec_task_table 0 [3; 4; 1; 2]%float 2 2);
    by vm_compute.
Defined.

(** ** Sizes *)

Lemma complete_task1_shape m n rs re cs ce st :
  shape (complete_task1 m n rs re cs ce st) = shape st.
Proof.
  unfold complete_task1.
  apply (for_loop_ind (λ s, shape s = shape st)); [done|].
  intros p s _ <-. unfold shape.
  rewrite factor_pivot_length.
  by destruct (factor_pivot_slots_length n re ce p s) as [-> ->].
Qed.

Lemma complete_task2_shape m n rs re cs ce st :
  shape (complete_task2 m n rs re cs ce st) = shape st.
Proof.
  unfold shape. rewrite complete_task2_length.
  by destruct (complete_task2_slots m n rs re cs ce st) as [-> ->].
Qed.

Lemma thdwork_iter_shape cfg getTask TR TC m n s :
  shape (kernel_state (thdwork_iter cfg getTask TR TC m n s).1)
  = shape (kernel_state s).
Proof.
  unfold thdwork_iter. cbn [fst].
  assert (∀ s, kernel_state (wait_phase s) = kernel_state s) as ->.
  { intros s'. unfold wait_phase. by repeat case_match. }
  unfold ready_phase. destruct (taskPQ s) as [|t rest]; [done|].
  unfold execute_task.
  repeat case_decide; rewrite ?enqueue_column_spec; repeat case_match;
    cbn; by rewrite ?complete_task1_shape, ?complete_task2_shape.
Qed.

Lemma thdwork_shape cfg getTask TR TC m n fuel : ∀ s s',
  thdwork cfg getTask TR TC m n fuel s = Some s' →
  shape (kernel_state s') = shape (kernel_state s).
Proof.
  induction fuel as [|fuel IH]; intros s s'; [done|].
  cbn [thdwork].
  pose proof (thdwork_iter_shape cfg getTask TR TC m n s) as Hs.
  destruct (thdwork_iter cfg getTask TR TC m n s) as [s1 brk].
  cbn [fst] in Hs. destruct brk.
  - intros [= <-]. done.
  - intros H%IH. by rewrite H.
Qed.

Lemma workers_in_turn_shape cfg getTask TR TC m n fuel workers : ∀ s s',
  workers_in_turn cfg getTask TR TC m n fuel workers s = Some s' →
  shape (kernel_state s') = shape (kernel_state s).
Proof.
  induction workers as [|workers IH]; intros s s'; cbn [workers_in_turn].
  - by intros [= <-].
  - destruct (thdwork cfg getTask TR TC m n fuel s) as [s1|] eqn:E; [|done].
    intros H%IH. rewrite H. by apply thdwork_shape in E.
Qed.

(** X16. Whatever the task table hands out, and whatever the ranges of its
    tasks, a call of the driver that returns hands back a matrix buffer of
    the length it was given and an [up_array] of [mat_rows] entries: the
    kernels and the scheduler never resize a buffer. *)
Theorem dagqrf_keeps_sizes (cfg : config)
    (task_table : Z → Z → Z → Z → Z → Z → Z → Z → Task)
    (fuel : nat) (matrix : list float) (mat_rows mat_cols : Z)
    (matrix' up_array : list float) :
  dagqrf cfg task_table fuel matrix mat_rows mat_cols
    = Returns (matrix', up_array) →
  length matrix' = length matrix ∧ length up_array = Z.to_nat mat_rows.
Proof.
  unfold dagqrf. rewrite dagqrf_setup_spec.
  repeat case_decide; try done.
  destruct (workers_in_turn _ _ _ _ _ _ _ _ _) as [s|] eqn:E; [|done].
  apply workers_in_turn_shape in E. cbn in E.
  destruct (kernel_state s) as [m' u' b']. intros [= <- <-].
  unfold shape in E. cbn in E. rewrite length_replicate in E.
  by injection E as -> -> _.
Qed.

Lemma dagqrf_keeps_sizes_witness :
  ∃ matrix' up_array,
    dagqrf config_2_2 spec_task_table 1 [3; 4; 1; 2]%float 2 2
      = Returns (matrix', up_array)
    ∧ length matrix' = 4%nat ∧ length up_array = 2%nat.
Proof.
  destruct (dagqrf config_2_2 spec_task_table 1 [3; 4; 1; 2]%float 2 2)
    as [[matrix' up_array]| | |] eqn:E; try (vm_compute in E; discriminate).
  exists matrix', up_array. split; [done|].
  exact (dagqrf_keeps_sizes config_2_2 spec_task_table 1 [3; 4; 1; 2]%float
           2 2 matrix' up_array E).
Defined.

(** * save *)

Lemma save_row_loop (f : Z → token) cols k : ∀ a out,
  a + Z.of_nat k = cols →
  foldl (λ out j, let out := out ++ [f j] in
                  if decide (j < cols - 1) then out ++ [Space] else out)
    out (seqZ a (Z.of_nat k))
  = out ++ join (f <$> seqZ a (Z.of_nat k)).
Proof.
  induction k as [|k IH]; intros a out Hk.
  { cbn. by rewrite app_nil_r. }
  rewrite (seqZ_cons a) by lia.
  replace (Z.pred (Z.of_nat (S k))) with (Z.of_nat k) by lia.
  cbn [foldl fmap list_fmap]. rewrite IH by lia.
  destruct k as [|k].
  - cbn. rewrite decide_False by lia. by rewrite app_nil_r.
  - rewrite decide_True by lia.
    rewrite (seqZ_cons (Z.succ a)) by lia. cbn [fmap list_fmap join].
    by rewrite <- !app_assoc.
Qed.

Lemma save_row_spec mat mat_cols i out :
  save_row mat mat_cols i out = out ++ row_line mat mat_cols i.
Proof.
  unfold save_row, row_line, for_loop. rewrite Z.sub_0_r.
  destruct (decide (0 ≤ mat_cols)) as [H|H].
  - replace (seqZ 0 mat_cols) with (seqZ 0 (Z.of_nat (Z.to_nat mat_cols)))
      by (f_equal; lia).
    rewrite (save_row_loop (λ j, Num (load mat (i * mat_cols + j))) mat_cols)
      by lia.
    by rewrite app_assoc.
  - by rewrite seqZ_nil by lia.
Qed.

Lemma save_rows_ok fail mat mat_cols filename rows : ∀ out,
  Forall (λ i, fail i = false) rows →
  save_rows fail mat mat_cols filename rows out
  = (out ++ concat (row_line mat mat_cols <$> rows), Saved).
Proof.
  induction rows as [|i rows IH]; intros out Hok.
  { cbn. by rewrite app_nil_r. }
  apply Forall_cons in Hok as [Hi Hok]. cbn [save_rows].
  rewrite Hi, IH, save_row_spec by done. cbn. by rewrite app_assoc.
Qed.

Lemma save_rows_fail fail mat mat_cols filename l1 r l2 : ∀ out,
  Forall (λ i, fail i = false) l1 → fail r = true →
  save_rows fail mat mat_cols filename (l1 ++ r :: l2) out
  = (out ++ concat (row_line mat mat_cols <$> l1 ++ [r]),
     Thrown ("Error writing matrix data to file: " +:+ filename)).
Proof.
  induction l1 as [|i l1 IH]; intros out Hok Hr.
  { cbn. by rewrite Hr, save_row_spec, app_nil_r. }
  apply Forall_cons in Hok as [Hi Hok]. cbn [save_rows app].
  rewrite Hi, IH, save_row_spec by done. cbn. by rewrite app_assoc.
Qed.

Lemma numbers_app a b : numbers (a ++ b) = numbers a ++ numbers b.
Proof. apply omap_app. Qed.

Lemma numbers_join xs : numbers (join xs) = numbers xs.
Proof.
  induction xs as [|x [|y xs] IH]; [done..|].
  change (join (x :: y :: xs)) with ([x; Space] ++ join (y :: xs)).
  rewrite numbers_app, IH.
  change (x :: y :: xs) with ([x] ++ y :: xs).
  rewrite numbers_app. by destruct x.
Qed.

Lemma numbers_row_line mat mat_cols i :
  numbers (row_line mat mat_cols i)
  = load mat <$> seqZ (i * mat_cols) mat_cols.
Proof.
  unfold row_line. rewrite numbers_app, numbers_join.
  change (numbers [Newline]) with (@nil float). rewrite app_nil_r.
  replace (seqZ (i * mat_cols) mat_cols)
    with (Z.add (i * mat_cols) <$> seqZ 0 mat_cols)
    by (rewrite fmap_add_seqZ; f_equal; lia).
  rewrite <- list_fmap_compose.
  generalize (seqZ 0 mat_cols). intros l.
  induction l as [|j l IH]; [done|]. cbn. by f_equal.
Qed.

Lemma numbers_rows mat mat_cols k : ∀ a,
  0 ≤ mat_cols →
  numbers (concat (row_line mat mat_cols <$> seqZ a (Z.of_nat k)))
  = load mat <$> seqZ (a * mat_cols) (Z.of_nat k * mat_cols).
Proof.
  induction k as [|k IH]; intros a Hc.
  { by rewrite Z.mul_0_l. }
  rewrite (seqZ_cons a) by lia.
  replace (Z.pred (Z.of_nat (S k))) with (Z.of_nat k) by lia.
  cbn [fmap list_fmap concat].
  rewrite numbers_app, numbers_row_line, IH by done.
  replace (Z.of_nat (S k) * mat_cols)
    with (mat_cols + Z.of_nat k * mat_cols) by lia.
  rewrite seqZ_app by lia. rewrite fmap_app. do 3 f_equal. lia.
Qed.

(** X17. When the file opens and no row fails, [save] hands the stream
    the rows 0 to [mat_rows - 1] in order, each as its [mat_cols] entries
    separated by single spaces and closed by a newline (no space after the
    last entry), and returns; the values written, in order, are the first
    [mat_rows * mat_cols] entries of the buffer, row-major, each once. *)
Theorem save_writes_rows (fail : Z → bool) (matrix : list float)
    (mat_rows mat_cols : Z) (filename : string) :
  0 ≤ mat_cols → (∀ i, 0 ≤ i < mat_rows → fail i = false) →
  let out := concat (row_line matrix mat_cols <$> seqZ 0 mat_rows) in
  save true fail matrix mat_rows mat_cols filename = (out, Saved)
  ∧ numbers out = load matrix <$> seqZ 0 (mat_rows * mat_cols).
Proof.
  intros Hc Hok out. subst out. split.
  - unfold save. cbn [negb]. rewrite save_rows_ok; [done|].
    apply Forall_forall. intros i Hi%elem_of_seqZ. apply Hok. lia.
  - destruct (decide (0 ≤ mat_rows)) as [Hr|Hr].
    + rewrite <- (Z2Nat.id mat_rows) by done.
      by rewrite (numbers_rows matrix mat_cols (Z.to_nat mat_rows) 0).
    + rewrite !seqZ_nil by nia. done.
Qed.

(** A 2x2 matrix. *)
Lemma save_writes_rows_witness :
  save true (λ _, false) [1; 2; 3; 4]%float 2 2 "out.txt"
  = ([Num 1; Space; Num 2; Newline; Num 3; Space; Num 4; Newline], Saved).
Proof.
  refine (proj1 (save_writes_rows (λ _, false) [1; 2; 3; 4]%float 2 2
                   "out.txt" _ _)); [lia|done].
Defined.

(** X19. The two error paths of [save].  A file that does not open gives
    the exception of line 251 and nothing is written.  When row [r] is the
    first after which the stream has failed, the rows 0 to [r] have been
    handed to the stream, no later row is, and the exception of line 267 is
    thrown; the message is the fixed text followed by the file name. *)
Theorem save_errors (fail : Z → bool) (matrix : list float)
    (mat_rows mat_cols r : Z) (filename : string) :
  0 ≤ r < mat_rows → fail r = true → (∀ i, 0 ≤ i < r → fail i = false) →
  save false fail matrix mat_rows mat_cols filename
    = ([], Thrown ("Error opening file for writing: " +:+ filename))
  ∧ save true fail matrix mat_rows mat_cols filename
    = (concat (row_line matrix mat_cols <$> seqZ 0 (r + 1)),
       Thrown ("Error writing matrix data to file: " +:+ filename)).
Proof.
  intros Hr Hf Hok. split; [done|].
  unfold save. cbn [negb].
  replace mat_rows with (r + (mat_rows - r)) at 1 by lia.
  rewrite seqZ_app by lia. rewrite (seqZ_cons (0 + r)) by lia.
  rewrite Z.add_0_l.
  rewrite save_rows_fail; [|apply Forall_forall; intros i Hi%elem_of_seqZ;
                            apply Hok; lia|done].
  cbn [app]. do 3 f_equal.
  by rewrite (seqZ_app 0 r 1) by lia.
Qed.

(** The stream fails after the first of two rows. *)
Lemma save_errors_witness :
  save true (λ i, bool_decide (i = 0)) [1; 2; 3; 4]%float 2 2 "out.txt"
  = ([Num 1; Space; Num 2; Newline],
     Thrown "Error writing matrix data to file: out.txt").
Proof.
  refine (proj2 (save_errors (λ i, bool_decide (i = 0)) [1; 2; 3; 4]%float
                   2 2 0 "out.txt" _ _ _)); [lia|done|intros; lia].
Defined.

(** * The pivot row after its step *)

Lemma factor_pivot_row_tail n re ce p st k :
  0 ≤ p → 0 ≤ n → p < k < n →
  load (mat (factor_pivot n re ce p st)) (p * n + k) = load (mat st) (p * n + k).
Proof.
  intros Hp Hn Hk. unfold factor_pivot.
  destruct (scan_row (mat st) n p) as [cl sm1].
  repeat case_match; cbn [mat set_mat]; try done;
    rewrite ?reflector_loop_load_below by lia;
    apply load_store_ne; lia.
Qed.

(** X18. Once complete_task1 has made the step of pivot [p], row [p] is
    final: the later pivots of the call leave the whole row alone, and the
    step itself changes in it only the diagonal entry.  So in the result
    the entries of row [p] right of the diagonal are the ones pivot [p]
    scanned, which are the ones complete_task2 later reads as the reflector
    of [p], and the diagonal is the value its step stored. *)
Theorem pivot_row_is_final (m n rs re cs ce : Z) (st : kstate) (p k : Z) :
  let before := for_loop (effective_start rs) p (factor_pivot n re ce) st in
  let result := complete_task1 m n rs re cs ce st in
  0 ≤ effective_start rs → re ≤ n → effective_start rs ≤ p < re →
  (p < k < n →
   load (mat result) (p * n + k) = load (mat before) (p * n + k))
  ∧ load (mat result) (p * n + p)
    = load (mat (factor_pivot n re ce p before)) (p * n + p).
Proof.
  intros before result Hrs Hre Hp.
  assert (∀ c, 0 ≤ c < n →
            load (mat result) (p * n + c)
            = load (mat (factor_pivot n re ce p before)) (p * n + c)) as Hrow.
  { intros c Hc. subst result before. unfold complete_task1.
    fold (effective_start rs).
    rewrite (for_loop_split (effective_start rs) p re) by lia.
    rewrite (for_loop_first p re) by lia.
    set (s1 := factor_pivot n re ce p _).
    apply (for_loop_ind (λ s, load (mat s) (p * n + c) = load (mat s1) (p * n + c)));
      [done|].
    intros p' s Hp' <-. apply factor_pivot_frame; [lia|].
    rewrite in_block_cell by done. lia. }
  split.
  - intros Hk. rewrite Hrow by lia. apply factor_pivot_row_tail; lia.
  - apply Hrow. lia.
Qed.

(** Row 0 of a 3x3 matrix after the factorization of rows 0 and 1: its
    entry [4] right of the diagonal is the one that was scanned. *)
Lemma pivot_row_is_final_witness :
  load (mat (complete_task1 3 3 0 2 0 3
               (KState [3; 4; 0; 1; 2; 2; 2; 1; 2]%float [0; 0; 0]%float
                  [0; 0; 0]%float))) 1
  = 4%float.
Proof.
  refine (proj1 (pivot_row_is_final 3 3 0 2 0 3
    (KState [3; 4; 0; 1; 2; 2; 2; 1; 2]%float [0; 0; 0]%float
       [0; 0; 0]%float) 0 1 _ _ _) _);
    try (unfold effective_start; repeat case_decide; lia).
Defined.
